(** * mcp-image-generator: job lifecycle, wait protocol and listings

    A shallow embedding of [src/tools-http-wrapper.ts] (the tool handlers
    behind [callImageTool]), of the queue consumer ([queue]) and of the D1
    schema in [migrations/0001_create_tables.sql], followed by the
    properties of the job lifecycle that hold (or fail) on that code.
    The file also embeds the file naming of [uploadImage] (module
    [R2Storage]), the JSON-RPC endpoint of [mcp-handler.ts] and [index.ts]
    (module [MCP]) and the tool handler registered with the SDK server
    (module [SDK]).

    Conventions.
    - A JS string is a [string]; [.length] is [String.length].
    - A JS number that the code uses as an integer (timestamps, counts,
      limits) is a [Z]; a number that is not an integer only occurs in tool
      arguments and is the constructor [NonInt].
    - The two D1 tables are lists of rows in insertion order.
    - Everything the handlers read from their environment ([Date.now()],
      [crypto.randomUUID()], the outcome of a store or queue call, what a
      poll sees in the store, how long an [await] takes) is an explicit
      input of the embedded function. *)

From Stdlib Require Import ZArith List String Ascii Bool Arith Lia Sorted.
From Stdlib Require Import Permutation.
From Stdlib Require DecimalString.
Import ListNotations.

Local Open Scope string_scope.
Local Open Scope Z_scope.

(** ** Row types ([types.ts], "matches D1 schema exactly") *)

Inductive JobStatus := pending | processing | completed | failed.

Inductive Model := flux_schnell | sdxl_lightning | sdxl_base.

Record GenerationJob := mkJob {
  id : string;
  status : JobStatus;
  prompt : string;
  model : Model;
  image_url : option string;   (* string | null *)
  error : option string;       (* string | null *)
  created_at : Z;
  updated_at : Z
}.

Record Generation := mkGeneration {
  g_id : string;
  g_job_id : string;
  g_image_url : string;
  g_prompt : string;
  g_model : Model;
  g_created_at : Z
}.

Record ImageGenerationMessage := mkMessage {
  jobId : string;
  m_prompt : string;
  m_model : Model
}.

Definition JobStatus_eqb (a b : JobStatus) : bool :=
  match a, b with
  | pending, pending | processing, processing
  | completed, completed | failed, failed => true
  | _, _ => false
  end.

Definition model_name (m : Model) : string :=
  match m with
  | flux_schnell => "flux-schnell"
  | sdxl_lightning => "sdxl-lightning"
  | sdxl_base => "sdxl-base"
  end.

(** An awaited call either returns or throws an [Error] with a message. *)
Inductive Run (A : Type) :=
| Done (a : A)
| Throws (msg : string).
Arguments Done {A} a.
Arguments Throws {A} msg.

(** ** The D1 store *)

Module D1.

Record Database := mkDb {
  generation_jobs : list GenerationJob;
  generations : list Generation
}.

Definition empty : Database := mkDb [] [].

Definition has_job (jid : string) (db : Database) : bool :=
  existsb (fun j => String.eqb (id j) jid) (generation_jobs db).

Definition has_generation (gid : string) (db : Database) : bool :=
  existsb (fun g => String.eqb (g_id g) gid) (generations db).

(** [SELECT * FROM generation_jobs WHERE id = ?] with [.first()] *)
Definition first_job (jid : string) (db : Database) : option GenerationJob :=
  find (fun j => String.eqb (id j) jid) (generation_jobs db).

(** [INSERT INTO generation_jobs (id, status, prompt, model, created_at,
    updated_at) VALUES (?, ?, ?, ?, ?, ?)]: [image_url] and [error] take
    their default NULL; [id] is the PRIMARY KEY. *)
Definition insert_job (jid : string) (st : JobStatus) (p : string)
    (m : Model) (created updated : Z) (db : Database) : Run Database :=
  if has_job jid db
  then Throws "D1_ERROR: UNIQUE constraint failed: generation_jobs.id: SQLITE_CONSTRAINT"
  else Done (mkDb (generation_jobs db ++ [mkJob jid st p m None None created updated])
                  (generations db)).

(** [UPDATE generation_jobs SET ... WHERE id = ?] rewrites the matching
    row and leaves the others; with no matching row it changes nothing. *)
Definition update_where_id (jid : string) (f : GenerationJob -> GenerationJob)
    (db : Database) : Database :=
  mkDb (map (fun j => if String.eqb (id j) jid then f j else j) (generation_jobs db))
       (generations db).

(** [SET status = ?, updated_at = ?] *)
Definition set_status (st : JobStatus) (now : Z) (j : GenerationJob) : GenerationJob :=
  mkJob (id j) st (prompt j) (model j) (image_url j) (error j) (created_at j) now.

(** [SET status = ?, image_url = ?, updated_at = ?] *)
Definition set_status_image_url (st : JobStatus) (url : string) (now : Z)
    (j : GenerationJob) : GenerationJob :=
  mkJob (id j) st (prompt j) (model j) (Some url) (error j) (created_at j) now.

(** [SET status = ?, error = ?, updated_at = ?] *)
Definition set_status_error (st : JobStatus) (msg : string) (now : Z)
    (j : GenerationJob) : GenerationJob :=
  mkJob (id j) st (prompt j) (model j) (image_url j) (Some msg) (created_at j) now.

(** [INSERT INTO generations (id, job_id, image_url, prompt, model,
    created_at) VALUES (...)]: [id] is the PRIMARY KEY and [job_id]
    REFERENCES [generation_jobs(id)] (D1 enforces foreign keys). *)
Definition insert_generation (g : Generation) (db : Database) : Run Database :=
  if has_generation (g_id g) db
  then Throws "D1_ERROR: UNIQUE constraint failed: generations.id: SQLITE_CONSTRAINT"
  else if negb (has_job (g_job_id g) db)
  then Throws "D1_ERROR: FOREIGN KEY constraint failed: SQLITE_CONSTRAINT"
  else Done (mkDb (generation_jobs db) (generations db ++ [g])).

(** Rows in the order of their [id], as the index of the PRIMARY KEY
    keeps them (a TEXT key, compared byte by byte). *)
Fixpoint insert_by_id (x : GenerationJob) (l : list GenerationJob)
    : list GenerationJob :=
  match l with
  | [] => [x]
  | y :: l' => if String.leb (id x) (id y) then x :: y :: l'
               else y :: insert_by_id x l'
  end.

Fixpoint order_by_id (l : list GenerationJob) : list GenerationJob :=
  match l with
  | [] => []
  | x :: l' => insert_by_id x (order_by_id l')
  end.

(** [SELECT * FROM generation_jobs WHERE id IN (?,...,?)]: the statement
    has no ORDER BY; SQLite looks the listed values up in the index of
    the primary key, and the rows come in the order of their [id]. *)
Definition select_jobs_in (ids : list string) (db : Database) : list GenerationJob :=
  order_by_id (filter (fun j => existsb (String.eqb (id j)) ids) (generation_jobs db)).

(** [ORDER BY created_at DESC]: rows with equal keys keep their relative
    order (SQL leaves it open). *)
Fixpoint insert_desc {A} (key : A -> Z) (x : A) (l : list A) : list A :=
  match l with
  | [] => [x]
  | y :: l' => if key x <? key y then y :: insert_desc key x l'
               else x :: y :: l'
  end.

Fixpoint order_by_desc {A} (key : A -> Z) (l : list A) : list A :=
  match l with
  | [] => []
  | x :: l' => insert_desc key x (order_by_desc key l')
  end.

(** A bound number that SQLite can hold as a 64-bit integer. *)
Definition is_int64 (n : Z) : bool := (- 2 ^ 63 <=? n) && (n <? 2 ^ 63).

(** [LIMIT ? OFFSET ?] with both values bound: SQLite takes integers
    only, and rejects the statement for a number that is none. *)
Definition limit_offset {A} (limit offset : Z) (l : list A) : Run (list A) :=
  if is_int64 limit && is_int64 offset
  then Done (firstn (Z.to_nat limit) (skipn (Z.to_nat offset) l))
  else Throws "D1_ERROR: datatype mismatch: SQLITE_MISMATCH".

(** The optional [WHERE status = ?] of [list_jobs]. *)
Definition where_status (filter_by : option JobStatus) (l : list GenerationJob)
    : list GenerationJob :=
  match filter_by with
  | None => l
  | Some s => filter (fun j => JobStatus_eqb (status j) s) l
  end.

(** [SELECT COUNT( * ) as total FROM ...] *)
Definition count {A} (l : list A) : Z := Z.of_nat (List.length l).

End D1.

(** ** Tool arguments and the Zod schemas *)

Set Warnings "-register-all".

Inductive jsnum := Int (z : Z) | NonInt.

(** [args: any], as it arrives from the JSON request body. A key that is
    absent from an object reads as [undefined]. *)
Inductive json :=
| JNull
| JBool (b : bool)
| JNum (n : jsnum)
| JStr (s : string)
| JArr (items : list json)
| JObj (fields : list (string * json)).

Module Zod.

(** One issue of a [ZodError]: the path of the value it is about and its
    message, Zod's own or the one the schema gives. *)
Record Issue := mkIssue {
  issue_path : string;
  issue_message : string
}.

Inductive Parse (A : Type) :=
| Parsed (a : A)
| ZodError (issues : list Issue).
Arguments Parsed {A} a.
Arguments ZodError {A} issues.

Fixpoint lookup (k : string) (fields : list (string * json)) : option json :=
  match fields with
  | [] => None
  | (k', v) :: rest => if String.eqb k' k then Some v else lookup k rest
  end.

(** The type Zod reports for a received value. *)
Definition parsedType (v : option json) : string :=
  match v with
  | None => "undefined"
  | Some JNull => "null"
  | Some (JBool _) => "boolean"
  | Some (JNum _) => "number"
  | Some (JStr _) => "string"
  | Some (JArr _) => "array"
  | Some (JObj _) => "object"
  end.

Definition decimal (z : Z) : string :=
  DecimalString.NilZero.string_of_int (Z.to_int z).

(** The issue for a value of the wrong type. *)
Definition invalid_type (expected : string) (v : option json) (path : string)
    : Issue :=
  mkIssue path
    match v with
    | None => "Required"
    | Some _ => "Expected " ++ expected ++ ", received " ++ parsedType v
    end.

(** Zod's messages for the checks the schemas use. *)
Definition at_least_characters (lo : nat) : string :=
  "String must contain at least " ++ decimal (Z.of_nat lo) ++ " character(s)".

Definition at_most_characters (hi : nat) : string :=
  "String must contain at most " ++ decimal (Z.of_nat hi) ++ " character(s)".

Definition at_least (lo : Z) : string :=
  "Number must be greater than or equal to " ++ decimal lo.

Definition at_most (hi : Z) : string :=
  "Number must be less than or equal to " ++ decimal hi.

Definition at_least_elements (lo : nat) : string :=
  "Array must contain at least " ++ decimal (Z.of_nat lo) ++ " element(s)".

Definition at_most_elements (hi : nat) : string :=
  "Array must contain at most " ++ decimal (Z.of_nat hi) ++ " element(s)".

(** ['a' | 'b' | 'c'] *)
Definition one_of (options : list string) : string :=
  String.concat " | " (map (fun o => "'" ++ o ++ "'") options).

Definition invalid_enum_value (options : list string) (received path : string)
    : Issue :=
  mkIssue path ("Invalid enum value. Expected " ++ one_of options
                ++ ", received '" ++ received ++ "'").

(** The issue of a [z.union] none of whose members takes the input. *)
Definition invalid_union : Issue := mkIssue "" "Invalid input".

(** One field of a [z.object]: the parsed value or the issues. *)
Definition Field (A : Type) := option json -> string -> Parse A.

(** [z.string().min(lo, too_short).max(hi, too_long)] *)
Definition string_min_max_with (lo hi : nat) (too_short too_long : string)
    : Field string :=
  fun v path =>
    match v with
    | Some (JStr s) =>
        if ((lo <=? String.length s) && (String.length s <=? hi))%nat
        then Parsed s
        else ZodError [mkIssue path (if (String.length s <? lo)%nat
                                     then too_short else too_long)]
    | _ => ZodError [invalid_type "string" v path]
    end.

(** [z.string().min(lo).max(hi)] *)
Definition string_min_max (lo hi : nat) : Field string :=
  string_min_max_with lo hi (at_least_characters lo) (at_most_characters hi).

(** [z.string().min(lo, too_short)] *)
Definition string_min_with (lo : nat) (too_short : string) : Field string :=
  fun v path =>
    match v with
    | Some (JStr s) =>
        if (lo <=? String.length s)%nat then Parsed s
        else ZodError [mkIssue path too_short]
    | _ => ZodError [invalid_type "string" v path]
    end.

(** [z.string().min(lo)] *)
Definition string_min (lo : nat) : Field string :=
  string_min_with lo (at_least_characters lo).

(** [z.string()] *)
Definition any_string : Field string :=
  fun v path =>
    match v with
    | Some (JStr s) => Parsed s
    | _ => ZodError [invalid_type "string" v path]
    end.

(** [z.number().int().min(lo)] and [z.number().int().min(lo).max(hi)].
    [NonInt] stands for every number that is no integer: of the issues of
    such a number the embedding keeps the one of [.int()]. *)
Definition int_min (lo : Z) : Field Z :=
  fun v path =>
    match v with
    | Some (JNum (Int z)) =>
        if lo <=? z then Parsed z else ZodError [mkIssue path (at_least lo)]
    | Some (JNum NonInt) => ZodError [mkIssue path "Expected integer, received float"]
    | _ => ZodError [invalid_type "number" v path]
    end.

Definition int_min_max (lo hi : Z) : Field Z :=
  fun v path =>
    match v with
    | Some (JNum (Int z)) =>
        if (lo <=? z) && (z <=? hi) then Parsed z
        else ZodError [mkIssue path (if z <? lo then at_least lo else at_most hi)]
    | Some (JNum NonInt) => ZodError [mkIssue path "Expected integer, received float"]
    | _ => ZodError [invalid_type "number" v path]
    end.

Definition model_names : list string :=
  ["flux-schnell"; "sdxl-lightning"; "sdxl-base"].

(** [z.enum(['flux-schnell', 'sdxl-lightning', 'sdxl-base'])] *)
Definition model_enum : Field Model :=
  fun v path =>
    match v with
    | Some (JStr s) =>
        if String.eqb s "flux-schnell" then Parsed flux_schnell
        else if String.eqb s "sdxl-lightning" then Parsed sdxl_lightning
        else if String.eqb s "sdxl-base" then Parsed sdxl_base
        else ZodError [invalid_enum_value model_names s path]
    | _ => ZodError [invalid_type (one_of model_names) v path]
    end.

Definition status_filter_names : list string :=
  ["all"; "pending"; "processing"; "completed"; "failed"].

(** [z.enum(['all', 'pending', 'processing', 'completed', 'failed'])];
    ['all'] is [None]. *)
Definition status_filter_enum : Field (option JobStatus) :=
  fun v path =>
    match v with
    | Some (JStr s) =>
        if String.eqb s "all" then Parsed None
        else if String.eqb s "pending" then Parsed (Some pending)
        else if String.eqb s "processing" then Parsed (Some processing)
        else if String.eqb s "completed" then Parsed (Some completed)
        else if String.eqb s "failed" then Parsed (Some failed)
        else ZodError [invalid_enum_value status_filter_names s path]
    | _ => ZodError [invalid_type (one_of status_filter_names) v path]
    end.

(** [.optional().default(d)]: [undefined] becomes [d]. *)
Definition optional_default {A} (f : Field A) (d : A) : Field A :=
  fun v path => match v with None => Parsed d | Some _ => f v path end.

(** The items of an array of strings. *)
Fixpoint strings_of (items : list json) : option (list string) :=
  match items with
  | [] => Some []
  | JStr s :: rest =>
      match strings_of rest with Some l => Some (s :: l) | None => None end
  | _ :: _ => None
  end.

Definition issues_of {A} (p : Parse A) : list Issue :=
  match p with Parsed _ => [] | ZodError i => i end.

(** [ZodError.message] is the JSON text of the issue list; the embedding
    keeps the path and the message of each issue. *)
Definition message (issues : list Issue) : string :=
  "ZodError: "
  ++ String.concat ", "
       (map (fun i => issue_path i ++ ": " ++ issue_message i) issues).

Record GenerateImage := mkGenerateImage {
  gi_prompt : string;
  gi_model : Model;
  gi_count : Z
}.

(** [GenerateImageSchema.parse(args)] *)
Definition GenerateImageSchema (args : json) : Parse GenerateImage :=
  match args with
  | JObj fs =>
      let p := string_min_max 3 1000 (lookup "prompt" fs) "prompt" in
      let m := optional_default model_enum flux_schnell (lookup "model" fs) "model" in
      let c := optional_default (int_min_max 1 20) 1 (lookup "count" fs) "count" in
      match p, m, c with
      | Parsed p', Parsed m', Parsed c' => Parsed (mkGenerateImage p' m' c')
      | _, _, _ => ZodError (issues_of p ++ issues_of m ++ issues_of c)%list
      end
  | _ => ZodError [invalid_type "object" (Some args) ""]
  end.

(** [GetJobStatusSchema.parse(args)] *)
Definition GetJobStatusSchema (args : json) : Parse string :=
  match args with
  | JObj fs => string_min 1 (lookup "job_id" fs) "job_id"
  | _ => ZodError [invalid_type "object" (Some args) ""]
  end.

Inductive WaitForCompletion :=
| Single (job_id : string)
| Multiple (job_ids : list string).

(** [WaitForCompletionSchema.parse(args)]: the first member of the union
    that accepts the input wins. When none does, a member that failed
    only a length check reports its own issue; otherwise the union
    reports [invalid_union]. *)
Definition WaitForCompletionSchema (args : json) : Parse WaitForCompletion :=
  match args with
  | JObj fs =>
      match any_string (lookup "job_id" fs) "job_id" with
      | Parsed s => Parsed (Single s)
      | ZodError _ =>
          match lookup "job_ids" fs with
          | Some (JArr items) =>
              match strings_of items with
              | Some l =>
                  if ((1 <=? List.length l) && (List.length l <=? 20))%nat
                  then Parsed (Multiple l)
                  else ZodError [mkIssue "job_ids"
                                   (if (List.length l <? 1)%nat
                                    then at_least_elements 1
                                    else at_most_elements 20)]
              | None => ZodError [invalid_union]
              end
          | _ => ZodError [invalid_union]
          end
      end
  | _ => ZodError [invalid_union]
  end.

Record ListGenerations := mkListGenerations {
  lg_limit : Z;
  lg_offset : Z
}.

(** [ListGenerationsSchema.parse(args)] *)
Definition ListGenerationsSchema (args : json) : Parse ListGenerations :=
  match args with
  | JObj fs =>
      let l := optional_default (int_min_max 1 50) 10 (lookup "limit" fs) "limit" in
      let o := optional_default (int_min 0) 0 (lookup "offset" fs) "offset" in
      match l, o with
      | Parsed l', Parsed o' => Parsed (mkListGenerations l' o')
      | _, _ => ZodError (issues_of l ++ issues_of o)%list
      end
  | _ => ZodError [invalid_type "object" (Some args) ""]
  end.

Record ListJobs := mkListJobs {
  lj_status : option JobStatus;
  lj_limit : Z;
  lj_offset : Z
}.

(** [ListJobsSchema.parse(args)] *)
Definition ListJobsSchema (args : json) : Parse ListJobs :=
  match args with
  | JObj fs =>
      let s := optional_default status_filter_enum None (lookup "status" fs) "status" in
      let l := optional_default (int_min_max 1 50) 10 (lookup "limit" fs) "limit" in
      let o := optional_default (int_min 0) 0 (lookup "offset" fs) "offset" in
      match s, l, o with
      | Parsed s', Parsed l', Parsed o' => Parsed (mkListJobs s' l' o')
      | _, _, _ => ZodError (issues_of s ++ issues_of l ++ issues_of o)%list
      end
  | _ => ZodError [invalid_type "object" (Some args) ""]
  end.

End Zod.

(** ** The bindings a handler works on, and its effects *)

Record Env := mkEnv {
  DB : D1.Database;
  IMAGE_QUEUE : list ImageGenerationMessage   (* work units sent, oldest first *)
}.

(** An [async] body: it changes the bindings and returns or throws; what it
    changed before throwing stays changed. *)
Definition Eff (A : Type) := Env -> Run A * Env.

Definition ret {A} (a : A) : Eff A := fun env => (Done a, env).

Definition throw {A} (msg : string) : Eff A := fun env => (Throws msg, env).

Definition bind {A B} (c : Eff A) (k : A -> Eff B) : Eff B :=
  fun env =>
    match c env with
    | (Done a, env') => k a env'
    | (Throws msg, env') => (Throws msg, env')
    end.

(** [try { c } catch (error) { h error.message }] *)
Definition try_catch {A} (c : Eff A) (h : string -> Eff A) : Eff A :=
  fun env =>
    match c env with
    | (Done a, env') => (Done a, env')
    | (Throws msg, env') => h msg env'
    end.

Declare Scope eff_scope.
Delimit Scope eff_scope with eff.
Notation "x <- c ;; k" := (bind c (fun x => k))
  (at level 61, c at next level, right associativity) : eff_scope.
Notation "c ;;; k" := (bind c (fun _ => k))
  (at level 61, right associativity) : eff_scope.

(** [await env.DB.prepare(...).bind(...).run()] for a statement that
    writes. [outage] is what the store binding does to this call when it
    does not reach the table at all (it rejects with that message). *)
Definition run (outage : option string) (stmt : D1.Database -> Run D1.Database)
    : Eff unit :=
  fun env =>
    match outage with
    | Some msg => (Throws msg, env)
    | None =>
        match stmt (DB env) with
        | Done db' => (Done tt, mkEnv db' (IMAGE_QUEUE env))
        | Throws msg => (Throws msg, env)
        end
    end.

(** [await env.IMAGE_QUEUE.send(message)] *)
Definition send (outage : option string) (message : ImageGenerationMessage)
    : Eff unit :=
  fun env =>
    match outage with
    | Some msg => (Throws msg, env)
    | None => (Done tt, mkEnv (DB env) (IMAGE_QUEUE env ++ [message]))
    end.

(** What a call of [callImageTool] reads from outside its arguments. *)
Record Oracle := mkOracle {
  now : Z;                                (* [Date.now()] on entry *)
  randomUUID : nat -> string;             (* the i-th [crypto.randomUUID()] *)
  insert_outage : nat -> option string;   (* replica i: the INSERT rejects *)
  send_outage : nat -> option string;     (* replica i: the send rejects *)
  poll_sees : nat -> D1.Database -> D1.Database;
      (* the store as poll k reads it: what the other handlers have made,
         by then, of the store the call started on *)
  query_ms : nat -> Z;                    (* how long poll k's SELECT takes *)
  sleep_ms : nat -> Z                     (* how long the sleep after poll k takes *)
}.

(** ** Tool responses: the object handed to [JSON.stringify], and [isError] *)

Inductive Payload :=
| GenerateStarted (job_id : string) (p : string) (m : Model)
| GenerateStartedMany (job_ids : list string) (count : Z) (p : string) (m : Model)
| JobNotFound (job_id : string)
| JobStatusOf (j : GenerationJob)
| GenerationsPage (total_count returned_count : Z) (has_more : bool)
    (limit offset : Z) (rows : list Generation)
| JobsPage (filter_by : option JobStatus) (total_count returned_count : Z)
    (has_more : bool) (limit offset : Z) (rows : list GenerationJob)
| JobsNotFound                                  (* 'One or more jobs not found' *)
| WaitFailed (err : string)
| WaitFailedMany (n : Z) (failed_jobs : list (string * option string))
    (completed_jobs : list (string * option string))
| WaitCompleted (url : option string) (p : string) (m : Model)
| WaitCompletedMany (count : Z) (results : list GenerationJob)
| WaitTimeout (timeoutSeconds : Z)
| Failure (msg : string).                       (* the [catch] envelope *)

Record ToolResult := mkResult {
  content : Payload;
  isError : bool
}.

(** The [job_id] / [job_ids] a [generate_image] response carries. *)
Definition response_job_ids (r : ToolResult) : list string :=
  match content r with
  | GenerateStarted j _ _ => [j]
  | GenerateStartedMany js _ _ _ => js
  | _ => []
  end.

Local Open Scope eff_scope.

(** ** [generate_image] *)

(** The [for (let i = 0; i < params.count; i++)] loop, [todo] iterations
    from index [i] on. *)
Fixpoint create_jobs (o : Oracle) (params : Zod.GenerateImage)
    (todo i : nat) (jobIds : list string) : Eff (list string) :=
  match todo with
  | O => ret jobIds
  | S todo' =>
      let jobId := randomUUID o i in
      let jobIds := (jobIds ++ [jobId])%list in
      run (insert_outage o i)
          (D1.insert_job jobId pending (Zod.gi_prompt params) (Zod.gi_model params)
                         (now o) (now o)) ;;;
      send (send_outage o i)
           (mkMessage jobId (Zod.gi_prompt params) (Zod.gi_model params)) ;;;
      create_jobs o params todo' (S i) jobIds
  end.

Definition generate_image (args : json) (o : Oracle) : Eff ToolResult :=
  match Zod.GenerateImageSchema args with
  | Zod.ZodError issues => throw (Zod.message issues)
  | Zod.Parsed params =>
      jobIds <- create_jobs o params (Z.to_nat (Zod.gi_count params)) 0 [] ;;
      if Zod.gi_count params =? 1
      then ret (mkResult (GenerateStarted (hd "" jobIds) (Zod.gi_prompt params)
                                          (Zod.gi_model params)) false)
      else ret (mkResult (GenerateStartedMany jobIds (Zod.gi_count params)
                            (Zod.gi_prompt params) (Zod.gi_model params)) false)
  end.

(** ** [get_job_status] *)

Definition get_job_status (args : json) : Eff ToolResult :=
  match Zod.GetJobStatusSchema args with
  | Zod.ZodError issues => throw (Zod.message issues)
  | Zod.Parsed job_id =>
      fun env =>
        match D1.first_job job_id (DB env) with
        | None => (Done (mkResult (JobNotFound job_id) true), env)
        | Some result => (Done (mkResult (JobStatusOf result) false), env)
        end
  end.

(** ** [list_generations] and [list_jobs] *)

Definition list_generations (args : json) : Eff ToolResult :=
  match Zod.ListGenerationsSchema args with
  | Zod.ZodError issues => throw (Zod.message issues)
  | Zod.Parsed params =>
      fun env =>
        let totalCount := D1.count (D1.generations (DB env)) in
        match D1.limit_offset (Zod.lg_limit params) (Zod.lg_offset params)
                (D1.order_by_desc g_created_at (D1.generations (DB env))) with
        | Throws msg => (Throws msg, env)
        | Done results =>
            let returned := Z.of_nat (List.length results) in
            (Done (mkResult
               (GenerationsPage totalCount returned
                  (Zod.lg_offset params + returned <? totalCount)
                  (Zod.lg_limit params) (Zod.lg_offset params) results) false), env)
        end
  end.

Definition list_jobs (args : json) : Eff ToolResult :=
  match Zod.ListJobsSchema args with
  | Zod.ZodError issues => throw (Zod.message issues)
  | Zod.Parsed params =>
      fun env =>
        let matching := D1.where_status (Zod.lj_status params)
                          (D1.generation_jobs (DB env)) in
        let totalCount := D1.count matching in
        match D1.limit_offset (Zod.lj_limit params) (Zod.lj_offset params)
                (D1.order_by_desc created_at matching) with
        | Throws msg => (Throws msg, env)
        | Done results =>
            let returned := Z.of_nat (List.length results) in
            (Done (mkResult
               (JobsPage (Zod.lj_status params) totalCount returned
                  (Zod.lj_offset params + returned <? totalCount)
                  (Zod.lj_limit params) (Zod.lj_offset params) results) false), env)
        end
  end.

(** ** [wait_for_completion] *)

Definition BASE_TIMEOUT : Z := 60000.
Definition PER_JOB_TIMEOUT : Z := 3000.
Definition POLL_INTERVAL : Z := 3000.

Definition MAX_WAIT (jobIds : list string) : Z :=
  BASE_TIMEOUT + Z.of_nat (List.length jobIds) * PER_JOB_TIMEOUT.

(** [Math.round(x / 1000)] for [x >= 0] *)
Definition round_div_1000 (x : Z) : Z := (x + 500) / 1000.

Definition is_status (s : JobStatus) (j : GenerationJob) : bool :=
  JobStatus_eqb (status j) s.

(** [failed[0].error || 'Generation failed'] *)
Definition error_or_default (e : option string) : string :=
  match e with
  | Some msg => if String.eqb msg "" then "Generation failed" else msg
  | None => "Generation failed"
  end.

(** The body of the polling loop up to the sleep: [Some r] is [return r],
    [None] falls through to the sleep. [completed[0]] of an empty array is
    [undefined], and reading [job.image_url] then throws into the [catch]
    of [callImageTool]. *)
Definition poll (isSingle : bool) (jobIds : list string) (db : D1.Database)
    : option ToolResult :=
  let jobs := D1.select_jobs_in jobIds db in
  if negb (List.length jobs =? List.length jobIds)%nat
  then Some (mkResult JobsNotFound true)
  else
    let completed_ := filter (is_status completed) jobs in
    let failed_ := filter (is_status failed) jobs in
    let pending_ :=
      filter (fun j => is_status pending j || is_status processing j) jobs in
    if (0 <? List.length failed_)%nat then
      if isSingle
      then Some (mkResult
                   (WaitFailed (error_or_default
                                  (match failed_ with j :: _ => error j | [] => None end)))
                   true)
      else Some (mkResult
                   (WaitFailedMany (Z.of_nat (List.length failed_))
                      (map (fun j => (id j, error j)) failed_)
                      (map (fun j => (id j, image_url j)) completed_))
                   true)
    else if (List.length pending_ =? 0)%nat then
      if isSingle
      then match completed_ with
           | job :: _ =>
               Some (mkResult (WaitCompleted (image_url job) (prompt job) (model job)) false)
           | [] =>
               Some (mkResult
                       (Failure "Cannot read properties of undefined (reading 'image_url')")
                       true)
           end
      else Some (mkResult (WaitCompletedMany (Z.of_nat (List.length completed_)) completed_)
                          false)
    else None.

(** What a wait returns, and when: [elapsed_ms] is [Date.now() - startTime]
    at the [return], [sleeps] the number of [setTimeout] sleeps taken. *)
Record Waited := mkWaited {
  result : ToolResult;
  elapsed_ms : Z;
  sleeps : nat
}.

(** [while (Date.now() - startTime < MAX_WAIT) { ... }], entered for poll
    [k] with [elapsed = Date.now() - startTime]. The loop is bounded by the
    clock alone, so the embedding carries fuel; [None] is out of fuel. *)
Fixpoint wait_loop (o : Oracle) (db : D1.Database) (isSingle : bool)
    (jobIds : list string) (fuel k : nat) (elapsed : Z) : option Waited :=
  match fuel with
  | O => None
  | S fuel' =>
      if elapsed <? MAX_WAIT jobIds then
        let after_query := elapsed + query_ms o k in
        match poll isSingle jobIds (poll_sees o k db) with
        | Some r => Some (mkWaited r after_query k)
        | None =>
            wait_loop o db isSingle jobIds fuel' (S k) (after_query + sleep_ms o k)
        end
      else
        Some (mkWaited
                (mkResult (WaitTimeout (round_div_1000 (MAX_WAIT jobIds))) true)
                elapsed k)
  end.

Definition ids_of (params : Zod.WaitForCompletion) : list string :=
  match params with
  | Zod.Single job_id => [job_id]
  | Zod.Multiple job_ids => job_ids
  end.

Definition is_single (params : Zod.WaitForCompletion) : bool :=
  match params with Zod.Single _ => true | Zod.Multiple _ => false end.

Definition wait_for_completion (args : json) (o : Oracle) (fuel : nat)
    (env : Env) : option Waited :=
  match Zod.WaitForCompletionSchema args with
  | Zod.ZodError issues =>
      Some (mkWaited (mkResult (Failure (Zod.message issues)) true) 0 0)
  | Zod.Parsed params =>
      wait_loop o (DB env) (is_single params) (ids_of params) fuel 0 0
  end.

(** ** [callImageTool] *)

(** The [try { switch ... } catch (error) { ... }] around every tool. *)
Definition catch_all (c : Eff ToolResult) (env : Env) : ToolResult * Env :=
  match c env with
  | (Done r, env') => (r, env')
  | (Throws msg, env') => (mkResult (Failure msg) true, env')
  end.

(** The argument object [generate_image_and_wait] builds from the parsed
    [generate_image] response. *)
Definition wait_args_of (genResult : ToolResult) : json :=
  match content genResult with
  | GenerateStartedMany job_ids count _ _ =>
      if 1 <? count then JObj [("job_ids", JArr (map JStr job_ids))]
      else JObj []
  | GenerateStarted job_id _ _ => JObj [("job_id", JStr job_id)]
  | _ => JObj []
  end.

Definition callImageTool (name : string) (args : json) (o : Oracle) (fuel : nat)
    (env : Env) : option (ToolResult * Env) :=
  if String.eqb name "generate_image" then
    Some (catch_all (generate_image args o) env)
  else if String.eqb name "get_job_status" then
    Some (catch_all (get_job_status args) env)
  else if String.eqb name "list_generations" then
    Some (catch_all (list_generations args) env)
  else if String.eqb name "list_jobs" then
    Some (catch_all (list_jobs args) env)
  else if String.eqb name "wait_for_completion" then
    option_map (fun w => (result w, env)) (wait_for_completion args o fuel env)
  else if String.eqb name "generate_image_and_wait" then
    let (genResult, env') := catch_all (generate_image args o) env in
    option_map (fun w => (result w, env'))
               (wait_for_completion (wait_args_of genResult) o fuel env')
  else
    Some (mkResult (Failure ("Unknown tool: " ++ name)) true, env).

(** ** The queue consumer *)

(** One delivery of a work unit, with what the consumer meets while it
    handles it: the collaborators' outcomes, the clock readings, the fresh
    archive identifier, and store calls that reject without reaching the
    table. *)
Record Delivery := mkDelivery {
  body : ImageGenerationMessage;
  t_processing : Z;                (* [Date.now()] of step 1 *)
  ai_run : Run unit;               (* [env.AI.run], inside [generateImage] *)
  r2_put : Run string;             (* [uploadImage]: the [downloadUrl] *)
  t_now : Z;                       (* [const now = Date.now()] *)
  generation_id : string;          (* [crypto.randomUUID()] of step 5 *)
  t_failed : Z;                    (* [Date.now()] in the [catch] *)
  out_processing : option string;
  out_completed : option string;
  out_archive : option string;
  out_failed : option string
}.

Inductive Disposition := Ack | Retry.      (* [message.ack()], [message.retry()] *)

(** [generateImage] rethrows as [Image generation failed: ...]. *)
Definition generateImage (d : Delivery) : Eff unit :=
  match ai_run d with
  | Done _ => ret tt
  | Throws msg => throw ("Image generation failed: " ++ msg)
  end.

(** [uploadImage] rethrows as [Image upload failed: ...]. *)
Definition uploadImage (d : Delivery) : Eff string :=
  match r2_put d with
  | Done downloadUrl => ret downloadUrl
  | Throws msg => throw ("Image upload failed: " ++ msg)
  end.

(** Step 1 *)
Definition mark_processing (d : Delivery) : Eff unit :=
  run (out_processing d)
      (fun db => Done (D1.update_where_id (jobId (body d))
                         (D1.set_status processing (t_processing d)) db)).

(** Steps 2 to 5 and [message.ack()] *)
Definition generate_and_store (d : Delivery) : Eff Disposition :=
  generateImage d ;;;
  downloadUrl <- uploadImage d ;;
  run (out_completed d)
      (fun db => Done (D1.update_where_id (jobId (body d))
                         (D1.set_status_image_url completed downloadUrl (t_now d)) db)) ;;;
  run (out_archive d)
      (D1.insert_generation
         (mkGeneration (generation_id d) (jobId (body d)) downloadUrl
                       (m_prompt (body d)) (m_model (body d)) (t_now d))) ;;;
  ret Ack.

(** The [catch]: mark the job failed (a store error here is only logged)
    and ask for a retry. *)
Definition mark_failed (d : Delivery) (errorMessage : string) : Eff Disposition :=
  try_catch
    (run (out_failed d)
         (fun db => Done (D1.update_where_id (jobId (body d))
                            (D1.set_status_error failed errorMessage (t_failed d)) db)))
    (fun _ => ret tt) ;;;
  ret Retry.

(** The body of [for (const message of batch.messages)]. *)
Definition process_message (d : Delivery) : Eff Disposition :=
  try_catch (mark_processing d ;;; generate_and_store d) (mark_failed d).

Fixpoint queue (batch : list Delivery) : Eff (list Disposition) :=
  match batch with
  | [] => ret []
  | d :: rest =>
      a <- process_message d ;;
      l <- queue rest ;;
      ret (a :: l)
  end.

(** ** Observations the properties are stated with *)

Definition status_in (jid : string) (db : D1.Database) : option JobStatus :=
  option_map status (D1.first_job jid db).

(** Generation records that reference job [jid]. *)
Definition records_of (jid : string) (db : D1.Database) : list Generation :=
  filter (fun g => String.eqb (g_job_id g) jid) (D1.generations db).

(** The PRIMARY KEY of [generation_jobs]: no two rows share an [id]. *)
Definition primary_key (db : D1.Database) : Prop :=
  NoDup (map id (D1.generation_jobs db)).

(** Every write the handlers issue, with the values the code binds. *)
Inductive Write :=
| W_insert_job (jid p : string) (m : Model) (t : Z)
| W_processing (jid : string) (t : Z)
| W_completed (jid url : string) (t : Z)
| W_archive (g : Generation)
| W_failed (jid msg : string) (t : Z).

(** A write that throws leaves the store as it was. *)
Definition exec (w : Write) (db : D1.Database) : D1.Database :=
  match w with
  | W_insert_job jid p m t =>
      match D1.insert_job jid pending p m t t db with
      | Done db' => db' | Throws _ => db
      end
  | W_processing jid t => D1.update_where_id jid (D1.set_status processing t) db
  | W_completed jid url t =>
      D1.update_where_id jid (D1.set_status_image_url completed url t) db
  | W_archive g =>
      match D1.insert_generation g db with
      | Done db' => db' | Throws _ => db
      end
  | W_failed jid msg t =>
      D1.update_where_id jid (D1.set_status_error failed msg t) db
  end.

(** The stores the system can be in: any number of handlers, interleaved
    at any [await], with any writes rejected. *)
Inductive reachable : D1.Database -> Prop :=
| reach_empty : reachable D1.empty
| reach_write w db : reachable db -> reachable (exec w db).

(** Most recent first: every row is at least as recent as the next. *)
Definition newest_first {A} (key : A -> Z) (l : list A) : Prop :=
  Sorted (fun a b => key b <= key a) l.

(** The row and the work unit that replica [k] of a [generate_image] call
    creates. *)
Definition new_job_row (o : Oracle) (params : Zod.GenerateImage) (k : nat)
    : GenerationJob :=
  mkJob (randomUUID o k) pending (Zod.gi_prompt params) (Zod.gi_model params)
        None None (now o) (now o).

Definition work_unit (o : Oracle) (params : Zod.GenerateImage) (k : nat)
    : ImageGenerationMessage :=
  mkMessage (randomUUID o k) (Zod.gi_prompt params) (Zod.gi_model params).

(** [crypto.randomUUID()] does what it is for: the first [n] identifiers
    of the call differ from each other and from every job in the store. *)
Definition fresh_ids (o : Oracle) (n : nat) (db : D1.Database) : Prop :=
  NoDup (map (randomUUID o) (seq 0 n))
  /\ forall k, (k < n)%nat -> D1.has_job (randomUUID o k) db = false.

(** Store and queue accept every call of replicas [0 .. n-1]. *)
Definition no_outage_before (o : Oracle) (n : nat) : Prop :=
  forall k, (k < n)%nat -> insert_outage o k = None /\ send_outage o k = None.

(** The malformed [generate_image] arguments: an empty prompt or one
    longer than 1000, a model that is none of the three names, a count
    that is no integer in 1..20. *)
Definition malformed_generate_args (fs : list (string * json)) : Prop :=
  (exists s, Zod.lookup "prompt" fs = Some (JStr s)
             /\ (String.length s = 0 \/ 1000 < String.length s)%nat)
  \/ (exists v, Zod.lookup "model" fs = Some v
                /\ forall m, v <> JStr (model_name m))
  \/ (exists n, Zod.lookup "count" fs = Some (JNum n)
                /\ forall z, n = Int z -> z < 1 \/ 20 < z).

(** The clock moves forward over an [await]: a store query takes no
    negative time and [setTimeout] sleeps at least the interval asked. *)
Definition timer_ok (o : Oracle) : Prop :=
  forall k, 0 <= query_ms o k /\ POLL_INTERVAL <= sleep_ms o k.

(** Store queries that take no time and a timer that is exact. *)
Definition ideal_timer (o : Oracle) : Prop :=
  forall k, query_ms o k = 0 /\ sleep_ms o k = POLL_INTERVAL.

(** A poll that goes on to sleep: every named job is found, none is
    [failed], and one at least is still [pending] or [processing]. *)
Definition keeps_waiting (jobIds : list string) (db : D1.Database) : Prop :=
  let jobs := D1.select_jobs_in jobIds db in
  List.length jobs = List.length jobIds
  /\ (forall j, In j jobs -> status j <> failed)
  /\ (exists j, In j jobs /\ (status j = pending \/ status j = processing)).

(** What happens to the system: a tool call, or a batch handed to the
    consumer (first deliveries and re-deliveries alike). *)
Inductive Event :=
| ToolCall (name : string) (args : json) (o : Oracle) (fuel : nat)
| QueueBatch (batch : list Delivery).

Definition step (env : Env) (e : Event) : Env :=
  match e with
  | ToolCall name args o fuel =>
      match callImageTool name args o fuel env with
      | Some (_, env') => env'
      | None => env
      end
  | QueueBatch batch => snd (queue batch env)
  end.

Definition run_events (es : list Event) (env : Env) : Env :=
  fold_left step es env.

Definition initial : Env := mkEnv D1.empty [].

(** The event hands the consumer a work unit of job [jid]. *)
Definition delivers_to (jid : string) (e : Event) : bool :=
  match e with
  | ToolCall _ _ _ _ => false
  | QueueBatch batch => existsb (fun d => String.eqb (jobId (body d)) jid) batch
  end.

(** The store takes every statement of the delivery. *)
Definition store_accepts (d : Delivery) : Prop :=
  out_processing d = None /\ out_completed d = None
  /\ out_archive d = None /\ out_failed d = None.

(** What the status of a row says about its result and error fields. *)
Definition row_consistent (j : GenerationJob) : Prop :=
  (status j = completed -> image_url j <> None)
  /\ (status j = failed -> error j <> None)
  /\ (status j = pending -> image_url j = None /\ error j = None).

(** A handler body that keeps a relation between the store before and the
    store after. *)
Definition preserves (R : D1.Database -> D1.Database -> Prop) {A} (c : Eff A)
    : Prop :=
  forall env, R (DB env) (DB (snd (c env))).

(** The status changes the specification allows (a status may also stay). *)
Definition spec_transition (a b : JobStatus) : bool :=
  match a, b with
  | pending, processing
  | processing, completed
  | processing, failed
  | failed, processing => true
  | _, _ => JobStatus_eqb a b
  end.

(** The [try] block of the consumer, up to the point where control
    leaves it, by [message.ack()] or by a throw. *)
Definition try_block (d : Delivery) : Eff Disposition :=
  mark_processing d ;;; generate_and_store d.

(** The status of the delivered job at four points of its delivery:
    before, after step 1, when control leaves the [try] block, and after
    the [catch]. Between two of these points at most one UPDATE of the
    row runs. *)
Definition status_path (d : Delivery) (env : Env) : list (option JobStatus) :=
  map (status_in (jobId (body d)))
      [DB env; DB (snd (mark_processing d env)); DB (snd (try_block d env));
       DB (snd (process_message d env))].

(** The status changes the consumer makes when no other handler writes
    in between (a status may also stay): to [processing] and to [failed]
    from every status, to [completed] from [processing] only, never back
    to [pending]. *)
Definition code_transition (a b : JobStatus) : bool :=
  match b with
  | pending => JobStatus_eqb a pending
  | processing => true
  | completed => JobStatus_eqb a processing || JobStatus_eqb a completed
  | failed => true
  end.

(** ** A small history, used to exercise the properties

    One job is created, processed, and its work unit delivered again.
    The statements below only evaluate the handlers above. *)

Module Scenario.

Definition uuid (i : nat) : string :=
  "job-" ++ String (ascii_of_nat (97 + i)) "".        (* job-a, job-b, ... *)

Definition no_outage : nat -> option string := fun _ => None.

(** A caller at time 1000; store and queue accept everything. *)
Definition caller : Oracle :=
  mkOracle 1000 uuid no_outage no_outage (fun _ db => db)
           (fun _ => 0) (fun _ => POLL_INTERVAL).

(** The same caller, with the queue rejecting the second send. *)
Definition caller_queue_down : Oracle :=
  mkOracle 1000 uuid no_outage
           (fun k => if (k =? 1)%nat then Some "Queue send failed" else None)
           (fun _ db => db) (fun _ => 0) (fun _ => POLL_INTERVAL).

Definition one_apple : json := JObj [("prompt", JStr "a red apple")].

Definition three_apples : json :=
  JObj [("prompt", JStr "a red apple"); ("count", JNum (Int 3))].

Definition three_apples_params : Zod.GenerateImage :=
  Zod.mkGenerateImage "a red apple" flux_schnell 3.

Definition empty_prompt : list (string * json) := [("prompt", JStr "")].

Definition apple_unit (jid : string) : ImageGenerationMessage :=
  mkMessage jid "a red apple" flux_schnell.

(** The first delivery of job-a succeeds. *)
Definition first_delivery : Delivery :=
  mkDelivery (apple_unit "job-a") 2000 (Done tt) (Done "https://r2.dev/1.png")
             3000 "gen-1" 3000 None None None None.

(** The work unit of job-a is delivered once more and succeeds again ... *)
Definition duplicate_delivery : Delivery :=
  mkDelivery (apple_unit "job-a") 5000 (Done tt) (Done "https://r2.dev/2.png")
             6000 "gen-2" 6000 None None None None.

(** ... or is delivered once more and the model call fails. *)
Definition duplicate_delivery_failing : Delivery :=
  mkDelivery (apple_unit "job-a") 5000 (Throws "capacity exceeded")
             (Done "https://r2.dev/2.png") 6000 "gen-2" 7000 None None None None.

(** The first delivery of job-a on a store that rejects step 1 (and takes
    the update of the [catch]). *)
Definition first_delivery_step_1_rejected : Delivery :=
  mkDelivery (apple_unit "job-a") 2000 (Done tt) (Done "https://r2.dev/1.png")
             3000 "gen-1" 3000 (Some "D1_ERROR: Network connection lost")
             None None None.

(** The work unit of job-a is delivered once more, succeeds up to step 4,
    and step 5 comes with the identifier of the record already there. *)
Definition duplicate_delivery_same_record : Delivery :=
  mkDelivery (apple_unit "job-a") 5000 (Done tt) (Done "https://r2.dev/2.png")
             6000 "gen-1" 7000 None None None None.

(** A delivery for job-b whose model call fails. *)
Definition failing_delivery_b : Delivery :=
  mkDelivery (apple_unit "job-b") 2000 (Throws "capacity exceeded")
             (Done "https://r2.dev/3.png") 3000 "gen-3" 3000 None None None None.

Definition created : Env :=
  run_events [ToolCall "generate_image" one_apple caller 0] initial.

Definition job_a_completed : Env :=
  run_events [QueueBatch [first_delivery]] created.

Definition created_three : Env :=
  run_events [ToolCall "generate_image" three_apples caller 0] initial.

(** job-a [failed], job-b and job-c [pending]. *)
Definition one_failed_two_pending : Env :=
  run_events [QueueBatch [mkDelivery (apple_unit "job-a") 2000
                            (Throws "capacity exceeded") (Done "")
                            3000 "gen-1" 3000 None None None None]]
             created_three.

(** Two jobs whose identifiers come out as job-b, then job-a; both are
    processed, in that order. *)
Definition caller_b_then_a : Oracle :=
  mkOracle 1000 (fun i => uuid (1 - i)) no_outage no_outage (fun _ db => db)
           (fun _ => 0) (fun _ => POLL_INTERVAL).

Definition two_apples : json :=
  JObj [("prompt", JStr "a red apple"); ("count", JNum (Int 2))].

Definition b_then_a_completed : Env :=
  run_events
    [ToolCall "generate_image" two_apples caller_b_then_a 0;
     QueueBatch
       [mkDelivery (apple_unit "job-b") 2000 (Done tt) (Done "https://r2.dev/b.png")
                   3000 "gen-b" 3000 None None None None;
        mkDelivery (apple_unit "job-a") 4000 (Done tt) (Done "https://r2.dev/a.png")
                   5000 "gen-a" 5000 None None None None]]
    initial.

(** A waiter while no other handler runs: every poll finds the store as
    it was at the call; each store query takes [query] ms, each sleep
    exactly the poll interval. *)
Definition waiter (query : Z) : Oracle :=
  mkOracle 0 uuid no_outage no_outage (fun _ db => db)
           (fun _ => query) (fun _ => POLL_INTERVAL).

Definition wait_for (jid : string) : json := JObj [("job_id", JStr jid)].

Definition wait_for_all (jids : list string) : json :=
  JObj [("job_ids", JArr (map JStr jids))].

End Scenario.

(** ** Further observations *)

(** The argument object of a [list_jobs] call with every field given. *)
Definition list_jobs_args (filter_by : option JobStatus) (limit offset : Z) : json :=
  JObj [("status", JStr (match filter_by with
                         | None => "all"
                         | Some s =>
                             match s with
                             | pending => "pending" | processing => "processing"
                             | completed => "completed" | failed => "failed"
                             end
                         end));
        ("limit", JNum (Int limit)); ("offset", JNum (Int offset))].

(** The [jobs] array of a [list_jobs] response. *)
Definition jobs_of_response (r : option (ToolResult * Env)) : list GenerationJob :=
  match r with
  | Some (mkResult (JobsPage _ _ _ _ _ _ rows) _, _) => rows
  | _ => []
  end.

(** The messages of a batch that were acknowledged. *)
Definition acknowledged (ds : list Disposition) : nat :=
  List.length (filter (fun a => match a with Ack => true | Retry => false end) ds).

(** The argument objects [{ job_id }] and [{ job_ids }]. *)
Definition job_id_args (job_id : string) : json := JObj [("job_id", JStr job_id)].

Definition job_ids_args (job_ids : list string) : json :=
  JObj [("job_ids", JArr (map JStr job_ids))].

(** The names [callImageTool] has a case for. *)
Definition tool_names : list string :=
  ["generate_image"; "get_job_status"; "list_generations"; "list_jobs";
   "wait_for_completion"; "generate_image_and_wait"].

(** What never changes in a job row, and what is never undone: [j'] is a
    later state of the row [j]. *)
Definition later_row (j j' : GenerationJob) : Prop :=
  id j' = id j /\ prompt j' = prompt j /\ model j' = model j
  /\ created_at j' = created_at j
  /\ (image_url j <> None -> image_url j' <> None)
  /\ (error j <> None -> error j' <> None)
  /\ (status j <> pending -> status j' <> pending).

(** Every row of [a] is still there in [b], as a later state of itself. *)
Definition rows_kept (a b : D1.Database) : Prop :=
  forall jid j,
    D1.first_job jid a = Some j ->
    exists j', D1.first_job jid b = Some j' /\ later_row j j'.

(** The archive of [b] is the archive of [a] with records added at the
    end. *)
Definition archive_extended (a b : D1.Database) : Prop :=
  exists added, D1.generations b = (D1.generations a ++ added)%list.

(** Every Generation record has an identifier of its own and refers to a
    job that is in the store. *)
Definition archive_consistent (db : D1.Database) : Prop :=
  NoDup (map g_id (D1.generations db))
  /\ forall g, In g (D1.generations db) -> D1.has_job (g_job_id g) db = true.

(** ** [uploadImage] (R2 storage)

    The file name is derived from the prompt character by character; a
    character is a code unit below 256 (Latin-1), which is what a
    [string] holds. *)

Module R2Storage.

(** [String.prototype.toLowerCase] on one character: A-Z and the
    upper-case letters of Latin-1 (all of 192..222 but the multiplication
    sign) move 32 up. *)
Definition toLowerCase_char (c : ascii) : ascii :=
  let n := nat_of_ascii c in
  if ((65 <=? n) && (n <=? 90) || (192 <=? n) && (n <=? 214)
      || (216 <=? n) && (n <=? 222))%nat
  then ascii_of_nat (n + 32) else c.

Fixpoint toLowerCase (s : string) : string :=
  match s with
  | EmptyString => EmptyString
  | String c s' => String (toLowerCase_char c) (toLowerCase s')
  end.

(** The class [a-z0-9]. *)
Definition is_a_z_0_9 (c : ascii) : bool :=
  let n := nat_of_ascii c in
  ((97 <=? n) && (n <=? 122) || (48 <=? n) && (n <=? 57))%nat.

Definition is_hyphen (c : ascii) : bool := Ascii.eqb c "-".

(** [.replace(/[^a-z0-9]+/g, '-')]: every maximal run of other
    characters becomes one hyphen. [in_run] says that the character before
    was already part of such a run. *)
Fixpoint replace_other_runs (in_run : bool) (s : string) : string :=
  match s with
  | EmptyString => EmptyString
  | String c s' =>
      if is_a_z_0_9 c then String c (replace_other_runs false s')
      else if in_run then replace_other_runs true s'
      else String "-" (replace_other_runs true s')
  end.

(** [.replace(/^-+|-+$/g, '')]: the leading hyphens, then the trailing
    ones. *)
Fixpoint strip_leading_hyphens (s : string) : string :=
  match s with
  | EmptyString => EmptyString
  | String c s' => if is_hyphen c then strip_leading_hyphens s' else s
  end.

Fixpoint strip_trailing_hyphens (s : string) : string :=
  match s with
  | EmptyString => EmptyString
  | String c s' =>
      match strip_trailing_hyphens s' with
      | EmptyString => if is_hyphen c then EmptyString else String c EmptyString
      | rest => String c rest
      end
  end.

(** [sanitizedPrompt] *)
Definition sanitizedPrompt (prompt : string) : string :=
  substring 0 50
    (strip_trailing_hyphens
       (strip_leading_hyphens
          (replace_other_runs false (toLowerCase prompt)))).

(** [`${timestamp}`] for an integer that prints without exponent. *)
Definition decimal (n : Z) : string :=
  DecimalString.NilZero.string_of_int (Z.to_int n).

Record UploadImageParams := mkUploadImageParams {
  imageData : list Byte.byte;       (* Uint8Array *)
  filename : option string;         (* filename?: string *)
  up_prompt : string;
  up_model : string
}.

Record UploadImageResult := mkUploadImageResult {
  fileKey : string;
  downloadUrl : string;
  sizeBytes : Z
}.

Definition public_base : string :=
  "https://pub-2f0bcc7992f04c6a8a44eb983f02d42a.r2.dev/".

(** [params.filename || `${timestamp}-${sanitizedPrompt}.png`]: an
    absent or empty custom name gives way to the generated one. *)
Definition file_name (timestamp : Z) (params : UploadImageParams) : string :=
  match filename params with
  | Some (String c rest) => String c rest
  | _ => decimal timestamp ++ "-" ++ sanitizedPrompt (up_prompt params) ++ ".png"
  end.

(** [uploadImage]: [timestamp] is its [Date.now()], [put] what
    [env.R2_BUCKET.put] does. *)
Definition uploadImage (timestamp : Z) (put : Run unit) (params : UploadImageParams)
    : Run UploadImageResult :=
  let name := file_name timestamp params in
  match put with
  | Done _ =>
      Done (mkUploadImageResult name (public_base ++ name)
              (Z.of_nat (List.length (imageData params))))
  | Throws msg => Throws ("Image upload failed: " ++ msg)
  end.

(** Characters of a string, one by one. *)
Fixpoint all_chars (P : ascii -> bool) (s : string) : bool :=
  match s with
  | EmptyString => true
  | String c s' => P c && all_chars P s'
  end.

(** No two hyphens next to each other. *)
Fixpoint no_double_hyphen (s : string) : bool :=
  match s with
  | String a ((String b _) as rest) =>
      negb (is_hyphen a && is_hyphen b) && no_double_hyphen rest
  | _ => true
  end.

Definition starts_with_hyphen (s : string) : bool :=
  match s with String c _ => is_hyphen c | EmptyString => false end.

Fixpoint ends_with_hyphen (s : string) : bool :=
  match s with
  | EmptyString => false
  | String c EmptyString => is_hyphen c
  | String _ rest => ends_with_hyphen rest
  end.

(** A name the sanitiser has nothing to do on. *)
Definition clean_name (s : string) : Prop :=
  all_chars (fun c => is_a_z_0_9 c || is_hyphen c) s = true
  /\ no_double_hyphen s = true
  /\ starts_with_hyphen s = false
  /\ ends_with_hyphen s = false
  /\ (String.length s <= 50)%nat.

End R2Storage.

(** ** The MCP endpoint ([mcp-handler.ts], and [POST /mcp] of [index.ts]) *)

Module MCP.

(** One entry of [inputSchema.properties] (descriptions left out). *)
Record Property := mkProperty {
  p_type : string;
  p_enum : list string;
  p_default : option json;
  p_minimum : option Z;
  p_maximum : option Z;
  p_items : option string;          (* [items: { type }] *)
  p_minItems : option nat;
  p_maxItems : option nat
}.

Definition string_property : Property :=
  mkProperty "string" [] None None None None None None.

Definition enum_property (names : list string) (default : string) : Property :=
  mkProperty "string" names (Some (JStr default)) None None None None None.

Definition number_property (minimum : Z) (maximum : option Z) (default : Z) : Property :=
  mkProperty "number" [] (Some (JNum (Int default))) (Some minimum) maximum
             None None None.

Record Tool := mkTool {
  t_name : string;
  t_properties : list (string * Property);
  t_required : list string;
  t_oneOf : list (list string)      (* [oneOf: [{ required }, ...]] *)
}.

Definition generate_properties : list (string * Property) :=
  [("prompt", string_property);
   ("model", enum_property ["flux-schnell"; "sdxl-lightning"; "sdxl-base"] "flux-schnell");
   ("count", number_property 1 (Some 20) 1)].

(** [getToolsList().tools] *)
Definition getToolsList : list Tool :=
  [mkTool "generate_image" generate_properties ["prompt"] [];
   mkTool "get_job_status" [("job_id", string_property)] ["job_id"] [];
   mkTool "list_generations"
     [("limit", number_property 1 (Some 50) 10); ("offset", number_property 0 None 0)]
     [] [];
   mkTool "list_jobs"
     [("status",
       enum_property ["all"; "pending"; "processing"; "completed"; "failed"] "all");
      ("limit", number_property 1 (Some 50) 10); ("offset", number_property 0 None 0)]
     [] [];
   mkTool "wait_for_completion"
     [("job_id", string_property);
      ("job_ids",
       mkProperty "array" [] None None None (Some "string") (Some 1%nat) (Some 20%nat))]
     [] [["job_id"]; ["job_ids"]];
   mkTool "generate_image_and_wait" generate_properties ["prompt"] []].

(** [result] of a response. *)
Inductive Result :=
| Initialized (protocolVersion name version : string)   (* and [capabilities: { tools: {} }] *)
| ToolsList (tools : list Tool)
| ToolAnswer (r : ToolResult).

Inductive Body :=
| RpcResult (result : Result)
| RpcError (code : Z) (message : string).

(** An [MCPResponse]; [jsonrpc] is always ['2.0']. [rpc_id] is the
    request's [id], [None] when it has none. *)
Record MCPResponse := mkResponse {
  rpc_id : option json;
  rpc_body : Body
}.

(** [v.k] for a parsed JSON value: only an object has the key. *)
Definition field (k : string) (v : option json) : option json :=
  match v with
  | Some (JObj fs) => Zod.lookup k fs
  | _ => None
  end.

(** [!v]. A number that is not an integer comes out of [JSON.parse], so it
    is not [NaN]. *)
Definition falsy (v : option json) : bool :=
  match v with
  | None | Some JNull | Some (JBool false) | Some (JNum (Int 0)) => true
  | Some (JStr s) => String.eqb s ""
  | _ => false
  end.

Section Handler.

(** [`${v}`] for a value that is a string, is missing, or is anything
    else; how the engine prints the last kind is taken as given. *)
Variable render : json -> string.

Definition template (v : option json) : string :=
  match v with
  | None => "undefined"
  | Some (JStr s) => s
  | Some other => render other
  end.

(** [handleMCPRequest(request, toolsCallHandler)], on the bindings [env]
    the callback works on. [None]: the callback ran out of fuel. *)
Definition handleMCPRequest (request : json)
    (toolsCallHandler : json -> json -> Env -> option (Run ToolResult * Env))
    (env : Env) : option (MCPResponse * Env) :=
  let id := field "id" (Some request) in
  let method := field "method" (Some request) in
  let params := field "params" (Some request) in
  let method_not_found :=
    Some (mkResponse id (RpcError (-32601) ("Method not found: " ++ template method)),
          env) in
  match method with
  | Some (JStr m) =>
      if String.eqb m "initialize" then
        Some (mkResponse id
                (RpcResult (Initialized "2024-11-05" "mcp-image-generator" "3.0.0")),
              env)
      else if String.eqb m "tools/list" then
        Some (mkResponse id (RpcResult (ToolsList getToolsList)), env)
      else if String.eqb m "tools/call" then
        if falsy params || falsy (field "name" params) then
          Some (mkResponse id (RpcError (-32602) "Invalid params: missing tool name"),
                env)
        else
          let name := match field "name" params with Some n => n | None => JNull end in
          let arguments :=
            match field "arguments" params with
            | Some a => if falsy (Some a) then JObj [] else a
            | None => JObj []
            end in
          match toolsCallHandler name arguments env with
          | Some (Done result, env') =>
              Some (mkResponse id (RpcResult (ToolAnswer result)), env')
          | Some (Throws msg, env') =>
              Some (mkResponse id (RpcError (-32603) msg), env')
          | None => None
          end
      else method_not_found
  | _ => method_not_found
  end.

(** [callImageTool(name, args, c.env)] as the route calls it: [name] is
    whatever [params.name] holds; a value that is no string reaches the
    [default] of the [switch]. *)
Definition call_tool (o : Oracle) (fuel : nat) (name args : json) (env : Env)
    : option (Run ToolResult * Env) :=
  match name with
  | JStr s =>
      match callImageTool s args o fuel env with
      | Some (r, env') => Some (Done r, env')
      | None => None
      end
  | other =>
      Some (Done (mkResult (Failure ("Unknown tool: " ++ render other)) true), env)
  end.

(** [app.post('/mcp', ...)] behind the bearer check: [parsed] is what
    [c.req.json()] gives, [None] when it throws. The answer is the HTTP
    status and the JSON body. *)
Definition post_mcp (parsed : option json) (o : Oracle) (fuel : nat) (env : Env)
    : option (Z * MCPResponse * Env) :=
  match parsed with
  | None => Some (400, mkResponse None (RpcError (-32700) "Parse error"), env)
  | Some body =>
      if falsy (Some body)
         || negb (match field "jsonrpc" (Some body) with
                  | Some (JStr v) => String.eqb v "2.0"
                  | _ => false
                  end)
      then Some (400,
                 mkResponse (field "id" (Some body))
                   (RpcError (-32600)
                      "Invalid Request: missing or invalid jsonrpc field"),
                 env)
      else
        match handleMCPRequest body (call_tool o fuel) env with
        | Some (response, env') => Some (200, response, env')
        | None => None
        end
  end.

End Handler.

(** The schema that validates the arguments of an advertised tool. *)
Definition schema_accepts (tool : string) (args : json) : bool :=
  if String.eqb tool "generate_image" || String.eqb tool "generate_image_and_wait"
  then match Zod.GenerateImageSchema args with Zod.Parsed _ => true | _ => false end
  else if String.eqb tool "get_job_status"
  then match Zod.GetJobStatusSchema args with Zod.Parsed _ => true | _ => false end
  else if String.eqb tool "list_generations"
  then match Zod.ListGenerationsSchema args with Zod.Parsed _ => true | _ => false end
  else if String.eqb tool "list_jobs"
  then match Zod.ListJobsSchema args with Zod.Parsed _ => true | _ => false end
  else if String.eqb tool "wait_for_completion"
  then match Zod.WaitForCompletionSchema args with Zod.Parsed _ => true | _ => false end
  else false.

(** The advertised definition of a property. *)
Definition advertised (tool prop : string) : option Property :=
  match find (fun t => String.eqb (t_name t) tool) getToolsList with
  | Some t => option_map snd (find (fun kv => String.eqb (fst kv) prop) (t_properties t))
  | None => None
  end.

End MCP.

(** An argument object that gives one property, beside a prompt that
    every schema accepts or ignores. *)
Definition args_with (prop : string) (v : json) : json :=
  JObj [("prompt", JStr "a red apple"); (prop, v)].

(** The bounds a [Property] states, on an integer. *)
Definition within_bounds (p : MCP.Property) (v : Z) : bool :=
  match MCP.p_minimum p with Some lo => lo <=? v | None => true end
  && match MCP.p_maximum p with Some hi => v <=? hi | None => true end.

(** ** The tools as registered with the SDK server ([tools/image-tools.ts],
    behind [POST /sse]) *)

Module SDK.

Record GenerateImage := mkGenerateImage {
  gi_prompt : string;
  gi_model : Model
}.

(** [GenerateImageSchema.parse]: this schema has no [count], and gives
    the two length checks of [prompt] messages of its own. *)
Definition GenerateImageSchema (args : json) : Zod.Parse GenerateImage :=
  match args with
  | JObj fs =>
      let p := Zod.string_min_max_with 3 1000
                 "Prompt must be at least 3 characters"
                 "Prompt must be under 1000 characters"
                 (Zod.lookup "prompt" fs) "prompt" in
      let m := Zod.optional_default Zod.model_enum flux_schnell
                 (Zod.lookup "model" fs) "model" in
      match p, m with
      | Zod.Parsed p', Zod.Parsed m' => Zod.Parsed (mkGenerateImage p' m')
      | _, _ => Zod.ZodError (Zod.issues_of p ++ Zod.issues_of m)%list
      end
  | _ => Zod.ZodError [Zod.invalid_type "object" (Some args) ""]
  end.

(** [GetJobStatusSchema.parse], with this file's message for an empty
    [job_id]. *)
Definition GetJobStatusSchema (args : json) : Zod.Parse string :=
  match args with
  | JObj fs => Zod.string_min_with 1 "Job ID is required" (Zod.lookup "job_id" fs) "job_id"
  | _ => Zod.ZodError [Zod.invalid_type "object" (Some args) ""]
  end.

(** The inner [try { ... } catch (error)] of each tool: the failure
    envelope is returned, not thrown. *)
Definition or_failure (c : Eff ToolResult) : Eff ToolResult :=
  try_catch c (fun msg => ret (mkResult (Failure msg) true)).

Local Open Scope eff_scope.

Definition generate_image (args : json) (o : Oracle) : Eff ToolResult :=
  match GenerateImageSchema args with
  | Zod.ZodError issues => throw (Zod.message issues)
  | Zod.Parsed a =>
      or_failure
        (let jobId := randomUUID o 0 in
         run (insert_outage o 0)
             (D1.insert_job jobId pending (gi_prompt a) (gi_model a) (now o) (now o)) ;;;
         send (send_outage o 0) (mkMessage jobId (gi_prompt a) (gi_model a)) ;;;
         ret (mkResult (GenerateStarted jobId (gi_prompt a) (gi_model a)) false))
  end.

Definition get_job_status (args : json) : Eff ToolResult :=
  match GetJobStatusSchema args with
  | Zod.ZodError issues => throw (Zod.message issues)
  | Zod.Parsed job_id =>
      or_failure
        (fun env =>
           match D1.first_job job_id (DB env) with
           | None => (Done (mkResult (JobNotFound job_id) true), env)
           | Some result => (Done (mkResult (JobStatusOf result) false), env)
           end)
  end.

Definition list_generations (args : json) : Eff ToolResult :=
  match Zod.ListGenerationsSchema args with
  | Zod.ZodError issues => throw (Zod.message issues)
  | Zod.Parsed a =>
      or_failure
        (fun env =>
           let totalCount := D1.count (D1.generations (DB env)) in
           match D1.limit_offset (Zod.lg_limit a) (Zod.lg_offset a)
                   (D1.order_by_desc g_created_at (D1.generations (DB env))) with
           | Throws msg => (Throws msg, env)
           | Done results =>
               let returned := Z.of_nat (List.length results) in
               (Done (mkResult
                  (GenerationsPage totalCount returned
                     (Zod.lg_offset a + returned <? totalCount)
                     (Zod.lg_limit a) (Zod.lg_offset a) results) false), env)
           end)
  end.

Definition list_jobs (args : json) : Eff ToolResult :=
  match Zod.ListJobsSchema args with
  | Zod.ZodError issues => throw (Zod.message issues)
  | Zod.Parsed a =>
      or_failure
        (fun env =>
           let matching := D1.where_status (Zod.lj_status a)
                             (D1.generation_jobs (DB env)) in
           let totalCount := D1.count matching in
           match D1.limit_offset (Zod.lj_limit a) (Zod.lj_offset a)
                   (D1.order_by_desc created_at matching) with
           | Throws msg => (Throws msg, env)
           | Done results =>
               let returned := Z.of_nat (List.length results) in
               (Done (mkResult
                  (JobsPage (Zod.lj_status a) totalCount returned
                     (Zod.lj_offset a + returned <? totalCount)
                     (Zod.lj_limit a) (Zod.lj_offset a) results) false), env)
           end)
  end.

(** The [tools/call] request handler: [toolName] and [arguments] are
    [request.params.name] and [request.params.arguments]; the outer
    [catch] takes what [parse] and the last [throw] throw. *)
Definition tools_call (toolName : string) (arguments : json) (o : Oracle) (env : Env)
    : ToolResult * Env :=
  catch_all
    (if String.eqb toolName "generate_image" then generate_image arguments o
     else if String.eqb toolName "get_job_status" then get_job_status arguments
     else if String.eqb toolName "list_generations" then list_generations arguments
     else if String.eqb toolName "list_jobs" then list_jobs arguments
     else throw ("Unknown tool: " ++ toolName)%string)
    env.

End SDK.

(** An argument object that leaves [count] out or gives 1. *)
Definition asks_for_one (args : json) : Prop :=
  match args with
  | JObj fs => Zod.lookup "count" fs = None
               \/ Zod.lookup "count" fs = Some (JNum (Int 1))
  | _ => True
  end.

(** The arguments whose rejection the schemas of the SDK handler word
    their own way: for [generate_image] a [prompt] string shorter than 3
    or longer than 1000, for [get_job_status] an empty [job_id]. *)
Definition own_wording (toolName : string) (args : json) : Prop :=
  match args with
  | JObj fs =>
      (toolName = "generate_image"
       /\ exists p, Zod.lookup "prompt" fs = Some (JStr p)
                    /\ (String.length p < 3 \/ 1000 < String.length p)%nat)
      \/ (toolName = "get_job_status"
          /\ Zod.lookup "job_id" fs = Some (JStr ""))
  | _ => False
  end.

(** * Properties *)

Local Open Scope list_scope.

(** ** Schemas: what a successful parse guarantees *)

Section SchemaFacts.

Lemma int_min_max_bounds lo hi d v path z :
  lo <= d <= hi ->
  Zod.optional_default (Zod.int_min_max lo hi) d v path = Zod.Parsed z ->
  lo <= z <= hi.
Proof.
  intros Hd. unfold Zod.optional_default, Zod.int_min_max.
  destruct v as [[| | [n|] | | |]|]; try discriminate.
  - destruct (lo <=? n) eqn:E1; destruct (n <=? hi) eqn:E2; simpl; try discriminate.
    intros H; inversion H; subst. apply Z.leb_le in E1, E2. lia.
  - intros H; inversion H; subst. exact Hd.
Qed.

Lemma int_min_bounds lo d v path z :
  lo <= d ->
  Zod.optional_default (Zod.int_min lo) d v path = Zod.Parsed z ->
  lo <= z.
Proof.
  intros Hd. unfold Zod.optional_default, Zod.int_min.
  destruct v as [[| | [n|] | | |]|]; try discriminate.
  - destruct (lo <=? n) eqn:E1; try discriminate.
    intros H; inversion H; subst. now apply Z.leb_le.
  - intros H; inversion H; subst. exact Hd.
Qed.

Lemma ListJobsSchema_bounds args params :
  Zod.ListJobsSchema args = Zod.Parsed params ->
  1 <= Zod.lj_limit params <= 50 /\ 0 <= Zod.lj_offset params.
Proof.
  unfold Zod.ListJobsSchema. destruct args; try discriminate.
  destruct (Zod.optional_default Zod.status_filter_enum _ _ _) eqn:Es;
  destruct (Zod.optional_default (Zod.int_min_max 1 50) _ _ _) eqn:El;
  destruct (Zod.optional_default (Zod.int_min 0) _ _ _) eqn:Eo;
  try discriminate.
  intros H; inversion H; subst; simpl. split.
  - eapply int_min_max_bounds; [|exact El]. lia.
  - eapply int_min_bounds; [|exact Eo]. lia.
Qed.

Lemma ListGenerationsSchema_bounds args params :
  Zod.ListGenerationsSchema args = Zod.Parsed params ->
  1 <= Zod.lg_limit params <= 50 /\ 0 <= Zod.lg_offset params.
Proof.
  unfold Zod.ListGenerationsSchema. destruct args; try discriminate.
  destruct (Zod.optional_default (Zod.int_min_max 1 50) _ _ _) eqn:El;
  destruct (Zod.optional_default (Zod.int_min 0) _ _ _) eqn:Eo;
  try discriminate.
  intros H; inversion H; subst; simpl. split.
  - eapply int_min_max_bounds; [|exact El]. lia.
  - eapply int_min_bounds; [|exact Eo]. lia.
Qed.

Lemma GenerateImageSchema_bounds args params :
  Zod.GenerateImageSchema args = Zod.Parsed params ->
  1 <= Zod.gi_count params <= 20.
Proof.
  unfold Zod.GenerateImageSchema. destruct args; try discriminate.
  destruct (Zod.string_min_max 3 1000 _ _) eqn:Ep;
  destruct (Zod.optional_default Zod.model_enum _ _ _) eqn:Em;
  destruct (Zod.optional_default (Zod.int_min_max 1 20) _ _ _) eqn:Ec;
  try discriminate.
  intros H; inversion H; subst; simpl.
  eapply int_min_max_bounds; [|exact Ec]. lia.
Qed.

Lemma WaitForCompletionSchema_bounds args params :
  Zod.WaitForCompletionSchema args = Zod.Parsed params ->
  (1 <= List.length (ids_of params) <= 20)%nat.
Proof.
  unfold Zod.WaitForCompletionSchema. destruct args; try discriminate.
  destruct (Zod.any_string _ _) eqn:E1.
  - intros H; inversion H; subst; simpl. lia.
  - destruct (Zod.lookup "job_ids" fields) as [[| | | |items|]|]; try discriminate.
    destruct (Zod.strings_of items) as [l|]; try discriminate.
    destruct (1 <=? List.length l)%nat eqn:Ea;
    destruct (List.length l <=? 20)%nat eqn:Eb; simpl; try discriminate.
    intros H; inversion H; subst; simpl.
    apply Nat.leb_le in Ea, Eb. lia.
Qed.

End SchemaFacts.

(** ** Listings *)

Section Listings.

Context {A : Type} (key : A -> Z).

Lemma insert_desc_length x l :
  List.length (D1.insert_desc key x l) = S (List.length l).
Proof.
  induction l as [|y l IH]; simpl; [reflexivity|].
  destruct (key x <? key y); simpl; [now rewrite IH | reflexivity].
Qed.

Lemma order_by_desc_length l :
  List.length (D1.order_by_desc key l) = List.length l.
Proof.
  induction l as [|x l IH]; simpl; [reflexivity|].
  now rewrite insert_desc_length, IH.
Qed.

Lemma insert_desc_head x y l :
  key x <= key y ->
  HdRel (fun a b => key b <= key a) y l ->
  HdRel (fun a b => key b <= key a) y (D1.insert_desc key x l).
Proof.
  intros Hxy Hhd. destruct l as [|z l]; simpl.
  - constructor. exact Hxy.
  - destruct (key x <? key z); constructor.
    + now apply HdRel_inv in Hhd.
    + exact Hxy.
Qed.

Lemma insert_desc_sorted x l :
  newest_first key l -> newest_first key (D1.insert_desc key x l).
Proof.
  unfold newest_first. induction l as [|y l IH]; intros Hs; simpl.
  - repeat constructor.
  - apply Sorted_inv in Hs as [Hs Hhd].
    destruct (key x <? key y) eqn:E.
    + apply Z.ltb_lt in E. constructor; [now apply IH|].
      apply insert_desc_head; [lia | exact Hhd].
    + apply Z.ltb_ge in E. constructor; [now constructor|].
      constructor. exact E.
Qed.

Lemma order_by_desc_sorted l : newest_first key (D1.order_by_desc key l).
Proof.
  induction l as [|x l IH]; simpl; [constructor|].
  now apply insert_desc_sorted.
Qed.

Lemma newest_first_skipn n l : newest_first key l -> newest_first key (skipn n l).
Proof.
  unfold newest_first. revert l. induction n as [|n IH]; intros l Hs; [exact Hs|].
  destruct l as [|x l]; simpl; [constructor|].
  apply IH. now apply Sorted_inv in Hs.
Qed.

Lemma newest_first_firstn n l : newest_first key l -> newest_first key (firstn n l).
Proof.
  unfold newest_first. revert l. induction n as [|n IH]; intros l Hs; [constructor|].
  destruct l as [|x l]; simpl; [constructor|].
  apply Sorted_inv in Hs as [Hs Hhd]. constructor; [now apply IH|].
  destruct l as [|y l]; destruct n; simpl; constructor.
  now apply HdRel_inv in Hhd.
Qed.

Lemma limit_offset_page limit offset l :
  0 <= limit < 2 ^ 63 -> 0 <= offset < 2 ^ 63 ->
  exists page,
    D1.limit_offset limit offset (D1.order_by_desc key l) = Done page
    /\ Z.of_nat (List.length page) = Z.min limit (Z.max 0 (D1.count l - offset))
    /\ newest_first key page.
Proof.
  intros Hl Ho. unfold D1.limit_offset, D1.is_int64, D1.count.
  replace (- 2 ^ 63 <=? limit) with true by (symmetry; apply Z.leb_le; lia).
  replace (limit <? 2 ^ 63) with true by (symmetry; apply Z.ltb_lt; lia).
  replace (- 2 ^ 63 <=? offset) with true by (symmetry; apply Z.leb_le; lia).
  replace (offset <? 2 ^ 63) with true by (symmetry; apply Z.ltb_lt; lia).
  cbn [andb]. eexists. split; [reflexivity|]. split.
  - rewrite length_firstn, length_skipn, order_by_desc_length. lia.
  - apply newest_first_firstn, newest_first_skipn, order_by_desc_sorted.
Qed.

Lemma limit_offset_rejects limit offset (l : list A) :
  2 ^ 63 <= offset ->
  exists msg, D1.limit_offset limit offset l = Throws msg.
Proof.
  intros Ho. unfold D1.limit_offset, D1.is_int64.
  replace (offset <? 2 ^ 63) with false by (symmetry; apply Z.ltb_ge; lia).
  rewrite !andb_false_r. eexists. reflexivity.
Qed.

End Listings.

(** C6. For [list_jobs] and [list_generations] with arguments the schema
    accepts and an offset below 2^63 (one the store can bind as a 64-bit
    integer), over one store state: [returned_count] is
    [min(limit, max(0, total_count - offset))], [has_more] is
    [offset + returned_count < total_count], [total_count] counts the rows
    that match the filter, and the returned rows are ordered by creation
    time, most recent first. The schema puts no upper bound on [offset]:
    with an offset of 2^63 or more the store rejects the query and the
    call returns the failure envelope, with no page and no counts. *)
Theorem list_pagination_consistent (o : Oracle) (fuel : nat) (env : Env) :
  (forall args params,
     Zod.ListJobsSchema args = Zod.Parsed params ->
     Zod.lj_offset params < 2 ^ 63 ->
     exists total returned rows,
       callImageTool "list_jobs" args o fuel env
       = Some (mkResult
                 (JobsPage (Zod.lj_status params) total returned
                    (Zod.lj_offset params + returned <? total)
                    (Zod.lj_limit params) (Zod.lj_offset params) rows) false, env)
       /\ total = D1.count (D1.where_status (Zod.lj_status params)
                              (D1.generation_jobs (DB env)))
       /\ returned = Z.of_nat (List.length rows)
       /\ returned = Z.min (Zod.lj_limit params)
                           (Z.max 0 (total - Zod.lj_offset params))
       /\ newest_first created_at rows)
  /\
  (forall args params,
     Zod.ListGenerationsSchema args = Zod.Parsed params ->
     Zod.lg_offset params < 2 ^ 63 ->
     exists total returned rows,
       callImageTool "list_generations" args o fuel env
       = Some (mkResult
                 (GenerationsPage total returned
                    (Zod.lg_offset params + returned <? total)
                    (Zod.lg_limit params) (Zod.lg_offset params) rows) false, env)
       /\ total = D1.count (D1.generations (DB env))
       /\ returned = Z.of_nat (List.length rows)
       /\ returned = Z.min (Zod.lg_limit params)
                           (Z.max 0 (total - Zod.lg_offset params))
       /\ newest_first g_created_at rows)
  /\
  (forall args params,
     Zod.ListJobsSchema args = Zod.Parsed params ->
     2 ^ 63 <= Zod.lj_offset params ->
     exists msg,
       callImageTool "list_jobs" args o fuel env
       = Some (mkResult (Failure msg) true, env))
  /\
  (forall args params,
     Zod.ListGenerationsSchema args = Zod.Parsed params ->
     2 ^ 63 <= Zod.lg_offset params ->
     exists msg,
       callImageTool "list_generations" args o fuel env
       = Some (mkResult (Failure msg) true, env)).
Proof.
  split; [|split; [|split]]; intros args params Hparse Hoff.
  - destruct (ListJobsSchema_bounds _ _ Hparse) as [Hl Ho].
    destruct (limit_offset_page created_at (Zod.lj_limit params) (Zod.lj_offset params)
                (D1.where_status (Zod.lj_status params) (D1.generation_jobs (DB env))))
      as [page [Hpage [Hlen Hsorted]]]; try lia.
    exists (D1.count (D1.where_status (Zod.lj_status params)
                        (D1.generation_jobs (DB env)))),
           (Z.of_nat (List.length page)), page.
    split; [|split; [reflexivity|split; [reflexivity|split]]].
    + unfold callImageTool; simpl. unfold catch_all, list_jobs.
      rewrite Hparse, Hpage. reflexivity.
    + exact Hlen.
    + exact Hsorted.
  - destruct (ListGenerationsSchema_bounds _ _ Hparse) as [Hl Ho].
    destruct (limit_offset_page g_created_at (Zod.lg_limit params) (Zod.lg_offset params)
                (D1.generations (DB env))) as [page [Hpage [Hlen Hsorted]]]; try lia.
    exists (D1.count (D1.generations (DB env))), (Z.of_nat (List.length page)), page.
    split; [|split; [reflexivity|split; [reflexivity|split]]].
    + unfold callImageTool; simpl. unfold catch_all, list_generations.
      rewrite Hparse, Hpage. reflexivity.
    + exact Hlen.
    + exact Hsorted.
  - destruct (limit_offset_rejects (Zod.lj_limit params) (Zod.lj_offset params)
                (D1.order_by_desc created_at
                   (D1.where_status (Zod.lj_status params)
                      (D1.generation_jobs (DB env)))) Hoff) as [msg Hmsg].
    exists msg. unfold callImageTool; simpl. unfold catch_all, list_jobs.
    rewrite Hparse, Hmsg. reflexivity.
  - destruct (limit_offset_rejects (Zod.lg_limit params) (Zod.lg_offset params)
                (D1.order_by_desc g_created_at (D1.generations (DB env))) Hoff)
      as [msg Hmsg].
    exists msg. unfold callImageTool; simpl. unfold catch_all, list_generations.
    rewrite Hparse, Hmsg. reflexivity.
Qed.

(** ** Job creation *)

Section JobCreation.

Variable o : Oracle.
Variable params : Zod.GenerateImage.

Lemma has_job_app jid db row :
  D1.has_job jid (D1.mkDb (D1.generation_jobs db ++ [row]) (D1.generations db))
  = D1.has_job jid db || String.eqb (id row) jid.
Proof.
  unfold D1.has_job; simpl. rewrite existsb_app; simpl. now rewrite orb_false_r.
Qed.

(** One replica, store and queue accepting. *)
Lemma create_jobs_step todo i acc env :
  insert_outage o i = None -> send_outage o i = None ->
  D1.has_job (randomUUID o i) (DB env) = false ->
  create_jobs o params (S todo) i acc env
  = create_jobs o params todo (S i) (acc ++ [randomUUID o i])
      (mkEnv (D1.mkDb (D1.generation_jobs (DB env) ++ [new_job_row o params i])
                      (D1.generations (DB env)))
             (IMAGE_QUEUE env ++ [work_unit o params i])).
Proof.
  intros Hi Hs Hfresh. simpl. unfold bind, run, send, D1.insert_job.
  rewrite Hi, Hs, Hfresh. reflexivity.
Qed.

(** One replica, the store rejecting the INSERT. *)
Lemma create_jobs_insert_rejected todo i acc env msg :
  insert_outage o i = Some msg ->
  create_jobs o params (S todo) i acc env = (Throws msg, env).
Proof.
  intros Hi. simpl. unfold bind, run. now rewrite Hi.
Qed.

(** One replica, the queue rejecting the send: the row stays. *)
Lemma create_jobs_send_rejected todo i acc env msg :
  insert_outage o i = None -> send_outage o i = Some msg ->
  D1.has_job (randomUUID o i) (DB env) = false ->
  create_jobs o params (S todo) i acc env
  = (Throws msg,
     mkEnv (D1.mkDb (D1.generation_jobs (DB env) ++ [new_job_row o params i])
                    (D1.generations (DB env)))
           (IMAGE_QUEUE env)).
Proof.
  intros Hi Hs Hfresh. simpl. unfold bind, run, send, D1.insert_job.
  now rewrite Hi, Hs, Hfresh.
Qed.

Lemma create_jobs_ok todo : forall i acc env,
  (forall k, (i <= k < i + todo)%nat ->
             insert_outage o k = None /\ send_outage o k = None) ->
  NoDup (map (randomUUID o) (seq i todo)) ->
  (forall k, (i <= k < i + todo)%nat ->
             D1.has_job (randomUUID o k) (DB env) = false) ->
  create_jobs o params todo i acc env
  = (Done (acc ++ map (randomUUID o) (seq i todo)),
     mkEnv (D1.mkDb (D1.generation_jobs (DB env) ++ map (new_job_row o params) (seq i todo))
                    (D1.generations (DB env)))
           (IMAGE_QUEUE env ++ map (work_unit o params) (seq i todo))).
Proof.
  induction todo as [|todo IH]; intros i acc env Hup Hnd Hfresh.
  - simpl. unfold ret. rewrite !app_nil_r. now destruct env as [[] ?].
  - destruct (Hup i ltac:(lia)) as [Hi Hs].
    rewrite create_jobs_step by (auto; apply Hfresh; lia).
    simpl in Hnd. apply NoDup_cons_iff in Hnd as [Hnotin Hnd].
    rewrite IH; simpl.
    + now rewrite <- !app_assoc.
    + intros k Hk. apply Hup. lia.
    + exact Hnd.
    + intros k Hk. rewrite has_job_app, Hfresh by lia. simpl.
      apply String.eqb_neq. intros Heq. apply Hnotin.
      rewrite Heq. apply in_map, in_seq. lia.
Qed.

(** The loop over [a + b] replicas is the loop over [a] followed by the
    loop over [b]. *)
Lemma create_jobs_app a : forall b i acc env,
  create_jobs o params (a + b) i acc env
  = bind (create_jobs o params a i acc)
         (fun acc' => create_jobs o params b (i + a) acc') env.
Proof.
  induction a as [|a IH]; intros b i acc env.
  - simpl. unfold bind, ret. now rewrite Nat.add_0_r.
  - simpl. unfold bind in *.
    destruct (run _ _ env) as [[[]|msg] env1]; [|reflexivity].
    destruct (send _ _ env1) as [[[]|msg] env2]; [|reflexivity].
    rewrite IH. now rewrite Nat.add_succ_r.
Qed.

End JobCreation.

(** C7. A [generate_image] call that the schema accepts with count [n]
    (1..20), on a store and queue that accept every call, inserts exactly
    [n] rows, each under a fresh identifier of its own, with status
    [pending], equal [created_at] and [updated_at] and no result or error,
    and sends exactly one work unit [{jobId, prompt, model}] per row, in
    the same order. The response carries the single [job_id] when [n = 1]
    and the list [job_ids], in creation order, when [n > 1]. *)
Theorem generate_image_creates_jobs args params (o : Oracle) (fuel : nat) (env : Env) :
  Zod.GenerateImageSchema args = Zod.Parsed params ->
  let n := Z.to_nat (Zod.gi_count params) in
  no_outage_before o n ->
  fresh_ids o n (DB env) ->
  let inserted := map (new_job_row o params) (seq 0 n) in
  let dispatched := map (work_unit o params) (seq 0 n) in
  (1 <= n <= 20)%nat
  /\ callImageTool "generate_image" args o fuel env
     = Some (mkResult
               (if Zod.gi_count params =? 1
                then GenerateStarted (randomUUID o 0)
                       (Zod.gi_prompt params) (Zod.gi_model params)
                else GenerateStartedMany (map id inserted) (Zod.gi_count params)
                       (Zod.gi_prompt params) (Zod.gi_model params))
               false,
             mkEnv (D1.mkDb (D1.generation_jobs (DB env) ++ inserted)
                            (D1.generations (DB env)))
                   (IMAGE_QUEUE env ++ dispatched))
  /\ List.length inserted = n
  /\ NoDup (map id inserted)
  /\ Forall (fun j => D1.has_job (id j) (DB env) = false
                      /\ status j = pending
                      /\ created_at j = updated_at j
                      /\ image_url j = None /\ error j = None
                      /\ prompt j = Zod.gi_prompt params
                      /\ model j = Zod.gi_model params) inserted
  /\ dispatched
     = map (fun j => mkMessage (id j) (prompt j) (model j)) inserted.
Proof.
  intros Hparse n Hup [Hnd Hfresh] inserted dispatched.
  pose proof (GenerateImageSchema_bounds _ _ Hparse) as Hc.
  assert (Hids : map id inserted = map (randomUUID o) (seq 0 n)).
  { unfold inserted. rewrite map_map. reflexivity. }
  split; [subst n; lia|]. split; [|split; [|split; [|split]]].
  - unfold callImageTool; simpl. unfold catch_all, generate_image.
    rewrite Hparse. unfold bind. fold n.
    rewrite create_jobs_ok;
      [ | intros k Hk; apply Hup; lia | exact Hnd | intros k Hk; apply Hfresh; lia ].
    simpl. rewrite Hids.
    destruct (Zod.gi_count params =? 1) eqn:E; [|reflexivity].
    apply Z.eqb_eq in E. clear Hids. subst inserted dispatched n.
    rewrite E. reflexivity.
  - unfold inserted. now rewrite length_map, length_seq.
  - now rewrite Hids.
  - unfold inserted. apply Forall_forall. intros j Hj.
    apply in_map_iff in Hj as [k [<- Hk]]. apply in_seq in Hk. simpl.
    repeat split. apply Hfresh. lia.
  - unfold dispatched, inserted. now rewrite map_map.
Qed.

(** A [generate_image] call the schema rejects: the [catch] envelope with
    the validation message, and the bindings untouched. *)
Lemma generate_image_rejected args issues (o : Oracle) (fuel : nat) (env : Env) :
  Zod.GenerateImageSchema args = Zod.ZodError issues ->
  callImageTool "generate_image" args o fuel env
  = Some (mkResult (Failure (Zod.message issues)) true, env).
Proof.
  intros Hparse. unfold callImageTool; simpl.
  unfold catch_all, generate_image. now rewrite Hparse.
Qed.

Lemma malformed_args_rejected fs :
  malformed_generate_args fs ->
  exists issues, Zod.GenerateImageSchema (JObj fs) = Zod.ZodError issues.
Proof.
  unfold Zod.GenerateImageSchema.
  intros [[s [Hp Hlen]] | [[v [Hm Hbad]] | [n [Hc Hbad]]]].
  - rewrite Hp. unfold Zod.string_min_max, Zod.string_min_max_with.
    assert (E : ((3 <=? String.length s) && (String.length s <=? 1000))%nat = false).
    { apply andb_false_iff. destruct Hlen as [H0 | Hbig].
      - left. apply Nat.leb_gt. lia.
      - right. apply Nat.leb_gt. lia. }
    rewrite E. eexists. reflexivity.
  - rewrite Hm.
    assert (E : exists i,
              Zod.optional_default Zod.model_enum flux_schnell (Some v) "model"
              = Zod.ZodError i).
    { unfold Zod.optional_default, Zod.model_enum.
      destruct v; try (eexists; reflexivity).
      destruct (String.eqb s "flux-schnell") eqn:E1.
      { apply String.eqb_eq in E1. subst. now destruct (Hbad flux_schnell). }
      destruct (String.eqb s "sdxl-lightning") eqn:E2.
      { apply String.eqb_eq in E2. subst. now destruct (Hbad sdxl_lightning). }
      destruct (String.eqb s "sdxl-base") eqn:E3.
      { apply String.eqb_eq in E3. subst. now destruct (Hbad sdxl_base). }
      eexists; reflexivity. }
    destruct E as [i E].
    rewrite E. destruct (Zod.string_min_max _ _ _ _); eexists; reflexivity.
  - rewrite Hc.
    assert (E : exists i,
              Zod.optional_default (Zod.int_min_max 1 20) 1 (Some (JNum n)) "count"
              = Zod.ZodError i).
    { unfold Zod.optional_default, Zod.int_min_max.
      destruct n as [z|]; [|eexists; reflexivity].
      destruct (Hbad z eq_refl) as [Hlo | Hhi].
      - replace (1 <=? z) with false by (symmetry; apply Z.leb_gt; lia).
        eexists; reflexivity.
      - replace (z <=? 20) with false by (symmetry; apply Z.leb_gt; lia).
        rewrite andb_false_r. eexists; reflexivity. }
    destruct E as [i E].
    rewrite E.
    destruct (Zod.string_min_max _ _ _ _);
      destruct (Zod.optional_default Zod.model_enum _ _ _); eexists; reflexivity.
Qed.

(** C8. A [generate_image] call with a malformed input (an empty prompt, a
    prompt longer than 1000, a model outside the three names, a count
    outside 1..20) returns the failure envelope with [isError] set, and
    changes nothing: no job row is inserted, no work unit is sent. *)
Theorem generate_image_malformed_no_mutation fs (o : Oracle) (fuel : nat) (env : Env) :
  malformed_generate_args fs ->
  exists msg,
    callImageTool "generate_image" (JObj fs) o fuel env
    = Some (mkResult (Failure msg) true, env).
Proof.
  intros Hbad. destruct (malformed_args_rejected fs Hbad) as [issues Hparse].
  exists (Zod.message issues). now apply generate_image_rejected.
Qed.

(** C10. Batch creation is not atomic. When the schema accepts the call
    with count [n > 1] and the store insert or the queue send of replica
    [k + 1] rejects ([1 <= k < n], the replicas before it accepted), the
    [k] rows created so far stay in the store, [pending], and their [k]
    work units stay in the queue (a rejected send also leaves the row of
    replica [k + 1] behind), while the caller gets the failure envelope
    with the rejection's message and no [job_id] or [job_ids]. *)
Theorem generate_image_not_atomic args params (o : Oracle) (fuel : nat) (env : Env)
    (k : nat) (msg : string) :
  Zod.GenerateImageSchema args = Zod.Parsed params ->
  let n := Z.to_nat (Zod.gi_count params) in
  (1 <= k < n)%nat ->
  no_outage_before o k ->
  fresh_ids o n (DB env) ->
  insert_outage o k = Some msg
  \/ (insert_outage o k = None /\ send_outage o k = Some msg) ->
  exists orphan r env',
    callImageTool "generate_image" args o fuel env = Some (r, env')
    /\ r = mkResult (Failure msg) true
    /\ response_job_ids r = []
    /\ D1.generation_jobs (DB env')
       = D1.generation_jobs (DB env) ++ map (new_job_row o params) (seq 0 k) ++ orphan
    /\ IMAGE_QUEUE env' = IMAGE_QUEUE env ++ map (work_unit o params) (seq 0 k)
    /\ (insert_outage o k = Some msg -> orphan = [])
    /\ (insert_outage o k = None -> orphan = [new_job_row o params k]).
Proof.
  intros Hparse n Hk Hup [Hnd Hfresh] Hout.
  assert (Hn : n = (k + S (n - k - 1))%nat) by lia.
  assert (Hprefix : forall env0,
    env0 = env ->
    create_jobs o params n 0 [] env0
    = create_jobs o params (S (n - k - 1)) k (map (randomUUID o) (seq 0 k))
        (mkEnv (D1.mkDb (D1.generation_jobs (DB env)
                           ++ map (new_job_row o params) (seq 0 k))
                        (D1.generations (DB env)))
               (IMAGE_QUEUE env ++ map (work_unit o params) (seq 0 k)))).
  { intros env0 ->. rewrite Hn at 1. rewrite create_jobs_app. unfold bind.
    rewrite create_jobs_ok; [reflexivity | | | ].
    - intros j Hj. apply Hup. lia.
    - rewrite Hn, seq_app, map_app in Hnd. now apply NoDup_app_remove_r in Hnd.
    - intros j Hj. apply Hfresh. lia. }
  assert (Hfresh_k :
    D1.has_job (randomUUID o k)
      (D1.mkDb (D1.generation_jobs (DB env) ++ map (new_job_row o params) (seq 0 k))
               (D1.generations (DB env))) = false).
  { unfold D1.has_job; simpl. rewrite existsb_app. apply orb_false_iff. split.
    - apply Hfresh. lia.
    - apply not_true_is_false. intros Hex.
      apply existsb_exists in Hex as [j [Hj Heq]].
      apply in_map_iff in Hj as [i [<- Hi]]. apply in_seq in Hi. simpl in Heq.
      apply String.eqb_eq in Heq.
      rewrite Hn, seq_app, map_app in Hnd. simpl in Hnd.
      apply NoDup_remove_2 in Hnd. apply Hnd, in_or_app. left.
      rewrite <- Heq. apply in_map, in_seq. lia. }
  unfold callImageTool; simpl. unfold catch_all, generate_image.
  rewrite Hparse. unfold bind. fold n. rewrite (Hprefix env eq_refl).
  destruct Hout as [Hi | [Hi Hs]].
  - rewrite (create_jobs_insert_rejected o params _ _ _ _ msg Hi).
    exists [], (mkResult (Failure msg) true). eexists.
    split; [reflexivity|]. simpl. rewrite app_nil_r.
    repeat split; auto. congruence.
  - rewrite (create_jobs_send_rejected o params _ _ _ _ msg Hi Hs)
      by exact Hfresh_k.
    exists [new_job_row o params k], (mkResult (Failure msg) true). eexists.
    split; [reflexivity|]. simpl. rewrite <- app_assoc.
    repeat split; auto. congruence.
Qed.

(** ** Waiting *)

Section Waiting.

Lemma insert_by_id_perm x l : Permutation (D1.insert_by_id x l) (x :: l).
Proof.
  induction l as [|y l IH]; simpl; [reflexivity|].
  destruct (String.leb (id x) (id y)); [reflexivity|].
  apply perm_trans with (y :: x :: l); [now constructor | apply perm_swap].
Qed.

Lemma order_by_id_perm l : Permutation (D1.order_by_id l) l.
Proof.
  induction l as [|x l IH]; simpl; [reflexivity|].
  apply perm_trans with (x :: D1.order_by_id l);
    [apply insert_by_id_perm | now constructor].
Qed.

(** The rows of the query are the rows whose [id] is listed, whatever
    their order. *)
Lemma select_jobs_in_perm ids db :
  Permutation (D1.select_jobs_in ids db)
    (filter (fun j => existsb (String.eqb (id j)) ids) (D1.generation_jobs db)).
Proof. apply order_by_id_perm. Qed.

Lemma select_jobs_in_In ids db j :
  In j (D1.select_jobs_in ids db)
  <-> In j (D1.generation_jobs db) /\ existsb (String.eqb (id j)) ids = true.
Proof.
  split; intros H.
  - apply (Permutation_in _ (select_jobs_in_perm ids db)) in H.
    now apply filter_In in H.
  - apply (Permutation_in _ (Permutation_sym (select_jobs_in_perm ids db))).
    now apply filter_In.
Qed.

Lemma select_ids_nodup ids db :
  primary_key db -> NoDup (map id (D1.select_jobs_in ids db)).
Proof.
  intros Hpk.
  apply (Permutation_NoDup
           (Permutation_map id (Permutation_sym (select_jobs_in_perm ids db)))).
  revert Hpk. unfold primary_key.
  induction (D1.generation_jobs db) as [|j l IH]; simpl; intros Hnd; [constructor|].
  apply NoDup_cons_iff in Hnd as [Hnotin Hnd].
  destruct (existsb _ ids); simpl; [|now apply IH].
  constructor; [|now apply IH].
  intros Hin. apply Hnotin. apply in_map_iff in Hin as [j' [Heq Hj']].
  apply filter_In in Hj' as [Hj' _]. rewrite <- Heq. now apply in_map.
Qed.

Lemma select_ids_incl ids db :
  incl (map id (D1.select_jobs_in ids db)) ids.
Proof.
  intros x Hx. apply in_map_iff in Hx as [j [<- Hj]].
  apply select_jobs_in_In in Hj as [_ Hj]. apply existsb_exists in Hj as [y [Hy Heq]].
  apply String.eqb_eq in Heq. now rewrite Heq.
Qed.

Lemma select_ids_present ids db x :
  In x (map id (D1.select_jobs_in ids db)) -> D1.has_job x db = true.
Proof.
  intros Hx. apply in_map_iff in Hx as [j [<- Hj]].
  apply select_jobs_in_In in Hj as [Hj _]. apply existsb_exists.
  exists j. split; [exact Hj | apply String.eqb_refl].
Qed.

(** The query returns one row per distinct identifier that is in the
    store: fewer rows than identifiers once one is missing... *)
Lemma select_missing_shorter ids db x :
  primary_key db -> In x ids -> D1.has_job x db = false ->
  (List.length (D1.select_jobs_in ids db) < List.length ids)%nat.
Proof.
  intros Hpk Hx Hmissing.
  rewrite <- (length_map id (D1.select_jobs_in ids db)).
  apply Nat.le_lt_trans with (List.length (remove string_dec x ids)).
  - apply NoDup_incl_length; [now apply select_ids_nodup|].
    intros y Hy. apply in_in_remove.
    + intros ->. apply select_ids_present in Hy. congruence.
    + now apply select_ids_incl in Hy.
  - now apply remove_length_lt.
Qed.

(** ... or once one is listed twice. *)
Lemma select_duplicate_shorter ids db :
  primary_key db -> ~ NoDup ids ->
  (List.length (D1.select_jobs_in ids db) < List.length ids)%nat.
Proof.
  intros Hpk Hdup. apply Nat.nle_gt. intros Hle. apply Hdup.
  apply NoDup_incl_NoDup with (l := map id (D1.select_jobs_in ids db)).
  - now apply select_ids_nodup.
  - now rewrite length_map.
  - apply select_ids_incl.
Qed.

Lemma poll_not_found isSingle ids db :
  (List.length (D1.select_jobs_in ids db) < List.length ids)%nat ->
  poll isSingle ids db = Some (mkResult JobsNotFound true).
Proof.
  intros Hlt. unfold poll.
  replace (List.length (D1.select_jobs_in ids db) =? List.length ids)%nat with false.
  - reflexivity.
  - symmetry. apply Nat.eqb_neq. lia.
Qed.

Lemma MAX_WAIT_pos ids : 0 < MAX_WAIT ids.
Proof. unfold MAX_WAIT, BASE_TIMEOUT, PER_JOB_TIMEOUT. lia. Qed.

(** A first poll that comes up short returns at once, before any sleep. *)
Lemma wait_first_poll_short args params (o : Oracle) (fuel : nat) (env : Env) :
  Zod.WaitForCompletionSchema args = Zod.Parsed params ->
  (0 < fuel)%nat ->
  (List.length (D1.select_jobs_in (ids_of params) (poll_sees o 0 (DB env)))
   < List.length (ids_of params))%nat ->
  wait_for_completion args o fuel env
  = Some (mkWaited (mkResult JobsNotFound true) (query_ms o 0) 0)
  /\ callImageTool "wait_for_completion" args o fuel env
     = Some (mkResult JobsNotFound true, env).
Proof.
  intros Hparse Hfuel Hshort.
  assert (Hw : wait_for_completion args o fuel env
               = Some (mkWaited (mkResult JobsNotFound true) (query_ms o 0) 0)).
  { unfold wait_for_completion. rewrite Hparse.
    destruct fuel as [|fuel]; [lia|]. simpl.
    pose proof (MAX_WAIT_pos (ids_of params)) as Hpos.
    apply Z.ltb_lt in Hpos. rewrite Hpos.
    now rewrite (poll_not_found _ _ _ Hshort). }
  split; [exact Hw|].
  unfold callImageTool; simpl. now rewrite Hw.
Qed.

(** C5. A [wait_for_completion] call that names at least one identifier
    absent from the job store returns the 'One or more jobs not found'
    error on its first poll: as soon as that poll's query is back, with no
    sleep taken. *)
Theorem wait_fails_fast_on_missing args params (o : Oracle) (fuel : nat) (env : Env) :
  Zod.WaitForCompletionSchema args = Zod.Parsed params ->
  (0 < fuel)%nat ->
  primary_key (poll_sees o 0 (DB env)) ->
  (exists jid, In jid (ids_of params)
               /\ D1.has_job jid (poll_sees o 0 (DB env)) = false) ->
  wait_for_completion args o fuel env
  = Some (mkWaited (mkResult JobsNotFound true) (query_ms o 0) 0)
  /\ callImageTool "wait_for_completion" args o fuel env
     = Some (mkResult JobsNotFound true, env).
Proof.
  intros Hparse Hfuel Hpk [jid [Hin Hmissing]].
  apply (wait_first_poll_short args params); auto.
  now apply select_missing_shorter with jid.
Qed.

(** C9. A [job_ids] list that names the same identifier twice gets the
    'One or more jobs not found' error on the first poll although every
    listed identifier is in the store: the query returns one row per
    distinct identifier, and the code compares the number of rows with the
    length of the list. *)
Theorem wait_duplicate_ids_not_found args (before between rest : list string)
    (jid : string) (o : Oracle) (fuel : nat) (env : Env) :
  let job_ids := before ++ jid :: between ++ jid :: rest in
  Zod.WaitForCompletionSchema args = Zod.Parsed (Zod.Multiple job_ids) ->
  (0 < fuel)%nat ->
  primary_key (poll_sees o 0 (DB env)) ->
  (forall x, In x job_ids -> D1.has_job x (poll_sees o 0 (DB env)) = true) ->
  (List.length (D1.select_jobs_in job_ids (poll_sees o 0 (DB env))) < List.length job_ids)%nat
  /\ wait_for_completion args o fuel env
     = Some (mkWaited (mkResult JobsNotFound true) (query_ms o 0) 0)
  /\ callImageTool "wait_for_completion" args o fuel env
     = Some (mkResult JobsNotFound true, env).
Proof.
  intros job_ids Hparse Hfuel Hpk Hall.
  assert (Hshort :
    (List.length (D1.select_jobs_in job_ids (poll_sees o 0 (DB env))) < List.length job_ids)%nat).
  { apply select_duplicate_shorter; [exact Hpk|].
    unfold job_ids. intros Hnd. apply NoDup_remove_2 in Hnd.
    apply Hnd. apply in_or_app. right. apply in_or_app. right. now left. }
  split; [exact Hshort|].
  now apply (wait_first_poll_short args (Zod.Multiple job_ids)).
Qed.

End Waiting.

(** ** The timeout of a wait *)

Section WaitTimeout.

Variable o : Oracle.
Variable db0 : D1.Database.
Variable isSingle : bool.
Variable jobIds : list string.

Let timed_out : ToolResult :=
  mkResult (WaitTimeout (round_div_1000 (MAX_WAIT jobIds))) true.

Lemma filter_none {A} (f : A -> bool) l :
  (forall x, In x l -> f x = false) -> filter f l = [].
Proof.
  induction l as [|x l IH]; intros Hall; simpl; [reflexivity|].
  rewrite (Hall x (or_introl eq_refl)). apply IH.
  intros y Hy. apply Hall. now right.
Qed.

Lemma keeps_waiting_poll db :
  keeps_waiting jobIds db -> poll isSingle jobIds db = None.
Proof.
  intros [Hlen [Hnofail [j [Hj Hstill]]]]. unfold poll.
  rewrite Hlen, Nat.eqb_refl; simpl.
  rewrite (filter_none (is_status failed)).
  - simpl.
    destruct (filter (fun j => is_status pending j || is_status processing j)
                     (D1.select_jobs_in jobIds db)) as [|p ps] eqn:Ep;
      [|reflexivity].
    assert (Hin : In j (filter (fun j => is_status pending j || is_status processing j)
                               (D1.select_jobs_in jobIds db))).
    { apply filter_In. split; [exact Hj|].
      unfold is_status. destruct Hstill as [-> | ->]; reflexivity. }
    rewrite Ep in Hin. destruct Hin.
  - intros x Hx. unfold is_status. specialize (Hnofail x Hx).
    destruct (status x); try reflexivity. congruence.
Qed.

Hypothesis Htimer : timer_ok o.
Hypothesis Hwaiting : forall k, keeps_waiting jobIds (poll_sees o k db0).

(** From poll [k] entered at [e], with fuel for the time that is left, the
    loop ends in the timeout: at once when [e] is past the deadline,
    otherwise after a last poll [last] that began before the deadline. *)
Lemma wait_loop_times_out fuel : forall k e,
  MAX_WAIT jobIds - e <= (Z.of_nat fuel - 1) * POLL_INTERVAL ->
  (1 <= fuel)%nat ->
  exists w,
    wait_loop o db0 isSingle jobIds fuel k e = Some w
    /\ result w = timed_out
    /\ MAX_WAIT jobIds <= elapsed_ms w
    /\ ((elapsed_ms w = e /\ sleeps w = k)
        \/ exists last,
             sleeps w = S last /\ (k <= last)%nat
             /\ elapsed_ms w < MAX_WAIT jobIds + query_ms o last + sleep_ms o last).
Proof.
  induction fuel as [|fuel IH]; intros k e Hfuel Hpos; [lia|].
  simpl. destruct (e <? MAX_WAIT jobIds) eqn:E.
  - apply Z.ltb_lt in E. rewrite (keeps_waiting_poll _ (Hwaiting k)).
    destruct (Htimer k) as [Hq Hs]. unfold POLL_INTERVAL in *.
    destruct (IH (S k) (e + query_ms o k + sleep_ms o k)) as [w [Hw [Hr [Hlate Hcase]]]];
      [lia | lia |].
    exists w. repeat split; auto. right.
    destruct Hcase as [[He Hk] | [last [Hk [Hle Hlt]]]].
    + exists k. repeat split; auto. lia.
    + exists last. repeat split; auto. lia.
  - apply Z.ltb_ge in E. eexists. split; [reflexivity|]. simpl.
    repeat split; auto.
Qed.

(** With instantaneous queries and an exact timer the polls fall on
    multiples of the interval, and so does the deadline. *)
Lemma wait_loop_ideal (Hideal : ideal_timer o) (remaining : nat) : forall fuel k e,
  e = MAX_WAIT jobIds - Z.of_nat remaining * POLL_INTERVAL ->
  (remaining < fuel)%nat ->
  wait_loop o db0 isSingle jobIds fuel k e
  = Some (mkWaited timed_out (MAX_WAIT jobIds) (k + remaining)).
Proof.
  induction remaining as [|r IH]; intros fuel k e He Hfuel;
    (destruct fuel as [|fuel]; [lia|]); simpl.
  - replace (e <? MAX_WAIT jobIds) with false
      by (symmetry; apply Z.ltb_ge; lia).
    rewrite Nat.add_0_r. f_equal. f_equal. lia.
  - replace (e <? MAX_WAIT jobIds) with true
      by (symmetry; apply Z.ltb_lt; unfold POLL_INTERVAL in He; lia).
    rewrite (keeps_waiting_poll _ (Hwaiting k)).
    destruct (Hideal k) as [-> ->].
    rewrite (IH fuel (S k) (e + 0 + POLL_INTERVAL)); [|lia|lia].
    f_equal. f_equal. lia.
Qed.

End WaitTimeout.

Lemma round_div_1000_seconds s : round_div_1000 (1000 * s) = s.
Proof.
  unfold round_div_1000. rewrite Z.mul_comm, Z.div_add_l by lia.
  change (500 / 1000) with 0. lia.
Qed.

(** C4, as the code has it. For a [wait_for_completion] call naming [N]
    identifiers (1..20) the deadline is 60 s plus 3 s per identifier. When
    every poll finds all the named jobs, none of them [failed] and one at
    least not yet terminal, the call returns the timeout error for
    [60 + 3 N] seconds, no earlier than the deadline and less than the
    duration of its last poll (that poll's store query plus the sleep
    after it) past the deadline; with instantaneous store queries and an
    exact 3 s timer it returns at the deadline exactly, after [20 + N]
    sleeps. *)
Theorem wait_timeout_window args params (o : Oracle) (fuel : nat) (env : Env) :
  Zod.WaitForCompletionSchema args = Zod.Parsed params ->
  let ids := ids_of params in
  let N := Z.of_nat (List.length ids) in
  timer_ok o ->
  (forall k, keeps_waiting ids (poll_sees o k (DB env))) ->
  (21 + List.length ids <= fuel)%nat ->
  1 <= N <= 20
  /\ MAX_WAIT ids = 1000 * (60 + 3 * N)
  /\ exists w last,
       wait_for_completion args o fuel env = Some w
       /\ result w = mkResult (WaitTimeout (60 + 3 * N)) true
       /\ sleeps w = S last
       /\ MAX_WAIT ids <= elapsed_ms w
       /\ elapsed_ms w < MAX_WAIT ids + query_ms o last + sleep_ms o last
       /\ (ideal_timer o ->
           elapsed_ms w = MAX_WAIT ids /\ sleeps w = (20 + List.length ids)%nat).
Proof.
  intros Hparse ids N Htimer Hwaiting Hfuel.
  pose proof (WaitForCompletionSchema_bounds _ _ Hparse) as Hn. fold ids in Hn.
  assert (Hmax : MAX_WAIT ids = 1000 * (60 + 3 * N)).
  { unfold MAX_WAIT, BASE_TIMEOUT, PER_JOB_TIMEOUT, N. lia. }
  split; [unfold N; lia|]. split; [exact Hmax|].
  destruct (wait_loop_times_out o (DB env) (is_single params) ids Htimer Hwaiting fuel 0%nat 0)
    as [w [Hw [Hr [Hlate Hcase]]]].
  { rewrite Hmax. unfold POLL_INTERVAL, N. lia. }
  { lia. }
  destruct Hcase as [[He _] | [last [Hk [_ Hlt]]]].
  { pose proof (MAX_WAIT_pos ids). lia. }
  exists w, last. unfold wait_for_completion. rewrite Hparse. fold ids.
  split; [exact Hw|]. split.
  { rewrite Hr, Hmax. now rewrite round_div_1000_seconds. }
  split; [exact Hk|]. split; [exact Hlate|]. split; [exact Hlt|].
  intros Hideal.
  pose proof (wait_loop_ideal o (DB env) (is_single params) ids Hwaiting Hideal
                (20 + List.length ids) fuel 0%nat 0) as Hexact.
  rewrite Hw in Hexact.
  assert (Heq : Some w = Some (mkWaited
                 (mkResult (WaitTimeout (round_div_1000 (MAX_WAIT ids))) true)
                 (MAX_WAIT ids) (0 + (20 + List.length ids)))).
  { apply Hexact; [|lia]. rewrite Hmax. unfold POLL_INTERVAL, N. lia. }
  inversion Heq. split; reflexivity.
Qed.

(** ** What every handler keeps

    A relation between stores that is kept by each statement the handlers
    issue is kept by the handlers, by a batch, and by a run of events.
    [touches] restricts the jobs whose rows may be updated. *)

Section Preserves.

Variable R : D1.Database -> D1.Database -> Prop.
Variable touches : string -> Prop.

Hypothesis R_refl : forall db, R db db.
Hypothesis R_trans : forall a b c, R a b -> R b c -> R a c.
Hypothesis R_insert_job : forall jid p m t db db',
  D1.insert_job jid pending p m t t db = Done db' -> R db db'.
Hypothesis R_processing : forall jid t db,
  touches jid -> R db (D1.update_where_id jid (D1.set_status processing t) db).
Hypothesis R_completed : forall jid url t db,
  touches jid ->
  R db (D1.update_where_id jid (D1.set_status_image_url completed url t) db).
Hypothesis R_failed : forall jid msg t db,
  touches jid ->
  R db (D1.update_where_id jid (D1.set_status_error failed msg t) db).
Hypothesis R_archive : forall g db db',
  D1.insert_generation g db = Done db' -> R db db'.

Lemma preserves_ret {A} (a : A) : preserves R (ret a).
Proof. intros env. apply R_refl. Qed.

Lemma preserves_throw {A} msg : preserves R (@throw A msg).
Proof. intros env. apply R_refl. Qed.

Lemma preserves_bind {A B} (c : Eff A) (k : A -> Eff B) :
  preserves R c -> (forall a, preserves R (k a)) -> preserves R (bind c k).
Proof.
  intros Hc Hk env. unfold bind. specialize (Hc env).
  destruct (c env) as [[a|msg] env1]; simpl in *; [|exact Hc].
  eapply R_trans; [exact Hc | apply Hk].
Qed.

Lemma preserves_try_catch {A} (c : Eff A) (h : string -> Eff A) :
  preserves R c -> (forall msg, preserves R (h msg)) -> preserves R (try_catch c h).
Proof.
  intros Hc Hh env. unfold try_catch. specialize (Hc env).
  destruct (c env) as [[a|msg] env1]; simpl in *; [exact Hc|].
  eapply R_trans; [exact Hc | apply Hh].
Qed.

Lemma preserves_run outage stmt :
  (forall db db', stmt db = Done db' -> R db db') -> preserves R (run outage stmt).
Proof.
  intros Hstmt env. unfold run. destruct outage; simpl; [apply R_refl|].
  destruct (stmt (DB env)) eqn:E; simpl; [now apply Hstmt | apply R_refl].
Qed.

Lemma preserves_send outage message : preserves R (send outage message).
Proof. intros env. unfold send. destruct outage; apply R_refl. Qed.

Lemma preserves_create_jobs o params todo : forall i acc,
  preserves R (create_jobs o params todo i acc).
Proof.
  induction todo as [|todo IH]; intros i acc; simpl.
  - apply preserves_ret.
  - apply preserves_bind; [apply preserves_run, R_insert_job|]. intros _.
    apply preserves_bind; [apply preserves_send|]. intros _. apply IH.
Qed.

Lemma preserves_generate_image args o : preserves R (generate_image args o).
Proof.
  unfold generate_image. destruct (Zod.GenerateImageSchema args).
  - apply preserves_bind; [apply preserves_create_jobs|]. intros jobIds.
    destruct (Zod.gi_count a =? 1); apply preserves_ret.
  - apply preserves_throw.
Qed.

Lemma catch_all_preserves c env :
  preserves R c -> R (DB env) (DB (snd (catch_all c env))).
Proof.
  intros Hc. unfold catch_all. specialize (Hc env).
  now destruct (c env) as [[r|msg] env1].
Qed.

Lemma catch_all_read_only c env :
  (forall env0, snd (c env0) = env0) -> snd (catch_all c env) = env.
Proof.
  intros Hc. unfold catch_all. specialize (Hc env).
  now destruct (c env) as [[r|msg] env1].
Qed.

Lemma get_job_status_read_only args env : snd (get_job_status args env) = env.
Proof.
  unfold get_job_status. destruct (Zod.GetJobStatusSchema args); [|reflexivity].
  now destruct (D1.first_job a (DB env)).
Qed.

Lemma list_generations_read_only args env : snd (list_generations args env) = env.
Proof.
  unfold list_generations. destruct (Zod.ListGenerationsSchema args); [|reflexivity].
  now destruct (D1.limit_offset _ _ _).
Qed.

Lemma list_jobs_read_only args env : snd (list_jobs args env) = env.
Proof.
  unfold list_jobs. destruct (Zod.ListJobsSchema args); [|reflexivity].
  now destruct (D1.limit_offset _ _ _).
Qed.

Lemma callImageTool_preserves name args o fuel env r env' :
  callImageTool name args o fuel env = Some (r, env') -> R (DB env) (DB env').
Proof.
  unfold callImageTool.
  destruct (String.eqb name "generate_image").
  { intros H; inversion H as [H'].
    change env' with (snd (r, env')). rewrite <- H'.
    apply catch_all_preserves, preserves_generate_image. }
  destruct (String.eqb name "get_job_status").
  { intros H; inversion H as [H'].
    change env' with (snd (r, env')). rewrite <- H'.
    rewrite catch_all_read_only; [apply R_refl | apply get_job_status_read_only]. }
  destruct (String.eqb name "list_generations").
  { intros H; inversion H as [H'].
    change env' with (snd (r, env')). rewrite <- H'.
    rewrite catch_all_read_only; [apply R_refl | apply list_generations_read_only]. }
  destruct (String.eqb name "list_jobs").
  { intros H; inversion H as [H'].
    change env' with (snd (r, env')). rewrite <- H'.
    rewrite catch_all_read_only; [apply R_refl | apply list_jobs_read_only]. }
  destruct (String.eqb name "wait_for_completion").
  { destruct (wait_for_completion args o fuel env); simpl; intros H; inversion H.
    apply R_refl. }
  destruct (String.eqb name "generate_image_and_wait").
  { pose proof (catch_all_preserves (generate_image args o) env
                  (preserves_generate_image args o)) as Hgen.
    destruct (catch_all (generate_image args o) env) as [genResult env1].
    destruct (wait_for_completion _ o fuel env1); simpl; intros H; inversion H.
    subst. exact Hgen. }
  intros H; inversion H. apply R_refl.
Qed.

Lemma preserves_process_message d :
  touches (jobId (body d)) -> preserves R (process_message d).
Proof.
  intros Htouch. unfold process_message. apply preserves_try_catch.
  - apply preserves_bind.
    { apply preserves_run. intros db db' H; inversion H. now apply R_processing. }
    intros _. unfold generate_and_store.
    apply preserves_bind.
    { unfold generateImage. destruct (ai_run d);
        [apply preserves_ret | apply preserves_throw]. }
    intros _. apply preserves_bind.
    { unfold uploadImage. destruct (r2_put d);
        [apply preserves_ret | apply preserves_throw]. }
    intros downloadUrl. apply preserves_bind.
    { apply preserves_run. intros db db' H; inversion H. now apply R_completed. }
    intros _. apply preserves_bind; [|intros _; apply preserves_ret].
    apply preserves_run. apply R_archive.
  - intros msg. unfold mark_failed.
    apply preserves_bind; [|intros _; apply preserves_ret].
    apply preserves_try_catch; [|intros _; apply preserves_ret].
    apply preserves_run. intros db db' H; inversion H. now apply R_failed.
Qed.

Lemma preserves_queue batch :
  (forall d, In d batch -> touches (jobId (body d))) -> preserves R (queue batch).
Proof.
  induction batch as [|d batch IH]; intros Htouch; simpl.
  - apply preserves_ret.
  - apply preserves_bind.
    { apply preserves_process_message, Htouch. now left. }
    intros a. apply preserves_bind; [|intros l; apply preserves_ret].
    apply IH. intros d' Hd'. apply Htouch. now right.
Qed.

Lemma step_preserves env e :
  (forall batch d, e = QueueBatch batch -> In d batch -> touches (jobId (body d))) ->
  R (DB env) (DB (step env e)).
Proof.
  intros Htouch. destruct e as [name args o fuel | batch]; simpl.
  - destruct (callImageTool name args o fuel env) as [[r env']|] eqn:E;
      [|apply R_refl].
    eapply callImageTool_preserves, E.
  - apply preserves_queue. intros d Hd. now apply (Htouch batch).
Qed.

Lemma run_events_preserves es : forall env,
  (forall e batch d, In e es -> e = QueueBatch batch -> In d batch ->
                     touches (jobId (body d))) ->
  R (DB env) (DB (run_events es env)).
Proof.
  unfold run_events. induction es as [|e es IH]; intros env Htouch; simpl.
  - apply R_refl.
  - eapply R_trans.
    + apply step_preserves. intros batch d He Hd.
      exact (Htouch e batch d (or_introl eq_refl) He Hd).
    + apply IH. intros e' batch d He' Hb Hd.
      exact (Htouch e' batch d (or_intror He') Hb Hd).
Qed.

End Preserves.

(** ** Rows and statements *)

Section Rows.

Lemma set_status_id st t j : id (D1.set_status st t j) = id j.
Proof. reflexivity. Qed.

Lemma set_status_image_url_id st url t j :
  id (D1.set_status_image_url st url t j) = id j.
Proof. reflexivity. Qed.

Lemma set_status_error_id st msg t j : id (D1.set_status_error st msg t j) = id j.
Proof. reflexivity. Qed.

Lemma update_where_id_ids jid f db :
  (forall j, id (f j) = id j) ->
  map id (D1.generation_jobs (D1.update_where_id jid f db))
  = map id (D1.generation_jobs db).
Proof.
  intros Hid. simpl. rewrite map_map. apply map_ext.
  intros j. destruct (String.eqb (id j) jid); [apply Hid | reflexivity].
Qed.

Lemma first_job_update_other jid k f db :
  k <> jid -> (forall j, id (f j) = id j) ->
  D1.first_job jid (D1.update_where_id k f db) = D1.first_job jid db.
Proof.
  intros Hne Hid. unfold D1.first_job; simpl.
  induction (D1.generation_jobs db) as [|j l IH]; simpl; [reflexivity|].
  destruct (String.eqb (id j) k) eqn:Ek.
  - apply String.eqb_eq in Ek. rewrite Hid, Ek.
    apply String.eqb_neq in Hne. rewrite Hne. exact IH.
  - destruct (String.eqb (id j) jid); [reflexivity | exact IH].
Qed.

Lemma first_job_update_same k f db :
  (forall j, id (f j) = id j) ->
  D1.first_job k (D1.update_where_id k f db) = option_map f (D1.first_job k db).
Proof.
  intros Hid. unfold D1.first_job; simpl.
  induction (D1.generation_jobs db) as [|j l IH]; simpl; [reflexivity|].
  destruct (String.eqb (id j) k) eqn:Ek.
  - rewrite Hid, Ek. reflexivity.
  - rewrite Ek. exact IH.
Qed.

Lemma has_job_first_job jid db :
  D1.has_job jid db = true -> exists j, D1.first_job jid db = Some j.
Proof.
  unfold D1.has_job, D1.first_job.
  induction (D1.generation_jobs db) as [|j l IH]; simpl; [discriminate|].
  destruct (String.eqb (id j) jid); simpl; [now exists j | exact IH].
Qed.

Lemma first_job_has_job jid db j :
  D1.first_job jid db = Some j -> D1.has_job jid db = true.
Proof.
  unfold D1.has_job, D1.first_job. intros Hfind.
  apply find_some in Hfind as [Hin Heq].
  apply existsb_exists. now exists j.
Qed.

Lemma insert_job_done jid st p m c u db db' :
  D1.insert_job jid st p m c u db = Done db' ->
  D1.has_job jid db = false
  /\ db' = D1.mkDb (D1.generation_jobs db ++ [mkJob jid st p m None None c u])
                   (D1.generations db).
Proof.
  unfold D1.insert_job. destruct (D1.has_job jid db); [discriminate|].
  intros H; inversion H. auto.
Qed.

Lemma insert_generation_done g db db' :
  D1.insert_generation g db = Done db' ->
  D1.has_job (g_job_id g) db = true
  /\ db' = D1.mkDb (D1.generation_jobs db) (D1.generations db ++ [g]).
Proof.
  unfold D1.insert_generation. destruct (D1.has_generation (g_id g) db); [discriminate|].
  destruct (D1.has_job (g_job_id g) db); simpl; [|discriminate].
  intros H; inversion H. auto.
Qed.

(** Each write keeps the primary key and the reading of the status. *)
Lemma exec_primary_key w db : primary_key db -> primary_key (exec w db).
Proof.
  unfold primary_key. intros Hpk.
  destruct w as [jid p m t | jid t | jid url t | g | jid msg t]; cbn [exec].
  - destruct (D1.insert_job jid pending p m t t db) eqn:E; [|exact Hpk].
    apply insert_job_done in E as [Hnew ->]. simpl.
    rewrite map_app. simpl.
    apply NoDup_app; [exact Hpk | repeat constructor; intros [] |].
    intros x Hin [<- | []]. apply in_map_iff in Hin as [j [Heq Hj]].
    apply not_true_iff_false in Hnew. apply Hnew.
    apply existsb_exists. exists j. split; [exact Hj | now apply String.eqb_eq].
  - now rewrite (update_where_id_ids jid _ db (set_status_id processing t)).
  - now rewrite (update_where_id_ids jid _ db (set_status_image_url_id completed url t)).
  - destruct (D1.insert_generation g db) eqn:E; [|exact Hpk].
    now apply insert_generation_done in E as [_ ->].
  - now rewrite (update_where_id_ids jid _ db (set_status_error_id failed msg t)).
Qed.

Lemma update_where_id_rows (P : GenerationJob -> Prop) jid f db :
  (forall j, P (f j)) ->
  Forall P (D1.generation_jobs db) ->
  Forall P (D1.generation_jobs (D1.update_where_id jid f db)).
Proof.
  intros Hf Hall. simpl. apply Forall_forall. intros j' Hj'.
  apply in_map_iff in Hj' as [j [<- Hj]].
  destruct (String.eqb (id j) jid); [apply Hf|].
  rewrite Forall_forall in Hall. now apply Hall.
Qed.

Lemma exec_row_consistent w db :
  Forall row_consistent (D1.generation_jobs db) ->
  Forall row_consistent (D1.generation_jobs (exec w db)).
Proof.
  intros Hall. destruct w as [jid p m t | jid t | jid url t | g | jid msg t]; cbn [exec].
  - destruct (D1.insert_job jid pending p m t t db) eqn:E; [|exact Hall].
    apply insert_job_done in E as [_ ->]. simpl.
    apply Forall_app. split; [exact Hall|]. constructor; [|constructor].
    unfold row_consistent; simpl. repeat split; discriminate.
  - apply update_where_id_rows; [|exact Hall].
    intros j. unfold row_consistent; simpl. repeat split; discriminate.
  - apply update_where_id_rows; [|exact Hall].
    intros j. unfold row_consistent; simpl. repeat split; discriminate.
  - destruct (D1.insert_generation g db) eqn:E; [|exact Hall].
    now apply insert_generation_done in E as [_ ->].
  - apply update_where_id_rows; [|exact Hall].
    intros j. unfold row_consistent; simpl. repeat split; discriminate.
Qed.

Lemma reachable_primary_key db : reachable db -> primary_key db.
Proof.
  induction 1 as [|w db Hr IH]; [constructor | now apply exec_primary_key].
Qed.

Lemma reachable_row_consistent db :
  reachable db -> Forall row_consistent (D1.generation_jobs db).
Proof.
  induction 1 as [|w db Hr IH]; [constructor | now apply exec_row_consistent].
Qed.

(** Handlers only issue the writes of [Write]: what a run of events makes
    of a reachable store is reachable. *)
Lemma run_events_reachable es env :
  reachable (DB env) -> reachable (DB (run_events es env)).
Proof.
  apply (run_events_preserves (fun a b => reachable a -> reachable b)
                              (fun _ => True)); auto.
  - intros jid p m t db db' E Hr. apply insert_job_done in E as [Hnew E].
    replace db' with (exec (W_insert_job jid p m t) db); [now constructor|].
    simpl. unfold D1.insert_job. rewrite Hnew. now rewrite E.
  - intros jid t db _ Hr. exact (reach_write (W_processing jid t) db Hr).
  - intros jid url t db _ Hr. exact (reach_write (W_completed jid url t) db Hr).
  - intros jid msg t db _ Hr. exact (reach_write (W_failed jid msg t) db Hr).
  - intros g db db' E Hr.
    replace db' with (exec (W_archive g) db); [now constructor|].
    simpl. now rewrite E.
Qed.

End Rows.

(** C3, as the code has it. In every store the system can reach (handlers
    interleaved at any [await], re-deliveries and rejected writes
    included), and so after every run of tool calls and consumer batches:
    a [completed] job has a result reference, a [failed] job has an error
    detail, and a [pending] job has neither. (The converses do not hold:
    neither field is ever cleared.) *)
Theorem job_fields_follow_status :
  (forall db, reachable db ->
     forall j, In j (D1.generation_jobs db) -> row_consistent j)
  /\ (forall es j,
        In j (D1.generation_jobs (DB (run_events es initial))) -> row_consistent j).
Proof.
  assert (Hreach : forall db, reachable db ->
            forall j, In j (D1.generation_jobs db) -> row_consistent j).
  { intros db Hr j Hj. apply reachable_row_consistent in Hr.
    rewrite Forall_forall in Hr. now apply Hr. }
  split; [exact Hreach|].
  intros es j Hj. apply (Hreach (DB (run_events es initial))); [|exact Hj].
  apply run_events_reachable. constructor.
Qed.

(** ** One delivery, statement by statement *)

Section OneDelivery.

Variable d : Delivery.
Variable env : Env.

Let jid := jobId (body d).
Let db1 := D1.update_where_id jid (D1.set_status processing (t_processing d)) (DB env).
Let record_of (url : string) : Generation :=
  mkGeneration (generation_id d) jid url (m_prompt (body d)) (m_model (body d)) (t_now d).

(** The consumer on a store that takes every statement. *)
Lemma process_message_accepting :
  store_accepts d ->
  process_message d env
  = let mark_failed_on db msg :=
      (Done Retry,
       mkEnv (D1.update_where_id jid (D1.set_status_error failed msg (t_failed d)) db)
             (IMAGE_QUEUE env)) in
    match ai_run d with
    | Throws msg => mark_failed_on db1 ("Image generation failed: " ++ msg)%string
    | Done _ =>
        match r2_put d with
        | Throws msg => mark_failed_on db1 ("Image upload failed: " ++ msg)%string
        | Done url =>
            let db2 := D1.update_where_id jid
                         (D1.set_status_image_url completed url (t_now d)) db1 in
            match D1.insert_generation (record_of url) db2 with
            | Done db3 => (Done Ack, mkEnv db3 (IMAGE_QUEUE env))
            | Throws msg => mark_failed_on db2 msg
            end
        end
    end.
Proof.
  intros [Hp [Hc [Ha Hf]]].
  unfold process_message, try_catch, bind, mark_processing, generate_and_store,
    generateImage, uploadImage, mark_failed, try_catch, bind, run, ret, throw.
  rewrite Hp, Hc, Ha, Hf. simpl.
  destruct (ai_run d); [|reflexivity].
  destruct (r2_put d) as [url|msg]; [|reflexivity]. simpl.
  fold jid. fold db1. fold (record_of url).
  destruct (D1.insert_generation (record_of url) _); reflexivity.
Qed.

Lemma status_in_update_same (f : GenerationJob -> GenerationJob) s db :
  D1.has_job jid db = true ->
  (forall j, id (f j) = id j) -> (forall j, status (f j) = s) ->
  status_in jid (D1.update_where_id jid f db) = Some s
  /\ D1.has_job jid (D1.update_where_id jid f db) = true.
Proof.
  intros Hjob Hid Hs. apply has_job_first_job in Hjob as [j Hj].
  assert (Hfirst : D1.first_job jid (D1.update_where_id jid f db) = Some (f j)).
  { rewrite first_job_update_same by exact Hid. now rewrite Hj. }
  split.
  - unfold status_in. rewrite Hfirst. simpl. now rewrite Hs.
  - eapply first_job_has_job, Hfirst.
Qed.

(** Whatever the status was, a delivery first makes it [processing] and
    leaves it [completed] (acknowledged) or [failed] (to be retried). *)
Lemma delivery_status_path :
  D1.has_job jid (DB env) = true ->
  store_accepts d ->
  status_in jid (DB (snd (mark_processing d env))) = Some processing
  /\ ((fst (process_message d env) = Done Ack
       /\ status_in jid (DB (snd (process_message d env))) = Some completed)
      \/ (fst (process_message d env) = Done Retry
          /\ status_in jid (DB (snd (process_message d env))) = Some failed)).
Proof.
  intros Hjob Hacc.
  destruct (status_in_update_same (D1.set_status processing (t_processing d))
              processing (DB env) Hjob) as [Hs1 Hjob1]; try reflexivity.
  fold db1 in Hs1, Hjob1.
  assert (Hfail : forall db msg,
            D1.has_job jid db = true ->
            status_in jid (D1.update_where_id jid
                             (D1.set_status_error failed msg (t_failed d)) db)
            = Some failed).
  { intros db msg Hdb.
    now destruct (status_in_update_same
                    (D1.set_status_error failed msg (t_failed d)) failed db Hdb). }
  split.
  - unfold mark_processing, run. destruct Hacc as [-> _]. exact Hs1.
  - rewrite (process_message_accepting Hacc). cbv zeta.
    destruct (ai_run d); [|right; split; [reflexivity | now apply Hfail]].
    destruct (r2_put d) as [url|msg]; [|right; split; [reflexivity | now apply Hfail]].
    destruct (status_in_update_same
                (D1.set_status_image_url completed url (t_now d)) completed db1 Hjob1)
      as [Hs2 Hjob2]; try reflexivity.
    destruct (D1.insert_generation (record_of url) _) as [db3|msg] eqn:E.
    + left. split; [reflexivity|].
      apply insert_generation_done in E as [_ ->]. exact Hs2.
    + right. split; [reflexivity | now apply Hfail].
Qed.

(** An acknowledged delivery has appended its one record and left the job
    [completed] with the record's URL; a delivery to be retried has left
    the archive alone. *)
Lemma delivery_archive :
  match fst (process_message d env) with
  | Done Ack =>
      exists url j,
        r2_put d = Done url
        /\ D1.generations (DB (snd (process_message d env)))
           = D1.generations (DB env) ++ [record_of url]
        /\ D1.first_job jid (DB (snd (process_message d env))) = Some j
        /\ status j = completed /\ image_url j = Some url
        /\ updated_at j = t_now d
  | Done Retry =>
      D1.generations (DB (snd (process_message d env))) = D1.generations (DB env)
  | Throws _ => False
  end.
Proof.
  unfold process_message, try_catch, bind, mark_processing, generate_and_store,
    generateImage, uploadImage, mark_failed, try_catch, bind, run, ret, throw.
  destruct (out_processing d), (out_failed d), (ai_run d),
    (r2_put d) as [url|upload_msg], (out_completed d), (out_archive d);
    simpl; try reflexivity.
  all: fold jid; fold (record_of url).
  all: destruct (D1.insert_generation (record_of url) _) as [db3|insert_msg] eqn:E;
    simpl; try reflexivity.
  all: apply insert_generation_done in E as [Hjob ->].
  all: change (g_job_id (record_of url)) with jid in Hjob.
  all: apply has_job_first_job in Hjob as [j Hj]; exists url, j.
  all: split; [reflexivity|]; split; [reflexivity|]; split; [exact Hj|].
  all: rewrite first_job_update_same in Hj by reflexivity.
  all: destruct (D1.first_job jid _) as [j1|]; simpl in Hj; inversion Hj.
  all: repeat split.
Qed.

(** The statuses of the job through a delivery, whatever the store and
    the collaborators do. *)
Lemma status_path_steps s0 :
  status_in jid (DB env) = Some s0 ->
  exists s1 s2 s3,
    status_path d env = [Some s0; Some s1; Some s2; Some s3]
    /\ s1 = match out_processing d with None => processing | Some _ => s0 end
    /\ (s2 = s1 \/ (s1 = processing /\ s2 = completed))
    /\ (s3 = s2 \/ s3 = failed)
    /\ match fst (process_message d env) with
       | Done Ack => s1 = processing /\ s2 = completed /\ s3 = completed
       | Done Retry =>
           match out_failed d with None => s3 = failed | Some _ => s3 = s2 end
       | Throws _ => False
       end.
Proof.
  intros Hs0. unfold status_in in Hs0.
  destruct (D1.first_job jid (DB env)) as [j0|] eqn:Hj0; [|discriminate].
  simpl in Hs0. inversion Hs0; subst s0. clear Hs0.
  unfold status_path, try_block, process_message, try_catch, bind, mark_processing,
    generate_and_store, generateImage, uploadImage, mark_failed, try_catch, bind,
    run, ret, throw.
  fold jid.
  destruct (out_processing d), (out_failed d), (ai_run d),
    (r2_put d) as [url|upload_msg], (out_completed d), (out_archive d);
    cbn -[status_in D1.update_where_id D1.insert_generation].
  all: try (destruct (D1.insert_generation _ _) as [db3|insert_msg] eqn:E;
            [apply insert_generation_done in E as [_ ->]|];
            cbn -[status_in D1.update_where_id D1.insert_generation]).
  all: unfold status_in; cbn [D1.generation_jobs]; fold jid.
  all: change (D1.first_job jid (D1.mkDb (D1.generation_jobs ?db) ?g))
         with (D1.first_job jid db).
  all: rewrite ?first_job_update_same by reflexivity; rewrite ?Hj0; cbn [option_map].
  all: do 3 eexists; split; [reflexivity|]; cbn [status D1.set_status
         D1.set_status_image_url D1.set_status_error]; auto 10.
Qed.

End OneDelivery.

(** ** The job lifecycle *)

Lemma find_app_some {A} (f : A -> bool) l l' x :
  find f l = Some x -> find f (l ++ l') = Some x.
Proof.
  induction l as [|y l IH]; simpl; [discriminate|].
  destruct (f y); [auto | exact IH].
Qed.

(** A run that hands the consumer no work unit of job [jid] leaves the
    row of [jid] as it is. *)
Lemma row_untouched_without_delivery es env jid j :
  (forall e, In e es -> delivers_to jid e = false) ->
  D1.first_job jid (DB env) = Some j ->
  D1.first_job jid (DB (run_events es env)) = Some j.
Proof.
  intros Hnone.
  apply (run_events_preserves
           (fun a b => D1.first_job jid a = Some j -> D1.first_job jid b = Some j)
           (fun k => k <> jid)); auto.
  - intros k p m t db db' E Hj. apply insert_job_done in E as [_ ->].
    unfold D1.first_job in *; simpl. now apply find_app_some.
  - intros k t db Hk Hj. now rewrite first_job_update_other.
  - intros k url t db Hk Hj. now rewrite first_job_update_other.
  - intros k msg t db Hk Hj. now rewrite first_job_update_other.
  - intros g db db' E Hj. now apply insert_generation_done in E as [_ ->].
  - intros e batch d He -> Hd. specialize (Hnone _ He). simpl in Hnone.
    apply String.eqb_neq. apply not_true_iff_false. intros Heq.
    apply not_true_iff_false in Hnone. apply Hnone.
    apply existsb_exists. now exists d.
Qed.

Lemma code_transition_refl a : code_transition a a = true.
Proof. now destruct a. Qed.

(** One statement on the status of a job that is in the store: the job
    stays, and its status stays or becomes the one the statement sets,
    which is never [pending]. *)
Lemma exec_status w db jid s :
  status_in jid db = Some s ->
  exists s', status_in jid (exec w db) = Some s' /\ (s' = pending -> s = pending).
Proof.
  intros Hs.
  assert (Hupd : forall k f st,
            (forall j, id (f j) = id j) -> (forall j, status (f j) = st) ->
            st <> pending ->
            exists s', status_in jid (D1.update_where_id k f db) = Some s'
                       /\ (s' = pending -> s = pending)).
  { intros k f st Hid Hst Hne. unfold status_in in *.
    destruct (string_dec k jid) as [-> | Hk].
    - rewrite first_job_update_same by exact Hid.
      destruct (D1.first_job jid db) as [j|]; [|discriminate].
      exists st. split; [simpl; now rewrite Hst | intros E; now destruct Hne].
    - rewrite (first_job_update_other jid k f db Hk Hid).
      exists s. split; [exact Hs | auto]. }
  destruct w as [k p m t | k t | k url t | g | k msg t]; cbn [exec].
  - exists s. split; [|auto].
    destruct (D1.insert_job k pending p m t t db) eqn:E; [|exact Hs].
    apply insert_job_done in E as [_ ->]. unfold status_in, D1.first_job in *.
    cbn [D1.generation_jobs].
    destruct (find _ (D1.generation_jobs db)) as [j|] eqn:Ej; [|discriminate].
    now rewrite (find_app_some _ _ _ _ Ej).
  - apply (Hupd k _ processing); [reflexivity | reflexivity | discriminate].
  - apply (Hupd k _ completed); [reflexivity | reflexivity | discriminate].
  - exists s. split; [|auto].
    destruct (D1.insert_generation g db) eqn:E; [|exact Hs].
    now apply insert_generation_done in E as [_ ->].
  - apply (Hupd k _ failed); [reflexivity | reflexivity | discriminate].
Qed.

(** Each UPDATE sets its status on the job it names, whatever the status
    was. *)
Lemma exec_sets_status db jid s t url msg :
  status_in jid db = Some s ->
  status_in jid (exec (W_processing jid t) db) = Some processing
  /\ status_in jid (exec (W_completed jid url t) db) = Some completed
  /\ status_in jid (exec (W_failed jid msg t) db) = Some failed.
Proof.
  unfold status_in. cbn [exec]. intros Hs.
  rewrite !first_job_update_same by reflexivity.
  destruct (D1.first_job jid db); [|discriminate]. repeat split.
Qed.

(** C1, as the code has it. A job's status changes only while one of its
    own work units is being processed: any run of tool calls and of
    deliveries for other jobs leaves it as it is (so a [completed] job
    stays [completed] until its work unit is delivered again). A delivery
    of its work unit, on a store that takes every statement, sets the
    status to [processing] whatever it was ([pending], [failed], and also
    [completed] or [processing] on a duplicate delivery) and leaves it
    [completed] when acknowledged and [failed] when to be retried.
    Whatever the store and the collaborators do, the status moves through
    a delivery by these changes only: to [processing] by step 1 (it stays
    when step 1 is rejected), from [processing] to [completed] by step 4,
    and from whatever it is then to [failed] in the [catch] (it stays when
    that update is rejected); an acknowledged delivery has gone
    [processing], [completed]. And no single statement, hence no
    interleaving of handlers, removes the job or takes a status back to
    [pending], while each of the three UPDATEs sets its status from every
    status. *)
Theorem status_changes_only_within_own_delivery :
  (forall es env jid,
     D1.has_job jid (DB env) = true ->
     (forall e, In e es -> delivers_to jid e = false) ->
     status_in jid (DB (run_events es env)) = status_in jid (DB env))
  /\
  (forall d env,
     let jid := jobId (body d) in
     D1.has_job jid (DB env) = true ->
     store_accepts d ->
     status_in jid (DB (snd (mark_processing d env))) = Some processing
     /\ ((fst (process_message d env) = Done Ack
          /\ status_in jid (DB (snd (process_message d env))) = Some completed)
         \/ (fst (process_message d env) = Done Retry
             /\ status_in jid (DB (snd (process_message d env))) = Some failed)))
  /\
  (forall d env s0,
     status_in (jobId (body d)) (DB env) = Some s0 ->
     exists s1 s2 s3,
       status_path d env = [Some s0; Some s1; Some s2; Some s3]
       /\ s1 = match out_processing d with None => processing | Some _ => s0 end
       /\ (s2 = s1 \/ (s1 = processing /\ s2 = completed))
       /\ (s3 = s2 \/ s3 = failed)
       /\ match fst (process_message d env) with
          | Done Ack => s1 = processing /\ s2 = completed /\ s3 = completed
          | Done Retry =>
              match out_failed d with None => s3 = failed | Some _ => s3 = s2 end
          | Throws _ => False
          end
       /\ code_transition s0 s1 = true
       /\ code_transition s1 s2 = true
       /\ code_transition s2 s3 = true)
  /\
  (forall w db jid s,
     status_in jid db = Some s ->
     exists s', status_in jid (exec w db) = Some s'
                /\ (s' = pending -> s = pending))
  /\
  (forall db jid s t url msg,
     status_in jid db = Some s ->
     status_in jid (exec (W_processing jid t) db) = Some processing
     /\ status_in jid (exec (W_completed jid url t) db) = Some completed
     /\ status_in jid (exec (W_failed jid msg t) db) = Some failed).
Proof.
  split; [|split; [|split; [|split]]].
  - intros es env jid Hjob Hnone.
    apply has_job_first_job in Hjob as [j Hj].
    unfold status_in.
    now rewrite (row_untouched_without_delivery es env jid j Hnone Hj), Hj.
  - intros d env jid Hjob Hacc. now apply delivery_status_path.
  - intros d env s0 Hs0.
    destruct (status_path_steps d env s0 Hs0)
      as [s1 [s2 [s3 [Hpath [H1 [H2 [H3 Hend]]]]]]].
    exists s1, s2, s3. repeat (split; [assumption|]). split; [|split].
    + rewrite H1. destruct (out_processing d); [apply code_transition_refl | reflexivity].
    + destruct H2 as [-> | [-> ->]]; [apply code_transition_refl | reflexivity].
    + destruct H3 as [-> | ->]; [apply code_transition_refl | reflexivity].
  - exact exec_status.
  - exact exec_sets_status.
Qed.

(** C2, as the code has it. Generation records are created by the consumer
    alone, one per acknowledged delivery: a delivery that is acknowledged
    has appended exactly one record, for its job, with the URL it has just
    stored in the job row together with [completed] and the time of the
    record as [updated_at]; the job then has one record more than before,
    so one when it had none, and one more again when the same work unit
    is delivered and acknowledged again (nothing looks at the status or at
    the records already there). A delivery that is to be retried, and
    every tool call, leave the archive as it is, and a delivery adds no
    record for another job. *)
Theorem generation_record_per_acknowledged_delivery :
  (forall d env,
     let jid := jobId (body d) in
     let env' := snd (process_message d env) in
     match fst (process_message d env) with
     | Done Ack =>
         exists url j,
           let record := mkGeneration (generation_id d) jid url (m_prompt (body d))
                                      (m_model (body d)) (t_now d) in
           r2_put d = Done url
           /\ D1.generations (DB env') = D1.generations (DB env) ++ [record]
           /\ records_of jid (DB env') = records_of jid (DB env) ++ [record]
           /\ (forall other, other <> jid ->
                 records_of other (DB env') = records_of other (DB env))
           /\ D1.first_job jid (DB env') = Some j
           /\ status j = completed /\ image_url j = Some url
           /\ updated_at j = t_now d
     | Done Retry => D1.generations (DB env') = D1.generations (DB env)
     | Throws _ => False
     end)
  /\
  (forall name args o fuel env r env',
     callImageTool name args o fuel env = Some (r, env') ->
     D1.generations (DB env') = D1.generations (DB env)).
Proof.
  split.
  - intros d env jid env'. pose proof (delivery_archive d env) as H.
    fold jid env' in H.
    destruct (fst (process_message d env)) as [[|]|]; [|exact H|exact H].
    destruct H as [url [j [Hput [Hgens [Hj [Hs [Hurl Ht]]]]]]].
    exists url, j. cbv zeta. split; [exact Hput|]. split; [exact Hgens|].
    split; [|split; [|repeat split; assumption]].
    + unfold records_of. rewrite Hgens, filter_app. cbn [filter g_job_id].
      now rewrite String.eqb_refl.
    + intros other Hother. unfold records_of. rewrite Hgens, filter_app.
      cbn [filter g_job_id]. apply String.eqb_neq in Hother.
      rewrite String.eqb_sym, Hother. apply app_nil_r.
  - intros name args o fuel env r env' Hcall.
    refine (callImageTool_preserves
              (fun a b => D1.generations b = D1.generations a)
              (fun db => eq_refl) _ _ name args o fuel env r env' Hcall).
    + intros a b c Hab Hbc. congruence.
    + intros jid p m t db db' E. now apply insert_job_done in E as [_ ->].
Qed.

(** ** The properties on the small history *)

Import Scenario.

Ltac distinct_strings :=
  repeat (constructor; [simpl; intuition discriminate|]); constructor.

Ltac accepts_all := intros k Hk; split; reflexivity.

(** C1 fails as stated: job-a is [completed]; its work unit is delivered
    again; the first statement of the consumer makes it [processing], a
    change the specification excludes, and the failing model call leaves
    it [failed]. *)
Lemma completed_job_reenters_processing :
  status_in "job-a" (DB job_a_completed) = Some completed
  /\ status_in "job-a"
       (DB (snd (mark_processing duplicate_delivery_failing job_a_completed)))
     = Some processing
  /\ spec_transition completed processing = false
  /\ status_in "job-a"
       (DB (step job_a_completed (QueueBatch [duplicate_delivery_failing])))
     = Some failed.
Proof. repeat split; vm_compute; reflexivity. Qed.

Lemma status_changes_only_within_own_delivery_witness :
  status_in "job-a"
    (DB (run_events [QueueBatch [failing_delivery_b];
                     ToolCall "generate_image" one_apple caller 0]
                    job_a_completed))
  = status_in "job-a" (DB job_a_completed)
  /\ status_in "job-a"
       (DB (snd (mark_processing duplicate_delivery job_a_completed)))
     = Some processing
  /\ status_path first_delivery_step_1_rejected created
     = [Some pending; Some pending; Some pending; Some failed]
  /\ status_path duplicate_delivery_same_record job_a_completed
     = [Some completed; Some processing; Some completed; Some failed]
  /\ status_in "job-a"
       (exec (W_completed "job-a" "https://r2.dev/2.png" 6000)
          (DB (step job_a_completed (QueueBatch [duplicate_delivery_failing]))))
     = Some completed.
Proof.
  destruct status_changes_only_within_own_delivery
    as [Hframe [Hpath [Hsteps [Hwrite _]]]].
  split; [|split; [|split; [|split]]].
  - apply Hframe; [reflexivity|].
    intros e [<- | [<- | []]]; reflexivity.
  - apply (Hpath duplicate_delivery job_a_completed); [reflexivity|].
    repeat split.
  - destruct (Hsteps first_delivery_step_1_rejected created pending eq_refl)
      as [s1 [s2 [s3 [Hp _]]]].
    rewrite Hp. vm_compute in Hp. inversion Hp. reflexivity.
  - destruct (Hsteps duplicate_delivery_same_record job_a_completed completed eq_refl)
      as [s1 [s2 [s3 [Hp _]]]].
    rewrite Hp. vm_compute in Hp. inversion Hp. reflexivity.
  - destruct (Hwrite (W_completed "job-a" "https://r2.dev/2.png" 6000)
                (DB (step job_a_completed (QueueBatch [duplicate_delivery_failing])))
                "job-a" failed eq_refl) as [s' [Hs' _]].
    rewrite Hs'. vm_compute in Hs'. inversion Hs'. reflexivity.
Defined.

(** C2 fails as stated: job-a is [completed] with its one record; the
    same work unit is processed a second time; the archive now holds two
    records for job-a. *)
Lemma duplicate_delivery_appends_second_record :
  status_in "job-a" (DB job_a_completed) = Some completed
  /\ List.length (records_of "job-a" (DB job_a_completed)) = 1%nat
  /\ List.length
       (records_of "job-a"
          (DB (step job_a_completed (QueueBatch [duplicate_delivery]))))
     = 2%nat
  /\ D1.generations (DB (step job_a_completed (QueueBatch [duplicate_delivery])))
     <> D1.generations (DB job_a_completed).
Proof.
  repeat split; try (vm_compute; reflexivity).
  vm_compute. discriminate.
Qed.

Lemma generation_record_per_acknowledged_delivery_witness :
  (records_of "job-a" (DB created) = []
   /\ records_of "job-a" (DB (snd (process_message first_delivery created)))
      = [mkGeneration "gen-1" "job-a" "https://r2.dev/1.png" "a red apple"
                      flux_schnell 3000])
  /\ records_of "job-a" (DB (snd (process_message duplicate_delivery job_a_completed)))
     = records_of "job-a" (DB job_a_completed)
       ++ [mkGeneration "gen-2" "job-a" "https://r2.dev/2.png" "a red apple"
                        flux_schnell 6000]
  /\ D1.generations
       (DB (snd (process_message duplicate_delivery_failing job_a_completed)))
     = D1.generations (DB job_a_completed)
  /\ D1.generations (DB created) = D1.generations (DB initial).
Proof.
  destruct generation_record_per_acknowledged_delivery as [Hdelivery Htools].
  split; [split; [reflexivity|] | split; [|split]].
  - pose proof (Hdelivery first_delivery created) as H.
    change (fst (process_message first_delivery created)) with (Done (A:=Disposition) Ack) in H.
    cbv zeta iota in H. destruct H as [url [j [Hput [_ [Hrecs _]]]]].
    cbv in Hput. inversion Hput; subst url. exact Hrecs.
  - pose proof (Hdelivery duplicate_delivery job_a_completed) as H.
    change (fst (process_message duplicate_delivery job_a_completed))
      with (Done (A:=Disposition) Ack) in H.
    cbv zeta iota in H. destruct H as [url [j [Hput [_ [Hrecs _]]]]].
    cbv in Hput. inversion Hput; subst url. exact Hrecs.
  - exact (Hdelivery duplicate_delivery_failing job_a_completed).
  - apply (Htools "generate_image" one_apple caller 0%nat initial
             (mkResult (GenerateStarted "job-a" "a red apple" flux_schnell) false)
             created).
    reflexivity.
Defined.

(** C3 fails as stated: after the failing re-delivery job-a is [failed]
    and still has the result reference of its earlier success. *)
Lemma failed_job_keeps_image_url :
  let env := step job_a_completed (QueueBatch [duplicate_delivery_failing]) in
  ~ (forall j, In j (D1.generation_jobs (DB env)) ->
       (image_url j <> None <-> status j = completed)
       /\ (error j <> None <-> status j = failed)).
Proof.
  intros env Hclaim.
  destruct (Hclaim (mkJob "job-a" failed "a red apple" flux_schnell
                          (Some "https://r2.dev/1.png")
                          (Some "Image generation failed: capacity exceeded")
                          1000 7000)) as [[Hurl _] _].
  - vm_compute. left. reflexivity.
  - simpl in Hurl. discriminate Hurl. discriminate.
Qed.

Lemma job_fields_follow_status_witness :
  row_consistent (mkJob "job-a" completed "a red apple" flux_schnell
                        (Some "https://r2.dev/1.png") None 1000 3000).
Proof.
  destruct job_fields_follow_status as [Hreach _].
  apply (Hreach (exec (W_completed "job-a" "https://r2.dev/1.png" 3000)
                   (exec (W_processing "job-a" 2000)
                      (exec (W_insert_job "job-a" "a red apple" flux_schnell 1000)
                         D1.empty)))).
  - repeat apply reach_write. apply reach_empty.
  - vm_compute. left. reflexivity.
Defined.

(** C4 fails as stated, twice over. job-a stays [pending] and every store
    query takes 145 ms: the last poll starts at 62900 ms, before the
    deadline of 63000 ms, and the timeout comes back at 66045 ms, more
    than one poll interval late. And with job-a [failed] and job-b
    [pending] for good, the named jobs never all reach a terminal state,
    yet the call returns the failure at once and no timeout. *)
Lemma wait_timeout_later_or_never :
  (timer_ok (waiter 145)
   /\ (forall k, keeps_waiting ["job-a"] (poll_sees (waiter 145) k (DB created)))
   /\ wait_for_completion (wait_for "job-a") (waiter 145) 100 created
      = Some (mkWaited (mkResult (WaitTimeout 63) true) 66045 21)
   /\ MAX_WAIT ["job-a"] + POLL_INTERVAL < 66045)
  /\
  (status_in "job-b" (DB one_failed_two_pending) = Some pending
   /\ wait_for_completion (wait_for_all ["job-a"; "job-b"])
        (waiter 0) 100 one_failed_two_pending
      = Some (mkWaited
                (mkResult
                   (WaitFailedMany 1
                      [("job-a", Some "Image generation failed: capacity exceeded")]
                      [])
                   true)
                0 0)).
Proof.
  split; [split; [|split; [|split]] | split]; try (vm_compute; reflexivity).
  - intros k. simpl. unfold POLL_INTERVAL. lia.
  - intros k. unfold keeps_waiting. simpl. split; [reflexivity|]. split.
    + intros j [<- | []]. discriminate.
    + eexists. split; [left; reflexivity | left; reflexivity].
Qed.

Lemma wait_timeout_window_witness :
  exists w,
    wait_for_completion (wait_for "job-a") (waiter 0) 30 created = Some w
    /\ result w = mkResult (WaitTimeout 63) true
    /\ elapsed_ms w = 63000.
Proof.
  destruct (wait_timeout_window (wait_for "job-a") (Zod.Single "job-a")
              (waiter 0) 30 created eq_refl)
    as [_ [_ [w [last [Hw [Hr [_ [_ [_ Hideal]]]]]]]]].
  - intros k. simpl. unfold POLL_INTERVAL. lia.
  - intros k. unfold keeps_waiting. simpl. split; [reflexivity|]. split.
    + intros j [<- | []]. discriminate.
    + eexists. split; [left; reflexivity | left; reflexivity].
  - simpl. lia.
  - exists w. split; [exact Hw|]. split; [exact Hr|].
    destruct Hideal as [He _]; [|exact He].
    intros k. split; reflexivity.
Defined.

Lemma wait_fails_fast_on_missing_witness :
  wait_for_completion (wait_for_all ["job-a"; "job-zz"]) (waiter 145) 100 created
  = Some (mkWaited (mkResult JobsNotFound true) 145 0).
Proof.
  apply (wait_fails_fast_on_missing (wait_for_all ["job-a"; "job-zz"])
           (Zod.Multiple ["job-a"; "job-zz"]) (waiter 145) 100 created).
  - reflexivity.
  - lia.
  - unfold primary_key. simpl. distinct_strings.
  - exists "job-zz". split; [simpl; auto | reflexivity].
Defined.

Lemma wait_duplicate_ids_not_found_witness :
  callImageTool "wait_for_completion" (wait_for_all ["job-a"; "job-a"])
    (waiter 0) 100 created
  = Some (mkResult JobsNotFound true, created).
Proof.
  apply (wait_duplicate_ids_not_found (wait_for_all ["job-a"; "job-a"])
           [] [] [] "job-a" (waiter 0) 100 created).
  - reflexivity.
  - lia.
  - unfold primary_key. simpl. distinct_strings.
  - intros x [<- | [<- | []]]; reflexivity.
Defined.

(** C6 fails as stated: an offset of 10^21 passes the schema, which
    bounds [offset] from below only; the store cannot bind it as a 64-bit
    integer and rejects the query, and the call returns the failure
    envelope where the claim promises a page with [returned_count] 0. *)
Lemma listing_rejects_offset_beyond_int64 :
  Zod.ListJobsSchema (JObj [("offset", JNum (Int (10 ^ 21)))])
  = Zod.Parsed (Zod.mkListJobs None 10 (10 ^ 21))
  /\ callImageTool "list_jobs" (JObj [("offset", JNum (Int (10 ^ 21)))]) caller 0
       created_three
     = Some (mkResult (Failure "D1_ERROR: datatype mismatch: SQLITE_MISMATCH") true,
             created_three)
  /\ Zod.ListGenerationsSchema (JObj [("offset", JNum (Int (10 ^ 21)))])
     = Zod.Parsed (Zod.mkListGenerations 10 (10 ^ 21))
  /\ callImageTool "list_generations" (JObj [("offset", JNum (Int (10 ^ 21)))])
       caller 0 job_a_completed
     = Some (mkResult (Failure "D1_ERROR: datatype mismatch: SQLITE_MISMATCH") true,
             job_a_completed).
Proof. repeat split; vm_compute; reflexivity. Qed.

Lemma list_pagination_consistent_witness :
  (exists total returned rows,
     callImageTool "list_jobs"
       (JObj [("limit", JNum (Int 2)); ("offset", JNum (Int 2))]) caller 0
       created_three
     = Some (mkResult (JobsPage None total returned (2 + returned <? total) 2 2 rows)
                      false, created_three)
     /\ returned = Z.min 2 (Z.max 0 (total - 2)))
  /\
  (exists total returned rows,
     callImageTool "list_generations" (JObj []) caller 0 job_a_completed
     = Some (mkResult (GenerationsPage total returned (0 + returned <? total) 10 0 rows)
                      false, job_a_completed)
     /\ returned = Z.min 10 (Z.max 0 (total - 0)))
  /\
  (exists msg,
     callImageTool "list_jobs" (JObj [("offset", JNum (Int (2 ^ 63)))]) caller 0
       created_three
     = Some (mkResult (Failure msg) true, created_three)).
Proof.
  destruct (list_pagination_consistent caller 0 created_three)
    as [Hjobs [_ [Hjobs_far _]]].
  destruct (list_pagination_consistent caller 0 job_a_completed)
    as [_ [Hgens _]].
  split; [|split].
  - destruct (Hjobs (JObj [("limit", JNum (Int 2)); ("offset", JNum (Int 2))])
                (Zod.mkListJobs None 2 2) eq_refl eq_refl)
      as [total [returned [rows [Hcall [_ [_ [Hret _]]]]]]].
    exists total, returned, rows. split; [exact Hcall | exact Hret].
  - destruct (Hgens (JObj []) (Zod.mkListGenerations 10 0) eq_refl eq_refl)
      as [total [returned [rows [Hcall [_ [_ [Hret _]]]]]]].
    exists total, returned, rows. split; [exact Hcall | exact Hret].
  - apply (Hjobs_far (JObj [("offset", JNum (Int (2 ^ 63)))])
             (Zod.mkListJobs None 10 (2 ^ 63)) eq_refl).
    simpl. lia.
Defined.

Lemma generate_image_creates_jobs_witness :
  callImageTool "generate_image" three_apples caller 0 initial
  = Some (mkResult
            (GenerateStartedMany ["job-a"; "job-b"; "job-c"] 3 "a red apple"
                                 flux_schnell) false,
          created_three).
Proof.
  destruct (generate_image_creates_jobs three_apples three_apples_params caller 0
              initial eq_refl) as [_ [Hcall _]].
  - accepts_all.
  - split; [simpl; distinct_strings | reflexivity].
  - exact Hcall.
Defined.

Lemma generate_image_malformed_no_mutation_witness :
  exists msg,
    callImageTool "generate_image" (JObj empty_prompt) caller 0 created
    = Some (mkResult (Failure msg) true, created).
Proof.
  apply (generate_image_malformed_no_mutation empty_prompt caller 0 created).
  left. exists ""%string. split; [reflexivity | left; reflexivity].
Defined.

Lemma generate_image_not_atomic_witness :
  exists orphan r env',
    callImageTool "generate_image" three_apples caller_queue_down 0 initial
    = Some (r, env')
    /\ r = mkResult (Failure "Queue send failed") true
    /\ response_job_ids r = []
    /\ D1.generation_jobs (DB env')
       = D1.generation_jobs (DB initial)
         ++ map (new_job_row caller_queue_down three_apples_params) (seq 0 1)
         ++ orphan
    /\ IMAGE_QUEUE env'
       = IMAGE_QUEUE initial
         ++ map (work_unit caller_queue_down three_apples_params) (seq 0 1)
    /\ (insert_outage caller_queue_down 1 = Some "Queue send failed" -> orphan = [])
    /\ (insert_outage caller_queue_down 1 = None ->
        orphan = [new_job_row caller_queue_down three_apples_params 1]).
Proof.
  apply (generate_image_not_atomic three_apples three_apples_params
           caller_queue_down 0 initial 1 "Queue send failed" eq_refl).
  - simpl. lia.
  - intros k Hk. assert (k = 0%nat) as -> by lia. split; reflexivity.
  - split; [simpl; distinct_strings | reflexivity].
  - right. split; reflexivity.
Defined.

(** * Further properties of the handlers *)

(** ** What [GenerateImageSchema] accepts *)

Lemma model_enum_accepts v m :
  Zod.optional_default Zod.model_enum flux_schnell v "model" = Zod.Parsed m <->
  (v = None /\ m = flux_schnell) \/ v = Some (JStr (model_name m)).
Proof.
  unfold Zod.optional_default, Zod.model_enum. split.
  - destruct v as [[| | | s | |]|]; try discriminate.
    + destruct (String.eqb s "flux-schnell") eqn:E1.
      { apply String.eqb_eq in E1. intros H; inversion H; subst. now right. }
      destruct (String.eqb s "sdxl-lightning") eqn:E2.
      { apply String.eqb_eq in E2. intros H; inversion H; subst. now right. }
      destruct (String.eqb s "sdxl-base") eqn:E3; [|discriminate].
      apply String.eqb_eq in E3. intros H; inversion H; subst. now right.
    + intros H; inversion H. now left.
  - intros [[-> ->] | ->]; [reflexivity|]. now destruct m.
Qed.

Lemma count_accepts v c :
  Zod.optional_default (Zod.int_min_max 1 20) 1 v "count" = Zod.Parsed c <->
  (v = None /\ c = 1) \/ (v = Some (JNum (Int c)) /\ 1 <= c <= 20).
Proof.
  unfold Zod.optional_default, Zod.int_min_max. split.
  - destruct v as [[| | [z|] | | |]|]; try discriminate.
    + destruct (1 <=? z) eqn:E1; destruct (z <=? 20) eqn:E2; simpl; try discriminate.
      intros H; inversion H; subst. apply Z.leb_le in E1, E2. right. split; [reflexivity | lia].
    + intros H; inversion H. now left.
  - intros [[-> ->] | [-> Hc]]; [reflexivity|].
    replace (1 <=? c) with true by (symmetry; apply Z.leb_le; lia).
    replace (c <=? 20) with true by (symmetry; apply Z.leb_le; lia).
    reflexivity.
Qed.

Lemma prompt_accepts_with too_short too_long v p :
  Zod.string_min_max_with 3 1000 too_short too_long v "prompt" = Zod.Parsed p <->
  v = Some (JStr p) /\ (3 <= String.length p <= 1000)%nat.
Proof.
  unfold Zod.string_min_max_with. split.
  - destruct v as [[| | | s | |]|]; try discriminate.
    destruct (3 <=? String.length s)%nat eqn:E1;
      destruct (String.length s <=? 1000)%nat eqn:E2; cbn [andb]; try discriminate.
    intros H; inversion H; subst. apply Nat.leb_le in E1, E2. split; [reflexivity | lia].
  - intros [-> Hlen].
    replace (3 <=? String.length p)%nat with true by (symmetry; apply Nat.leb_le; lia).
    replace (String.length p <=? 1000)%nat with true by (symmetry; apply Nat.leb_le; lia).
    reflexivity.
Qed.

Lemma prompt_accepts v p :
  Zod.string_min_max 3 1000 v "prompt" = Zod.Parsed p <->
  v = Some (JStr p) /\ (3 <= String.length p <= 1000)%nat.
Proof. apply prompt_accepts_with. Qed.

(** X1. [GenerateImageSchema] accepts an argument object exactly when
    [prompt] is a string of 3 to 1000 characters, [model] is absent (then
    ['flux-schnell']) or one of the three names, and [count] is absent
    (then 1) or an integer from 1 to 20; keys it does not know are
    ignored, and what is not an object is rejected. *)
Theorem GenerateImageSchema_accepts_exactly :
  (forall fs p m c,
     Zod.GenerateImageSchema (JObj fs) = Zod.Parsed (Zod.mkGenerateImage p m c) <->
     (Zod.lookup "prompt" fs = Some (JStr p)
      /\ (3 <= String.length p <= 1000)%nat)
     /\ ((Zod.lookup "model" fs = None /\ m = flux_schnell)
         \/ Zod.lookup "model" fs = Some (JStr (model_name m)))
     /\ ((Zod.lookup "count" fs = None /\ c = 1)
         \/ (Zod.lookup "count" fs = Some (JNum (Int c)) /\ 1 <= c <= 20)))
  /\ (forall args params,
        Zod.GenerateImageSchema args = Zod.Parsed params ->
        exists fs, args = JObj fs).
Proof.
  split.
  - intros fs p m c. rewrite <- prompt_accepts, <- model_enum_accepts, <- count_accepts.
    unfold Zod.GenerateImageSchema.
    destruct (Zod.string_min_max 3 1000 _ _) as [p'|];
      destruct (Zod.optional_default Zod.model_enum _ _ _) as [m'|];
      destruct (Zod.optional_default (Zod.int_min_max 1 20) _ _ _) as [c'|];
      split; try discriminate;
      try (intros [H1 [H2 H3]]; discriminate).
    + intros H; inversion H; subst. auto.
    + intros [H1 [H2 H3]]. inversion H1; inversion H2; inversion H3. reflexivity.
  - intros args params. destruct args; try discriminate. intros _. now eexists.
Qed.

(** ** Looking a job up *)

Lemma find_app_none {A} (f : A -> bool) l l' :
  find f l = None -> find f (l ++ l') = find f l'.
Proof.
  induction l as [|y l IH]; simpl; [reflexivity|].
  destruct (f y); [discriminate | exact IH].
Qed.

Lemma find_first_match {A} (f : A -> bool) l x :
  In x l -> f x = true -> exists y, find f l = Some y.
Proof.
  induction l as [|z l IH]; simpl; [intros []|].
  intros [-> | Hin] Hx.
  - rewrite Hx. now eexists.
  - destruct (f z); [now eexists | now apply IH].
Qed.

Lemma has_job_false_first_job jid db :
  D1.has_job jid db = false -> D1.first_job jid db = None.
Proof.
  intros Hno. destruct (D1.first_job jid db) as [j|] eqn:E; [|reflexivity].
  apply first_job_has_job in E. congruence.
Qed.

Lemma first_job_row jid db j :
  D1.first_job jid db = Some j -> In j (D1.generation_jobs db) /\ id j = jid.
Proof.
  unfold D1.first_job. intros Hfind. apply find_some in Hfind as [Hin Heq].
  split; [exact Hin | now apply String.eqb_eq].
Qed.

Lemma GetJobStatusSchema_job_id jid :
  jid <> "" ->
  Zod.GetJobStatusSchema (JObj [("job_id", JStr jid)]) = Zod.Parsed jid.
Proof.
  intros Hne. unfold Zod.GetJobStatusSchema; simpl.
  destruct jid; [congruence | reflexivity].
Qed.

Lemma get_job_status_call args job_id (o : Oracle) (fuel : nat) (env : Env) :
  Zod.GetJobStatusSchema args = Zod.Parsed job_id ->
  callImageTool "get_job_status" args o fuel env
  = Some (match D1.first_job job_id (DB env) with
          | Some j => mkResult (JobStatusOf j) false
          | None => mkResult (JobNotFound job_id) true
          end, env).
Proof.
  intros Hparse. unfold callImageTool; simpl.
  unfold catch_all, get_job_status. rewrite Hparse.
  now destruct (D1.first_job job_id (DB env)).
Qed.

(** X2. Create, then look up. After a [generate_image] call that the
    schema accepts, on a store and queue that accept every call and with
    fresh identifiers, [get_job_status] on each identifier the response
    carries (none of them empty) returns that job: [pending], with the
    prompt and model of the call, no result, no error, and both
    timestamps the time of the call. *)
Theorem created_job_is_found_pending args params (o : Oracle) (fuel : nat) (env : Env) :
  Zod.GenerateImageSchema args = Zod.Parsed params ->
  no_outage_before o (Z.to_nat (Zod.gi_count params)) ->
  fresh_ids o (Z.to_nat (Zod.gi_count params)) (DB env) ->
  exists r env',
    callImageTool "generate_image" args o fuel env = Some (r, env')
    /\ isError r = false
    /\ List.length (response_job_ids r) = Z.to_nat (Zod.gi_count params)
    /\ forall jid o' fuel',
         In jid (response_job_ids r) -> jid <> "" ->
         callImageTool "get_job_status" (JObj [("job_id", JStr jid)]) o' fuel' env'
         = Some (mkResult
                   (JobStatusOf (mkJob jid pending (Zod.gi_prompt params)
                                       (Zod.gi_model params) None None (now o) (now o)))
                   false, env').
Proof.
  intros Hparse Hup [Hnd Hfresh].
  set (n := Z.to_nat (Zod.gi_count params)) in *.
  set (env' := mkEnv (D1.mkDb (D1.generation_jobs (DB env)
                                 ++ map (new_job_row o params) (seq 0 n))
                              (D1.generations (DB env)))
                     (IMAGE_QUEUE env ++ map (work_unit o params) (seq 0 n))).
  pose proof (GenerateImageSchema_bounds _ _ Hparse) as Hc.
  assert (Hcall : exists r,
            callImageTool "generate_image" args o fuel env = Some (r, env')
            /\ isError r = false
            /\ response_job_ids r = map (randomUUID o) (seq 0 n)).
  { unfold callImageTool; simpl. unfold catch_all, generate_image.
    rewrite Hparse. unfold bind. fold n.
    rewrite create_jobs_ok;
      [ | intros k Hk; apply Hup; lia | exact Hnd | intros k Hk; apply Hfresh; lia ].
    simpl. fold env'.
    destruct (Zod.gi_count params =? 1) eqn:E; eexists; split; try reflexivity.
    - split; [reflexivity|]. apply Z.eqb_eq in E. unfold response_job_ids; simpl.
      subst n. rewrite E. reflexivity.
    - split; reflexivity. }
  destruct Hcall as [r [Hcall [Hok Hids]]].
  exists r, env'. split; [exact Hcall|]. split; [exact Hok|]. split.
  { now rewrite Hids, length_map, length_seq. }
  intros jid o' fuel' Hin Hne. rewrite Hids in Hin.
  rewrite (get_job_status_call _ jid) by now apply GetJobStatusSchema_job_id.
  apply in_map_iff in Hin as [k [Hk Hkn]]. apply in_seq in Hkn.
  assert (Hold : find (fun j => String.eqb (id j) jid) (D1.generation_jobs (DB env)) = None).
  { apply (has_job_false_first_job jid (DB env)). rewrite <- Hk. apply Hfresh. lia. }
  unfold D1.first_job, env'; simpl. rewrite (find_app_none _ _ _ Hold).
  destruct (find_first_match (fun j => String.eqb (id j) jid)
              (map (new_job_row o params) (seq 0 n)) (new_job_row o params k))
    as [j Hj].
  { apply in_map, in_seq. lia. }
  { simpl. rewrite Hk. apply String.eqb_refl. }
  rewrite Hj. apply find_some in Hj as [Hjin Hjid].
  apply in_map_iff in Hjin as [k' [<- _]]. simpl in Hjid.
  apply String.eqb_eq in Hjid. unfold new_job_row. now rewrite Hjid.
Qed.

(** X3. [get_job_status] reports what the store holds and changes
    nothing: for an identifier with no row it answers 'Job not found'
    with [isError]; for an identifier with a row it answers with a row of
    the store that has this identifier; for arguments its schema rejects
    (no [job_id], an empty one, not a string) it answers with the failure
    envelope. *)
Theorem get_job_status_answers args (o : Oracle) (fuel : nat) (env : Env) :
  (forall job_id,
     Zod.GetJobStatusSchema args = Zod.Parsed job_id ->
     job_id <> ""
     /\ (D1.has_job job_id (DB env) = false ->
         callImageTool "get_job_status" args o fuel env
         = Some (mkResult (JobNotFound job_id) true, env))
     /\ (D1.has_job job_id (DB env) = true ->
         exists j,
           callImageTool "get_job_status" args o fuel env
           = Some (mkResult (JobStatusOf j) false, env)
           /\ In j (D1.generation_jobs (DB env)) /\ id j = job_id))
  /\ (forall issues,
        Zod.GetJobStatusSchema args = Zod.ZodError issues ->
        callImageTool "get_job_status" args o fuel env
        = Some (mkResult (Failure (Zod.message issues)) true, env)).
Proof.
  split.
  - intros job_id Hparse. split; [|split].
    + unfold Zod.GetJobStatusSchema in Hparse. destruct args; try discriminate.
      destruct (Zod.lookup "job_id" fields) as [[| | | s | |]|]; try discriminate.
      destruct s; simpl in Hparse; [discriminate|].
      inversion Hparse. discriminate.
    + intros Hno. rewrite (get_job_status_call _ _ _ _ _ Hparse).
      now rewrite (has_job_false_first_job _ _ Hno).
    + intros Hyes. rewrite (get_job_status_call _ _ _ _ _ Hparse).
      apply has_job_first_job in Hyes as [j Hj]. rewrite Hj.
      exists j. split; [reflexivity|]. now apply first_job_row.
  - intros issues Hparse. unfold callImageTool; simpl.
    unfold catch_all, get_job_status. now rewrite Hparse.
Qed.

(** ** Walking the pages of a listing *)

Section Pages.

Lemma ListJobsSchema_given filter_by limit offset :
  1 <= limit <= 50 -> 0 <= offset ->
  Zod.ListJobsSchema (list_jobs_args filter_by limit offset)
  = Zod.Parsed (Zod.mkListJobs filter_by limit offset).
Proof.
  intros Hl Ho. unfold Zod.ListJobsSchema, list_jobs_args.
  assert (Es : Zod.optional_default Zod.status_filter_enum None
                 (Zod.lookup "status"
                    [("status", JStr (match filter_by with
                                      | None => "all"
                                      | Some s =>
                                          match s with
                                          | pending => "pending"
                                          | processing => "processing"
                                          | completed => "completed"
                                          | failed => "failed"
                                          end
                                      end));
                     ("limit", JNum (Int limit)); ("offset", JNum (Int offset))])
                 "status" = Zod.Parsed filter_by).
  { destruct filter_by as [[]|]; reflexivity. }
  rewrite Es. simpl.
  replace (1 <=? limit) with true by (symmetry; apply Z.leb_le; lia).
  replace (limit <=? 50) with true by (symmetry; apply Z.leb_le; lia).
  replace (0 <=? offset) with true by (symmetry; apply Z.leb_le; lia).
  reflexivity.
Qed.

Lemma firstn_then_next {A} (a b : nat) : forall l : list A,
  firstn a l ++ firstn b (skipn a l) = firstn (a + b) l.
Proof.
  induction a as [|a IH]; intros l; [reflexivity|].
  destruct l as [|x l]; simpl.
  - now rewrite firstn_nil.
  - now rewrite IH.
Qed.

Lemma pages_concat {A} (n : nat) (l : list A) (k : nat) :
  List.concat (map (fun i => firstn n (skipn (i * n) l)) (seq 0 k)) = firstn (k * n) l.
Proof.
  induction k as [|k IH]; [reflexivity|].
  rewrite seq_S, map_app, List.concat_app, IH. simpl.
  rewrite app_nil_r, firstn_then_next. f_equal. lia.
Qed.

Lemma insert_desc_perm {A} (key : A -> Z) x l :
  Permutation (D1.insert_desc key x l) (x :: l).
Proof.
  induction l as [|y l IH]; simpl; [reflexivity|].
  destruct (key x <? key y); [|reflexivity].
  rewrite IH. apply perm_swap.
Qed.

Lemma order_by_desc_perm {A} (key : A -> Z) l :
  Permutation (D1.order_by_desc key l) l.
Proof.
  induction l as [|x l IH]; simpl; [reflexivity|].
  rewrite insert_desc_perm. now constructor.
Qed.

Lemma list_jobs_page filter_by limit offset (o : Oracle) (fuel : nat) (env : Env) :
  1 <= limit <= 50 -> 0 <= offset ->
  let listing :=
    D1.order_by_desc created_at
      (D1.where_status filter_by (D1.generation_jobs (DB env))) in
  D1.count listing < 2 ^ 63 ->
  jobs_of_response
    (callImageTool "list_jobs" (list_jobs_args filter_by limit offset) o fuel env)
  = firstn (Z.to_nat limit) (skipn (Z.to_nat offset) listing).
Proof.
  intros Hl Ho listing Hrows. unfold callImageTool.
  change (String.eqb "list_jobs" "generate_image") with false.
  change (String.eqb "list_jobs" "get_job_status") with false.
  change (String.eqb "list_jobs" "list_generations") with false.
  change (String.eqb "list_jobs" "list_jobs") with true.
  cbv iota. unfold catch_all, list_jobs.
  rewrite (ListJobsSchema_given filter_by limit offset Hl Ho).
  cbn [Zod.lj_status Zod.lj_limit Zod.lj_offset]. fold listing.
  unfold D1.limit_offset, D1.is_int64.
  replace (- 2 ^ 63 <=? limit) with true by (symmetry; apply Z.leb_le; lia).
  replace (limit <? 2 ^ 63) with true by (symmetry; apply Z.ltb_lt; lia).
  replace (- 2 ^ 63 <=? offset) with true by (symmetry; apply Z.leb_le; lia).
  cbn [andb].
  destruct (offset <? 2 ^ 63) eqn:E; [reflexivity|].
  apply Z.ltb_ge in E. cbn [jobs_of_response].
  rewrite skipn_all2; [now rewrite firstn_nil|].
  unfold D1.count in Hrows. lia.
Qed.

(** X4. Walking [list_jobs] from offset 0 in steps of [limit] over one
    store state (a table of fewer than 2^63 rows, as every SQLite table
    is) never repeats or skips a job: the first [k] pages, put end to
    end, are the first [k * limit] jobs of the listing, and once
    [k * limit] reaches the total they are exactly the jobs that match the
    filter, each one once. *)
Theorem list_jobs_pages_cover filter_by limit (k : nat) (o : Oracle) (fuel : nat)
    (env : Env) :
  1 <= limit <= 50 ->
  let page i :=
    jobs_of_response
      (callImageTool "list_jobs"
         (list_jobs_args filter_by limit (Z.of_nat i * limit)) o fuel env) in
  let matching := D1.where_status filter_by (D1.generation_jobs (DB env)) in
  D1.count matching < 2 ^ 63 ->
  List.concat (map page (seq 0 k))
  = firstn (k * Z.to_nat limit) (D1.order_by_desc created_at matching)
  /\ (D1.count matching <= Z.of_nat k * limit ->
      Permutation (List.concat (map page (seq 0 k))) matching).
Proof.
  intros Hl page matching Hrows.
  assert (Hpages : List.concat (map page (seq 0 k))
                   = firstn (k * Z.to_nat limit) (D1.order_by_desc created_at matching)).
  { rewrite <- pages_concat. f_equal. apply map_ext. intros i.
    unfold page. rewrite list_jobs_page; try lia.
    - fold matching. now rewrite Z2Nat.inj_mul, Nat2Z.id by lia.
    - fold matching. unfold D1.count in *. now rewrite order_by_desc_length. }
  split; [exact Hpages|].
  intros Hall. rewrite Hpages, firstn_all2.
  - apply order_by_desc_perm.
  - rewrite order_by_desc_length. unfold D1.count in Hall. nia.
Qed.

End Pages.

(** ** What a poll answers *)

Section Polls.

Lemma filter_all {A} (f : A -> bool) l :
  (forall x, In x l -> f x = true) -> filter f l = l.
Proof.
  induction l as [|x l IH]; intros Hall; simpl; [reflexivity|].
  rewrite (Hall x (or_introl eq_refl)). f_equal. apply IH.
  intros y Hy. apply Hall. now right.
Qed.

Lemma filter_empty_none {A} (f : A -> bool) l x :
  filter f l = [] -> In x l -> f x = false.
Proof.
  intros Hnil Hin. destruct (f x) eqn:E; [|reflexivity].
  assert (Hx : In x (filter f l)) by (apply filter_In; auto).
  rewrite Hnil in Hx. destruct Hx.
Qed.

Lemma select_In ids db j :
  In j (D1.select_jobs_in ids db) <-> In j (D1.generation_jobs db) /\ In (id j) ids.
Proof.
  rewrite select_jobs_in_In. split; intros [Hj Hid]; split; auto.
  - apply existsb_exists in Hid as [x [Hx Heq]].
    apply String.eqb_eq in Heq. now rewrite Heq.
  - apply existsb_exists. exists (id j). split; [exact Hid | apply String.eqb_refl].
Qed.

(** Under the primary key the row found for an identifier is the only
    row with it. *)
Lemma primary_key_first_job db j :
  primary_key db -> In j (D1.generation_jobs db) -> D1.first_job (id j) db = Some j.
Proof.
  unfold primary_key, D1.first_job.
  induction (D1.generation_jobs db) as [|x l IH]; simpl; intros Hnd Hin; [destruct Hin|].
  apply NoDup_cons_iff in Hnd as [Hnotin Hnd].
  destruct Hin as [-> | Hin]; [now rewrite String.eqb_refl|].
  destruct (String.eqb (id x) (id j)) eqn:E; [|now apply IH].
  apply String.eqb_eq in E. exfalso. apply Hnotin. rewrite E. now apply in_map.
Qed.

(** Distinct identifiers that are all in the store: one row each. *)
Lemma select_all_present ids db :
  primary_key db -> NoDup ids ->
  (forall x, In x ids -> D1.has_job x db = true) ->
  List.length (D1.select_jobs_in ids db) = List.length ids.
Proof.
  intros Hpk Hnd Hall. rewrite <- (length_map id (D1.select_jobs_in ids db)).
  apply Nat.le_antisymm.
  - apply NoDup_incl_length; [now apply select_ids_nodup | apply select_ids_incl].
  - apply NoDup_incl_length; [exact Hnd|].
    intros x Hx. apply Hall in Hx as Hjob. apply has_job_first_job in Hjob as [j Hj].
    apply first_job_row in Hj as [Hj Hid]. apply in_map_iff.
    exists j. split; [exact Hid|]. apply select_In. split; [exact Hj | now rewrite Hid].
Qed.

Lemma status_of_selected ids db s j :
  primary_key db ->
  (forall x, In x ids -> status_in x db = Some s) ->
  In j (D1.select_jobs_in ids db) -> status j = s.
Proof.
  intros Hpk Hall Hj. apply select_In in Hj as [Hj Hid].
  specialize (Hall _ Hid). unfold status_in in Hall.
  rewrite (primary_key_first_job db j Hpk Hj) in Hall. now inversion Hall.
Qed.

Lemma status_in_has_job x db s : status_in x db = Some s -> D1.has_job x db = true.
Proof.
  unfold status_in. destruct (D1.first_job x db) as [j|] eqn:E; [|discriminate].
  intros _. eapply first_job_has_job, E.
Qed.

(** A poll whose rows are all [completed]. *)
Lemma poll_all_completed isSingle ids db :
  let rows := D1.select_jobs_in ids db in
  List.length rows = List.length ids ->
  (forall j, In j rows -> status j = completed) ->
  poll isSingle ids db
  = Some (if isSingle
          then match rows with
               | job :: _ =>
                   mkResult (WaitCompleted (image_url job) (prompt job) (model job)) false
               | [] =>
                   mkResult
                     (Failure "Cannot read properties of undefined (reading 'image_url')")
                     true
               end
          else mkResult (WaitCompletedMany (Z.of_nat (List.length rows)) rows) false).
Proof.
  intros rows Hlen Hall. unfold poll. fold rows.
  rewrite Hlen, Nat.eqb_refl. simpl.
  rewrite (filter_none (is_status failed)), (filter_none (fun j => _ || _)),
    (filter_all (is_status completed)); simpl.
  - destruct isSingle; [now destruct rows | now rewrite Hlen].
  - intros j Hj. unfold is_status. now rewrite (Hall j Hj).
  - intros j Hj. unfold is_status. now rewrite (Hall j Hj).
  - intros j Hj. unfold is_status. now rewrite (Hall j Hj).
Qed.

(** A poll only answers with success when every row it read is
    [completed]. *)
Lemma poll_success isSingle ids db r :
  poll isSingle ids db = Some r -> isError r = false ->
  let rows := D1.select_jobs_in ids db in
  List.length rows = List.length ids
  /\ (forall j, In j rows -> status j = completed)
  /\ content r
     = (if isSingle
        then match rows with
             | job :: _ => WaitCompleted (image_url job) (prompt job) (model job)
             | [] => Failure "Cannot read properties of undefined (reading 'image_url')"
             end
        else WaitCompletedMany (Z.of_nat (List.length rows)) rows).
Proof.
  intros Hpoll Hok rows.
  assert (Hshape : List.length rows = List.length ids
                   /\ forall j, In j rows -> status j = completed).
  { unfold poll in Hpoll. fold rows in Hpoll.
    destruct (List.length rows =? List.length ids)%nat eqn:Elen; simpl in Hpoll;
      [|inversion Hpoll; subst; discriminate].
    apply Nat.eqb_eq in Elen. split; [exact Elen|].
    destruct (filter (is_status failed) rows) as [|f fs] eqn:Ef; simpl in Hpoll;
      [|destruct isSingle; inversion Hpoll; subst; discriminate].
    destruct (filter (fun j => is_status pending j || is_status processing j) rows)
      as [|p ps] eqn:Ep; simpl in Hpoll; [|discriminate].
    intros j Hj.
    pose proof (filter_empty_none _ _ j Ef Hj) as Hnf.
    pose proof (filter_empty_none _ _ j Ep Hj) as Hnp.
    unfold is_status in Hnf, Hnp. destruct (status j); simpl in *; congruence. }
  destruct Hshape as [Hlen Hall]. split; [exact Hlen|]. split; [exact Hall|].
  rewrite (poll_all_completed isSingle ids db Hlen Hall) in Hpoll.
  inversion Hpoll. fold rows. destruct isSingle; [|reflexivity].
  now destruct rows.
Qed.

End Polls.

(** X5. When the first poll of a [wait_for_completion] call finds every
    named job [completed] (the named identifiers distinct), the call
    returns success as soon as that poll's query is back, without a
    sleep: for a [job_ids] list with one result per identifier, all
    [completed]; for a single [job_id] with the result reference, prompt
    and model of that job's row. *)
Theorem wait_returns_completed_at_once args params (o : Oracle) (fuel : nat)
    (env : Env) :
  Zod.WaitForCompletionSchema args = Zod.Parsed params ->
  (0 < fuel)%nat ->
  let db := poll_sees o 0 (DB env) in
  primary_key db ->
  NoDup (ids_of params) ->
  (forall x, In x (ids_of params) -> status_in x db = Some completed) ->
  exists r,
    wait_for_completion args o fuel env = Some (mkWaited r (query_ms o 0) 0)
    /\ isError r = false
    /\ match params with
       | Zod.Single job_id =>
           exists j, D1.first_job job_id db = Some j
                     /\ content r = WaitCompleted (image_url j) (prompt j) (model j)
       | Zod.Multiple job_ids =>
           exists rows,
             content r = WaitCompletedMany (Z.of_nat (List.length job_ids)) rows
             /\ List.length rows = List.length job_ids
             /\ (forall j, In j rows ->
                   In j (D1.generation_jobs db) /\ status j = completed)
             /\ (forall x, In x job_ids -> exists j, In j rows /\ id j = x)
       end.
Proof.
  intros Hparse Hfuel db Hpk Hnd Hall.
  assert (Hlen : List.length (D1.select_jobs_in (ids_of params) db)
                 = List.length (ids_of params)).
  { apply select_all_present; auto. intros x Hx.
    eapply status_in_has_job, Hall, Hx. }
  assert (Hrows : forall j, In j (D1.select_jobs_in (ids_of params) db) ->
                            status j = completed).
  { intros j Hj. now apply (status_of_selected (ids_of params) db completed j). }
  pose proof (poll_all_completed (is_single params) (ids_of params) db Hlen Hrows)
    as Hpoll.
  pose proof (MAX_WAIT_pos (ids_of params)) as Hpos. apply Z.ltb_lt in Hpos.
  unfold wait_for_completion. rewrite Hparse.
  destruct fuel as [|fuel]; [lia|]. simpl. rewrite Hpos. fold db. rewrite Hpoll.
  destruct params as [job_id | job_ids]; simpl in *.
  - destruct (D1.select_jobs_in [job_id] db) as [|j rest] eqn:Erows;
      [discriminate Hlen|].
    eexists. split; [reflexivity|]. split; [reflexivity|].
    assert (Hj : In j (D1.select_jobs_in [job_id] db)) by (rewrite Erows; now left).
    apply select_In in Hj as [Hj [Hid | []]].
    exists j. split; [|reflexivity].
    rewrite Hid. now apply primary_key_first_job.
  - eexists. split; [reflexivity|]. split; [reflexivity|].
    exists (D1.select_jobs_in job_ids db). rewrite Hlen.
    split; [reflexivity|]. split; [reflexivity|]. split.
    + intros j Hj. split; [now apply select_In in Hj | now apply Hrows].
    + intros x Hx. apply Hall in Hx as Hs. apply status_in_has_job in Hs.
      apply has_job_first_job in Hs as [j Hj]. apply first_job_row in Hj as [Hj Hid].
      exists j. split; [|exact Hid]. apply select_In. now rewrite Hid.
Qed.

(** X6. [wait_for_completion] never reports success over a job that is
    not [completed]: whenever the call returns without [isError], the poll
    it returned from found one row per named identifier and every one of
    them [completed], and the response lists exactly those rows, in the
    order the store returns them (that of their identifiers, not that of
    the request). *)
Theorem wait_success_means_all_completed args (o : Oracle) (fuel : nat) (env : Env) w :
  wait_for_completion args o fuel env = Some w ->
  isError (result w) = false ->
  exists params,
    Zod.WaitForCompletionSchema args = Zod.Parsed params
    /\ let rows := D1.select_jobs_in (ids_of params)
                     (poll_sees o (sleeps w) (DB env)) in
       List.length rows = List.length (ids_of params)
       /\ (forall j, In j rows -> status j = completed)
       /\ match params with
          | Zod.Single _ =>
              exists j, rows = [j]
                        /\ content (result w)
                           = WaitCompleted (image_url j) (prompt j) (model j)
          | Zod.Multiple _ =>
              content (result w)
              = WaitCompletedMany (Z.of_nat (List.length rows)) rows
          end.
Proof.
  unfold wait_for_completion.
  destruct (Zod.WaitForCompletionSchema args) as [params|issues] eqn:Hparse;
    [|intros H; inversion H; subst; discriminate].
  intros Hloop Hok. exists params. split; [reflexivity|].
  assert (Hgen : forall n k e,
            wait_loop o (DB env) (is_single params) (ids_of params) n k e = Some w ->
            exists r, poll (is_single params) (ids_of params)
                        (poll_sees o (sleeps w) (DB env)) = Some r
                      /\ r = result w).
  { clear Hloop. induction n as [|n IH]; intros k e Hloop; [discriminate|].
    simpl in Hloop. destruct (e <? MAX_WAIT (ids_of params)).
    - destruct (poll (is_single params) (ids_of params) (poll_sees o k (DB env)))
        as [r|] eqn:Ep.
      + inversion Hloop; subst; simpl. now exists r.
      + eapply IH, Hloop.
    - inversion Hloop; subst. simpl in Hok. discriminate. }
  destruct (Hgen fuel 0%nat 0 Hloop) as [r [Hpoll ->]].
  destruct (poll_success _ _ _ _ Hpoll Hok) as [Hlen [Hall Hcontent]].
  split; [exact Hlen|]. split; [exact Hall|].
  destruct params as [job_id | job_ids]; simpl in *; [|exact Hcontent].
  destruct (D1.select_jobs_in [job_id] (poll_sees o (sleeps w) (DB env)))
    as [|j [|j' rest]]; try discriminate Hlen.
  now exists j.
Qed.

Lemma first_job_iff db jid j :
  primary_key db ->
  (D1.first_job jid db = Some j <-> In j (D1.generation_jobs db) /\ id j = jid).
Proof.
  intros Hpk. split; [apply first_job_row|].
  intros [Hin <-]. now apply primary_key_first_job.
Qed.

Lemma poll_some_failed isSingle ids db :
  let rows := D1.select_jobs_in ids db in
  List.length rows = List.length ids ->
  (exists j, In j rows /\ status j = failed) ->
  exists f fs,
    filter (is_status failed) rows = f :: fs
    /\ poll isSingle ids db
       = Some (if isSingle
               then mkResult (WaitFailed (error_or_default (error f))) true
               else mkResult
                      (WaitFailedMany (Z.of_nat (List.length (f :: fs)))
                         (map (fun j => (id j, error j)) (f :: fs))
                         (map (fun j => (id j, image_url j))
                              (filter (is_status completed) rows)))
                      true).
Proof.
  intros rows Hlen [j [Hj Hfailed]]. unfold poll. fold rows.
  rewrite Hlen, Nat.eqb_refl. cbv zeta. simpl negb. cbv iota.
  destruct (filter (is_status failed) rows) as [|f fs] eqn:Ef.
  - pose proof (filter_empty_none _ _ j Ef Hj) as Hno.
    unfold is_status in Hno. rewrite Hfailed in Hno. discriminate.
  - exists f, fs. split; [reflexivity|]. now destruct isSingle.
Qed.

(** X7. When the first poll of a [wait_for_completion] call finds every
    named job (the identifiers distinct) and one of them [failed], the
    call returns the error as soon as that poll's query is back, without
    a sleep. For a [job_ids] list the response counts the failed jobs,
    names exactly the named jobs that are [failed], each with its error,
    and exactly the named jobs that are [completed], each with its result
    reference; for a single [job_id] it carries the job's error, or
    'Generation failed' when that is null or empty. *)
Theorem wait_reports_failure_at_once args params (o : Oracle) (fuel : nat)
    (env : Env) :
  Zod.WaitForCompletionSchema args = Zod.Parsed params ->
  (0 < fuel)%nat ->
  let db := poll_sees o 0 (DB env) in
  primary_key db ->
  NoDup (ids_of params) ->
  (forall x, In x (ids_of params) -> D1.has_job x db = true) ->
  (exists x, In x (ids_of params) /\ status_in x db = Some failed) ->
  exists r,
    wait_for_completion args o fuel env = Some (mkWaited r (query_ms o 0) 0)
    /\ isError r = true
    /\ match params with
       | Zod.Single job_id =>
           exists j, D1.first_job job_id db = Some j
                     /\ content r = WaitFailed (error_or_default (error j))
       | Zod.Multiple job_ids =>
           exists failed_jobs completed_jobs,
             content r
             = WaitFailedMany (Z.of_nat (List.length failed_jobs))
                              failed_jobs completed_jobs
             /\ (forall jid e,
                   In (jid, e) failed_jobs <->
                   In jid job_ids
                   /\ exists j, D1.first_job jid db = Some j
                                /\ status j = failed /\ error j = e)
             /\ (forall jid u,
                   In (jid, u) completed_jobs <->
                   In jid job_ids
                   /\ exists j, D1.first_job jid db = Some j
                                /\ status j = completed /\ image_url j = u)
       end.
Proof.
  intros Hparse Hfuel db Hpk Hnd Hall [x [Hx Hfailed]].
  set (rows := D1.select_jobs_in (ids_of params) db).
  assert (Hlen : List.length rows = List.length (ids_of params))
    by now apply select_all_present.
  assert (Hrow : forall s jid (v : GenerationJob -> option string) u,
            (exists j, In j (filter (is_status s) rows) /\ (id j, v j) = (jid, u)) <->
            In jid (ids_of params)
            /\ exists j, D1.first_job jid db = Some j /\ status j = s /\ v j = u).
  { intros s jid v u. split.
    - intros [j [Hj Heq]]. inversion Heq; subst.
      apply filter_In in Hj as [Hj Hs]. apply select_In in Hj as [Hj Hid].
      split; [exact Hid|]. exists j. split; [now apply primary_key_first_job|].
      split; [|reflexivity]. unfold is_status in Hs.
      destruct (status j), s; simpl in Hs; congruence.
    - intros [Hin [j [Hj [Hs Hv]]]]. apply first_job_row in Hj as [Hj Hid].
      exists j. split; [|now rewrite Hid, Hv].
      apply filter_In. split; [apply select_In; now rewrite Hid|].
      unfold is_status. rewrite Hs. now destruct s. }
  destruct (poll_some_failed (is_single params) (ids_of params) db Hlen)
    as [f [fs [Ef Hpoll]]].
  { unfold status_in in Hfailed.
    destruct (D1.first_job x db) as [j|] eqn:Ej; [|discriminate].
    simpl in Hfailed. assert (Hs : status j = failed) by congruence.
    apply first_job_row in Ej as [Hj Hid].
    exists j. split; [|exact Hs]. apply select_In. now rewrite Hid. }
  fold rows in Ef, Hpoll.
  pose proof (MAX_WAIT_pos (ids_of params)) as Hpos. apply Z.ltb_lt in Hpos.
  unfold wait_for_completion. rewrite Hparse.
  destruct fuel as [|fuel]; [lia|]. simpl wait_loop. rewrite Hpos. fold db.
  rewrite Hpoll. eexists. split; [reflexivity|].
  destruct params as [job_id | job_ids]; simpl is_single; cbv iota.
  - split; [reflexivity|]. exists f. split; [|reflexivity].
    assert (Hf : In f (filter (is_status failed) rows)) by (rewrite Ef; now left).
    apply filter_In in Hf as [Hf _]. apply select_In in Hf as [Hf [Hid | []]].
    rewrite Hid. now apply primary_key_first_job.
  - split; [reflexivity|].
    exists (map (fun j => (id j, error j)) (f :: fs)),
           (map (fun j => (id j, image_url j)) (filter (is_status completed) rows)).
    split.
    + simpl content. now rewrite length_map.
    + rewrite <- Ef. split; intros jid u; rewrite in_map_iff.
      * rewrite <- (Hrow failed jid error u). split.
        -- intros [j [Heq Hj]]. now exists j.
        -- intros [j [Hj Heq]]. now exists j.
      * rewrite <- (Hrow completed jid image_url u). split.
        -- intros [j [Heq Hj]]. now exists j.
        -- intros [j [Hj Heq]]. now exists j.
Qed.

(** ** A wait always ends *)

Lemma wait_loop_returns (o : Oracle) db isSingle ids :
  timer_ok o ->
  forall fuel k e,
    POLL_INTERVAL * Z.of_nat k <= e ->
    MAX_WAIT ids - e <= (Z.of_nat fuel - 1) * POLL_INTERVAL ->
    (1 <= fuel)%nat ->
    exists w,
      wait_loop o db isSingle ids fuel k e = Some w
      /\ (sleeps w <= Nat.max k (20 + List.length ids))%nat
      /\ POLL_INTERVAL * Z.of_nat (sleeps w) <= elapsed_ms w.
Proof.
  intros Htimer. induction fuel as [|fuel IH]; intros k e Hk Hfuel Hpos; [lia|].
  cbn [wait_loop]. destruct (Htimer k) as [Hq Hs].
  destruct (e <? MAX_WAIT ids) eqn:E.
  - apply Z.ltb_lt in E.
    destruct (poll isSingle ids (poll_sees o k db)) as [r|].
    + eexists. split; [reflexivity|]. cbn [sleeps elapsed_ms].
      unfold POLL_INTERVAL in *. split; lia.
    + destruct (IH (S k) (e + query_ms o k + sleep_ms o k)) as [w [Hw [Hsl Hel]]].
      * unfold POLL_INTERVAL in *. lia.
      * unfold POLL_INTERVAL in *. lia.
      * unfold MAX_WAIT, BASE_TIMEOUT, PER_JOB_TIMEOUT, POLL_INTERVAL in *. lia.
      * exists w. split; [exact Hw|]. split; [|exact Hel].
        unfold MAX_WAIT, BASE_TIMEOUT, PER_JOB_TIMEOUT, POLL_INTERVAL in *. lia.
  - eexists. split; [reflexivity|]. cbn [sleeps elapsed_ms]. split; lia.
Qed.

(** X8. A [wait_for_completion] call always returns when the clock moves
    (a store query takes no negative time, a sleep at least the 3 s asked
    for), whatever the store holds and however it changes meanwhile: it
    makes at most [20 + N] polls-and-sleeps for [N] named identifiers, and
    has spent at least 3 s per sleep it took. *)
Theorem wait_always_returns args (o : Oracle) (fuel : nat) (env : Env) :
  timer_ok o ->
  (41 <= fuel)%nat ->
  exists w,
    wait_for_completion args o fuel env = Some w
    /\ POLL_INTERVAL * Z.of_nat (sleeps w) <= elapsed_ms w
    /\ forall params,
         Zod.WaitForCompletionSchema args = Zod.Parsed params ->
         (sleeps w <= 20 + List.length (ids_of params))%nat.
Proof.
  intros Htimer Hfuel. unfold wait_for_completion.
  destruct (Zod.WaitForCompletionSchema args) as [params|issues] eqn:Hparse.
  - pose proof (WaitForCompletionSchema_bounds _ _ Hparse) as Hn.
    destruct (wait_loop_returns o (DB env) (is_single params) (ids_of params)
                Htimer fuel 0%nat 0) as [w [Hw [Hsl Hel]]].
    + unfold POLL_INTERVAL. lia.
    + unfold MAX_WAIT, BASE_TIMEOUT, PER_JOB_TIMEOUT, POLL_INTERVAL. lia.
    + lia.
    + exists w. split; [exact Hw|]. split; [exact Hel|].
      intros params' H; inversion H; subst. lia.
  - eexists. split; [reflexivity|]. simpl. split; [unfold POLL_INTERVAL; lia|].
    intros params' H; discriminate.
Qed.

(** ** Composite and read-only tools *)

Lemma generate_image_result_shape args (o : Oracle) (env : Env) :
  match content (fst (catch_all (generate_image args o) env)) with
  | GenerateStarted _ _ _ =>
      isError (fst (catch_all (generate_image args o) env)) = false
  | GenerateStartedMany _ count _ _ =>
      1 < count /\ isError (fst (catch_all (generate_image args o) env)) = false
  | Failure _ => isError (fst (catch_all (generate_image args o) env)) = true
  | _ => False
  end.
Proof.
  unfold catch_all, generate_image.
  destruct (Zod.GenerateImageSchema args) as [params|issues] eqn:Hparse;
    [|reflexivity].
  pose proof (GenerateImageSchema_bounds _ _ Hparse) as Hc.
  unfold bind.
  destruct (create_jobs o params _ 0 [] env) as [[jobIds|msg] env1]; [|reflexivity].
  destruct (Zod.gi_count params =? 1) eqn:E; simpl; [reflexivity|].
  apply Z.eqb_neq in E. split; [lia | reflexivity].
Qed.

(** X9. [generate_image_and_wait] is [generate_image] followed by
    [wait_for_completion] on the state the creation left: with the single
    [job_id] when one job was created, with the [job_ids] list (count
    above 1) when several were. When the creation fails (validation, or a
    store or queue error part-way), the composite does not return that
    error: it returns the validation failure of [wait_for_completion]'s
    own schema, with whatever rows the creation had already inserted left
    in place. *)
Theorem generate_image_and_wait_composes args (o : Oracle) (fuel : nat) (env : Env)
    r env' :
  callImageTool "generate_image" args o fuel env = Some (r, env') ->
  match content r with
  | GenerateStarted job_id _ _ =>
      isError r = false
      /\ callImageTool "generate_image_and_wait" args o fuel env
         = callImageTool "wait_for_completion" (job_id_args job_id) o fuel env'
  | GenerateStartedMany job_ids count _ _ =>
      isError r = false /\ 1 < count
      /\ callImageTool "generate_image_and_wait" args o fuel env
         = callImageTool "wait_for_completion" (job_ids_args job_ids) o fuel env'
  | Failure _ =>
      isError r = true
      /\ callImageTool "generate_image_and_wait" args o fuel env
         = Some (mkResult (Failure (Zod.message [Zod.invalid_union])) true, env')
  | _ => False
  end.
Proof.
  unfold callImageTool at 1. simpl. intros Hgen. inversion Hgen as [Hpair].
  pose proof (generate_image_result_shape args o env) as Hshape.
  unfold callImageTool; simpl. rewrite Hpair in *. simpl in Hshape.
  unfold wait_args_of, job_id_args, job_ids_args.
  destruct (content r) as [job_id p m | job_ids count p m | | | | | | | | | | | msg];
    try contradiction.
  - split; [exact Hshape | reflexivity].
  - destruct Hshape as [Hc Hok]. split; [exact Hok|]. split; [exact Hc|].
    apply Z.ltb_lt in Hc. now rewrite Hc.
  - split; [exact Hshape | reflexivity].
Qed.

(** X10. Only [generate_image] and [generate_image_and_wait] write: a
    call under any other name, whatever its arguments and result, leaves
    store and queue exactly as they were; and a name that is none of the
    six tools is answered with the failure envelope
    ['Unknown tool: <name>']. *)
Theorem other_tools_change_nothing name args (o : Oracle) (fuel : nat) (env : Env) :
  (name <> "generate_image" -> name <> "generate_image_and_wait" ->
   forall r env',
     callImageTool name args o fuel env = Some (r, env') -> env' = env)
  /\ (~ In name tool_names ->
      callImageTool name args o fuel env
      = Some (mkResult (Failure ("Unknown tool: " ++ name)) true, env)).
Proof.
  split.
  - intros Hn1 Hn2 r env'. unfold callImageTool.
    apply String.eqb_neq in Hn1, Hn2. rewrite Hn1, Hn2.
    destruct (String.eqb name "get_job_status").
    { intros H; inversion H as [H'].
      change env' with (snd (r, env')). rewrite <- H'.
      apply catch_all_read_only, get_job_status_read_only. }
    destruct (String.eqb name "list_generations").
    { intros H; inversion H as [H'].
      change env' with (snd (r, env')). rewrite <- H'.
      apply catch_all_read_only, list_generations_read_only. }
    destruct (String.eqb name "list_jobs").
    { intros H; inversion H as [H'].
      change env' with (snd (r, env')). rewrite <- H'.
      apply catch_all_read_only, list_jobs_read_only. }
    destruct (String.eqb name "wait_for_completion").
    { destruct (wait_for_completion args o fuel env); simpl; intros H; now inversion H. }
    intros H; now inversion H.
  - intros Hnot. unfold callImageTool, tool_names in *.
    repeat match goal with
    | |- context [String.eqb name ?s] =>
        replace (String.eqb name s) with false
          by (symmetry; apply String.eqb_neq; intros ->; apply Hnot; simpl; tauto)
    end.
    reflexivity.
Qed.

(** ** What the system never undoes *)

Section NeverUndone.

Lemma later_row_refl j : later_row j j.
Proof. unfold later_row. tauto. Qed.

Lemma later_row_trans a b c : later_row a b -> later_row b c -> later_row a c.
Proof.
  unfold later_row. intros [H1 [H2 [H3 [H4 [H5 [H6 H7]]]]]] [G1 [G2 [G3 [G4 [G5 [G6 G7]]]]]].
  repeat split; try congruence; auto.
Qed.

Lemma rows_kept_refl db : rows_kept db db.
Proof. intros jid j Hj. exists j. split; [exact Hj | apply later_row_refl]. Qed.

Lemma rows_kept_trans a b c : rows_kept a b -> rows_kept b c -> rows_kept a c.
Proof.
  intros Hab Hbc jid j Hj. destruct (Hab jid j Hj) as [j1 [Hj1 L1]].
  destruct (Hbc jid j1 Hj1) as [j2 [Hj2 L2]].
  exists j2. split; [exact Hj2 | now apply later_row_trans with j1].
Qed.

Lemma rows_kept_update k f db :
  (forall j, later_row j (f j)) ->
  rows_kept db (D1.update_where_id k f db).
Proof.
  intros Hf jid j Hj.
  assert (Hid : forall x, id (f x) = id x) by (intros x; apply Hf).
  destruct (string_dec k jid) as [-> | Hne].
  - exists (f j). split; [|apply Hf].
    rewrite first_job_update_same by exact Hid. now rewrite Hj.
  - exists j. split; [|apply later_row_refl].
    now rewrite first_job_update_other.
Qed.

Lemma run_events_rows_kept es env : rows_kept (DB env) (DB (run_events es env)).
Proof.
  apply (run_events_preserves rows_kept (fun _ => True)); auto.
  - apply rows_kept_refl.
  - apply rows_kept_trans.
  - intros jid p m t db db' E k j Hj. apply insert_job_done in E as [_ ->].
    exists j. split; [|apply later_row_refl].
    unfold D1.first_job in *; simpl. now apply find_app_some.
  - intros jid t db _. apply rows_kept_update. intros j.
    unfold later_row; simpl. repeat split; auto. discriminate.
  - intros jid url t db _. apply rows_kept_update. intros j.
    unfold later_row; simpl. repeat split; auto; discriminate.
  - intros jid msg t db _. apply rows_kept_update. intros j.
    unfold later_row; simpl. repeat split; auto; discriminate.
  - intros g db db' E. apply insert_generation_done in E as [_ ->].
    intros k j Hj. exists j. split; [exact Hj | apply later_row_refl].
Qed.

End NeverUndone.

(** X11. Job rows are never deleted and their identity never changes:
    over any run of tool calls and consumer batches, a job that is in the
    store is still there afterwards with the same identifier, prompt,
    model and creation time. *)
Theorem jobs_are_kept_with_their_identity es env jid j :
  D1.first_job jid (DB env) = Some j ->
  exists j',
    D1.first_job jid (DB (run_events es env)) = Some j'
    /\ id j' = id j /\ prompt j' = prompt j /\ model j' = model j
    /\ created_at j' = created_at j.
Proof.
  intros Hj. destruct (run_events_rows_kept es env jid j Hj) as [j' [Hj' L]].
  exists j'. split; [exact Hj'|]. unfold later_row in L. tauto.
Qed.

(** X12. Nothing is ever cleared: over any run of tool calls and consumer
    batches, a job that has a result reference keeps one, a job that has
    an error detail keeps one, and a job that has left [pending] never
    returns to it. *)
Theorem result_and_error_are_never_cleared es env jid j :
  D1.first_job jid (DB env) = Some j ->
  exists j',
    D1.first_job jid (DB (run_events es env)) = Some j'
    /\ (image_url j <> None -> image_url j' <> None)
    /\ (error j <> None -> error j' <> None)
    /\ (status j <> pending -> status j' <> pending).
Proof.
  intros Hj. destruct (run_events_rows_kept es env jid j Hj) as [j' [Hj' L]].
  exists j'. split; [exact Hj'|]. unfold later_row in L. tauto.
Qed.

(** X13. The archive is append-only: over any run of tool calls and
    consumer batches the Generation records that were there stay, in
    place and unchanged, and new ones are only added at the end. *)
Theorem archive_is_append_only es env :
  archive_extended (DB env) (DB (run_events es env)).
Proof.
  apply (run_events_preserves archive_extended (fun _ => True)); auto.
  - intros db. exists []. now rewrite app_nil_r.
  - intros a b c [l1 H1] [l2 H2]. exists (l1 ++ l2). now rewrite H2, H1, app_assoc.
  - intros jid p m t db db' E. apply insert_job_done in E as [_ ->].
    exists []. simpl. now rewrite app_nil_r.
  - intros jid t db _. exists []. simpl. now rewrite app_nil_r.
  - intros jid url t db _. exists []. simpl. now rewrite app_nil_r.
  - intros jid msg t db _. exists []. simpl. now rewrite app_nil_r.
  - intros g db db' E. apply insert_generation_done in E as [_ ->].
    exists [g]. reflexivity.
Qed.

(** ** The archive and the consumer *)

Section Archive.

Lemma has_job_ids jid db :
  D1.has_job jid db = existsb (fun i => String.eqb i jid) (map id (D1.generation_jobs db)).
Proof.
  unfold D1.has_job. induction (D1.generation_jobs db) as [|j l IH]; simpl;
    [reflexivity | now rewrite IH].
Qed.

Lemma exec_has_job w db jid :
  D1.has_job jid db = true -> D1.has_job jid (exec w db) = true.
Proof.
  intros Hjob. destruct w as [k p m t | k t | k url t | g | k msg t]; cbn [exec].
  - destruct (D1.insert_job k pending p m t t db) eqn:E; [|exact Hjob].
    apply insert_job_done in E as [_ ->]. now rewrite has_job_app, Hjob.
  - now rewrite has_job_ids, (update_where_id_ids k _ db (set_status_id processing t)),
      <- has_job_ids.
  - now rewrite has_job_ids,
      (update_where_id_ids k _ db (set_status_image_url_id completed url t)),
      <- has_job_ids.
  - destruct (D1.insert_generation g db) eqn:E; [|exact Hjob].
    now apply insert_generation_done in E as [_ ->].
  - now rewrite has_job_ids,
      (update_where_id_ids k _ db (set_status_error_id failed msg t)),
      <- has_job_ids.
Qed.

Lemma exec_generations w db :
  D1.generations (exec w db) = D1.generations db
  \/ exists g, w = W_archive g
               /\ D1.generations (exec w db) = D1.generations db ++ [g]
               /\ D1.has_generation (g_id g) db = false
               /\ D1.has_job (g_job_id g) db = true.
Proof.
  destruct w as [k p m t | k t | k url t | g | k msg t]; cbn [exec];
    try (left; reflexivity).
  - destruct (D1.insert_job k pending p m t t db) eqn:E; [|now left].
    apply insert_job_done in E as [_ ->]. now left.
  - unfold D1.insert_generation.
    destruct (D1.has_generation (g_id g) db) eqn:Eg; [now left|].
    destruct (D1.has_job (g_job_id g) db) eqn:Ej; simpl; [|now left].
    right. exists g. auto.
Qed.

Lemma exec_archive_consistent w db :
  archive_consistent db -> archive_consistent (exec w db).
Proof.
  intros [Hnd Hfk].
  destruct (exec_generations w db) as [Hsame | [g [-> [Hadd [Hnew Hjob]]]]].
  - split; rewrite Hsame; [exact Hnd|].
    intros g Hg. now apply exec_has_job, Hfk.
  - split; rewrite Hadd.
    + rewrite map_app. simpl.
      apply NoDup_app; [exact Hnd | repeat constructor; intros [] |].
      intros x Hin [<- | []]. apply in_map_iff in Hin as [g' [Heq Hg']].
      apply not_true_iff_false in Hnew. apply Hnew.
      apply existsb_exists. exists g'. split; [exact Hg' | now apply String.eqb_eq].
    + intros g' Hg'. apply exec_has_job.
      apply in_app_or in Hg' as [Hg' | [<- | []]]; [now apply Hfk | exact Hjob].
Qed.

Lemma reachable_archive_consistent db : reachable db -> archive_consistent db.
Proof.
  induction 1 as [|w db Hr IH].
  - split; [constructor | intros g []].
  - now apply exec_archive_consistent.
Qed.

End Archive.

(** X14. The archive stays consistent with the job table: in every store
    the system can reach, and so after every run of tool calls and
    consumer batches, no two Generation records share an identifier and
    every record refers to a job that is in the store. *)
Theorem archive_refers_to_stored_jobs :
  (forall db, reachable db -> archive_consistent db)
  /\ (forall es, archive_consistent (DB (run_events es initial))).
Proof.
  split; [exact reachable_archive_consistent|].
  intros es. apply reachable_archive_consistent, run_events_reachable. constructor.
Qed.

Section Batches.

Lemma process_message_keeps_queue d env :
  IMAGE_QUEUE (snd (process_message d env)) = IMAGE_QUEUE env.
Proof.
  unfold process_message, try_catch, bind, mark_processing, generate_and_store,
    generateImage, uploadImage, mark_failed, try_catch, bind, run, ret, throw.
  destruct (out_processing d), (out_failed d), (ai_run d),
    (r2_put d) as [url|upload_msg], (out_completed d), (out_archive d);
    simpl; try reflexivity.
  all: destruct (D1.insert_generation _ _); reflexivity.
Qed.

Lemma process_message_keeps_ids d env :
  map id (D1.generation_jobs (DB (snd (process_message d env))))
  = map id (D1.generation_jobs (DB env)).
Proof.
  apply (preserves_process_message
           (fun a b => map id (D1.generation_jobs b) = map id (D1.generation_jobs a))
           (fun _ => True)); auto.
  - intros a b c Hab Hbc. congruence.
  - intros jid t db _. apply update_where_id_ids. reflexivity.
  - intros jid url t db _. apply update_where_id_ids. reflexivity.
  - intros jid msg t db _. apply update_where_id_ids. reflexivity.
  - intros g db db' E. now apply insert_generation_done in E as [_ ->].
Qed.

Lemma process_message_archive_length d env :
  exists a,
    fst (process_message d env) = Done a
    /\ List.length (D1.generations (DB (snd (process_message d env))))
       = (List.length (D1.generations (DB env)) + acknowledged [a])%nat.
Proof.
  pose proof (delivery_archive d env) as Harch.
  destruct (fst (process_message d env)) as [[|]|msg]; [| |contradiction].
  - exists Ack. split; [reflexivity|].
    destruct Harch as [url [j [_ [-> _]]]]. rewrite length_app. reflexivity.
  - exists Retry. split; [reflexivity|]. rewrite Harch.
    unfold acknowledged. simpl. lia.
Qed.

End Batches.

(** X15. The consumer handles every message of a batch and never throws:
    a batch yields one disposition (acknowledge or retry) per message, in
    order, whatever fails on the way. It adds exactly one Generation
    record per acknowledged message and none for the others, creates and
    deletes no job row, and sends nothing to the queue itself. *)
Theorem queue_settles_every_message batch : forall env,
  exists ds,
    fst (queue batch env) = Done ds
    /\ List.length ds = List.length batch
    /\ List.length (D1.generations (DB (snd (queue batch env))))
       = (List.length (D1.generations (DB env)) + acknowledged ds)%nat
    /\ map id (D1.generation_jobs (DB (snd (queue batch env))))
       = map id (D1.generation_jobs (DB env))
    /\ IMAGE_QUEUE (snd (queue batch env)) = IMAGE_QUEUE env.
Proof.
  induction batch as [|d batch IH]; intros env.
  - exists []. simpl. repeat split. unfold acknowledged; simpl. lia.
  - destruct (process_message_archive_length d env) as [a [Ha Hlen]].
    pose proof (process_message_keeps_ids d env) as Hids.
    pose proof (process_message_keeps_queue d env) as Hq.
    simpl. unfold bind.
    destruct (process_message d env) as [r1 env1]. simpl in Ha, Hlen, Hids, Hq.
    subst r1.
    destruct (IH env1) as [ds [Hds [Hn [Hgen [Hjobs Hqueue]]]]].
    destruct (queue batch env1) as [r2 env2]. simpl in Hds, Hgen, Hjobs, Hqueue.
    subst r2. exists (a :: ds). simpl. split; [reflexivity|].
    split; [now rewrite Hn|]. split; [|split; congruence].
    rewrite Hgen, Hlen. unfold acknowledged. simpl. destruct a; simpl; lia.
Qed.

Section Deliveries.

Lemma update_where_id_missing k f db :
  D1.has_job k db = false -> D1.update_where_id k f db = db.
Proof.
  unfold D1.has_job, D1.update_where_id. destruct db as [jobs gens]; simpl.
  intros Hno. f_equal. induction jobs as [|j l IH]; simpl in *; [reflexivity|].
  apply orb_false_iff in Hno as [Hj Hl]. rewrite Hj. f_equal. now apply IH.
Qed.

Lemma insert_generation_missing_job g db :
  D1.has_job (g_job_id g) db = false ->
  exists msg, D1.insert_generation g db = Throws msg.
Proof.
  intros Hno. unfold D1.insert_generation.
  destruct (D1.has_generation (g_id g) db); [now eexists|].
  rewrite Hno. now eexists.
Qed.

Lemma first_job_after_failed jid msg t db j :
  D1.first_job jid db = Some j ->
  D1.first_job jid (D1.update_where_id jid (D1.set_status_error failed msg t) db)
  = Some (D1.set_status_error failed msg t j).
Proof.
  intros Hj. rewrite first_job_update_same by reflexivity. now rewrite Hj.
Qed.

End Deliveries.

(** X16. A collaborator failure is recorded on the job. When the model
    call or the upload throws while the job's work unit is processed (the
    job in the store, the store taking every statement), the message is
    to be retried, the job is [failed] with error
    ['Image generation failed: <message>'] or
    ['Image upload failed: <message>'] and the time of the failure as
    [updated_at], its other fields as they were, and the archive is
    untouched. *)
Theorem collaborator_failure_is_recorded d env j :
  let jid := jobId (body d) in
  D1.first_job jid (DB env) = Some j ->
  store_accepts d ->
  forall stage msg,
    (ai_run d = Throws msg /\ stage = "Image generation failed: ")
    \/ (ai_run d = Done tt /\ r2_put d = Throws msg
        /\ stage = "Image upload failed: ") ->
    fst (process_message d env) = Done Retry
    /\ D1.first_job jid (DB (snd (process_message d env)))
       = Some (mkJob (id j) failed (prompt j) (model j) (image_url j)
                     (Some (stage ++ msg)%string) (created_at j) (t_failed d))
    /\ D1.generations (DB (snd (process_message d env))) = D1.generations (DB env).
Proof.
  intros jid Hj Hacc stage msg Hfail.
  rewrite (process_message_accepting d env Hacc). cbv zeta.
  assert (H1 : D1.first_job jid
                 (D1.update_where_id jid
                    (D1.set_status processing (t_processing d)) (DB env))
               = Some (D1.set_status processing (t_processing d) j)).
  { rewrite first_job_update_same by reflexivity. fold jid. now rewrite Hj. }
  destruct Hfail as [[Hai ->] | [Hai [Hr2 ->]]]; rewrite Hai; [|rewrite Hr2];
    simpl fst; simpl snd; simpl DB.
  - split; [reflexivity|]. split; [|reflexivity].
    fold jid. now rewrite (first_job_after_failed jid _ _ _ _ H1).
  - split; [reflexivity|]. split; [|reflexivity].
    fold jid. now rewrite (first_job_after_failed jid _ _ _ _ H1).
Qed.

(** X17. A work unit whose job is not in the store can never be
    acknowledged: whatever the collaborators return, the consumer asks for
    a retry and leaves the store exactly as it was (its updates match no
    row, and the archive refuses a record for a job that does not
    exist). *)
Theorem delivery_for_unknown_job_is_retried d env :
  D1.has_job (jobId (body d)) (DB env) = false ->
  fst (process_message d env) = Done Retry
  /\ DB (snd (process_message d env)) = DB env.
Proof.
  intros Hno.
  unfold process_message, try_catch, bind, mark_processing, generate_and_store,
    generateImage, uploadImage, mark_failed, try_catch, bind, run, ret, throw.
  destruct (out_processing d), (out_failed d), (ai_run d),
    (r2_put d) as [url|upload_msg], (out_completed d), (out_archive d);
    simpl; rewrite ?(update_where_id_missing _ _ _ Hno); auto.
  all: match goal with
       | |- context [D1.insert_generation ?g ?db] =>
           destruct (insert_generation_missing_job g db Hno) as [m ->]
       end.
  all: simpl; rewrite ?(update_where_id_missing _ _ _ Hno); auto.
Qed.

(** * The file name of an upload *)

Section FileNames.

Import R2Storage.

Let safe (c : ascii) : bool := is_a_z_0_9 c || is_hyphen c.

Lemma is_hyphen_eq c : is_hyphen c = true -> c = "-"%char.
Proof. unfold is_hyphen. apply Ascii.eqb_eq. Qed.

Lemma a_z_0_9_not_hyphen c : is_a_z_0_9 c = true -> is_hyphen c = false.
Proof.
  intros Hok. destruct (is_hyphen c) eqn:E; [|reflexivity].
  apply is_hyphen_eq in E. subst. discriminate Hok.
Qed.

Lemma replace_other_runs_safe s : forall b,
  all_chars safe (replace_other_runs b s) = true.
Proof.
  induction s as [|c s IH]; intros b; simpl; [reflexivity|].
  destruct (is_a_z_0_9 c) eqn:E; simpl.
  - unfold safe at 1. now rewrite E, IH.
  - destruct b; simpl; now rewrite IH.
Qed.

Lemma replace_other_runs_spaced s : forall b,
  no_double_hyphen (replace_other_runs b s) = true
  /\ (b = true -> starts_with_hyphen (replace_other_runs b s) = false).
Proof.
  induction s as [|c s IH]; intros b; simpl; [now split|].
  destruct (is_a_z_0_9 c) eqn:E.
  - destruct (IH false) as [Hnd _]. split.
    + simpl. rewrite (a_z_0_9_not_hyphen c E). simpl.
      now destruct (replace_other_runs false s).
    + intros _. simpl. now apply a_z_0_9_not_hyphen.
  - destruct (IH true) as [Hnd Hstart]. destruct b; [now split|].
    split; [|discriminate]. specialize (Hstart eq_refl). simpl.
    destruct (replace_other_runs true s) as [|c' s'] eqn:Er; [reflexivity|].
    simpl in Hstart. rewrite Hstart. simpl. exact Hnd.
Qed.

Lemma no_double_hyphen_tail c s :
  no_double_hyphen (String c s) = true -> no_double_hyphen s = true.
Proof.
  simpl. destruct s as [|c' s']; [reflexivity|]. intros H.
  now apply andb_true_iff in H as [_ H].
Qed.

Lemma strip_leading_hyphens_keeps s :
  all_chars safe s = true -> no_double_hyphen s = true ->
  all_chars safe (strip_leading_hyphens s) = true
  /\ no_double_hyphen (strip_leading_hyphens s) = true
  /\ starts_with_hyphen (strip_leading_hyphens s) = false.
Proof.
  induction s as [|c s IH]; intros Hsafe Hnd; [now repeat split|].
  simpl strip_leading_hyphens. destruct (is_hyphen c) eqn:E.
  - apply IH.
    + simpl in Hsafe. now apply andb_true_iff in Hsafe as [_ H].
    + now apply no_double_hyphen_tail in Hnd.
  - repeat split; auto.
Qed.

Lemma strip_trailing_hyphens_keeps s :
  all_chars safe s = true -> no_double_hyphen s = true ->
  starts_with_hyphen s = false ->
  all_chars safe (strip_trailing_hyphens s) = true
  /\ no_double_hyphen (strip_trailing_hyphens s) = true
  /\ starts_with_hyphen (strip_trailing_hyphens s) = false
  /\ ends_with_hyphen (strip_trailing_hyphens s) = false.
Proof.
  assert (Hgen : forall s,
            all_chars safe s = true -> no_double_hyphen s = true ->
            all_chars safe (strip_trailing_hyphens s) = true
            /\ no_double_hyphen (strip_trailing_hyphens s) = true
            /\ ends_with_hyphen (strip_trailing_hyphens s) = false
            /\ (starts_with_hyphen s = false ->
                starts_with_hyphen (strip_trailing_hyphens s) = false)
            /\ (starts_with_hyphen (strip_trailing_hyphens s) = true ->
                starts_with_hyphen s = true)).
  { clear s. induction s as [|c s IH]; intros Hsafe Hnd; [now repeat split|].
    simpl in Hsafe. apply andb_true_iff in Hsafe as [Hc Hsafe].
    pose proof (no_double_hyphen_tail _ _ Hnd) as Hnd'.
    destruct (IH Hsafe Hnd') as [H1 [H2 [H3 [H4 H5]]]].
    simpl strip_trailing_hyphens.
    destruct (strip_trailing_hyphens s) as [|c' r] eqn:Er.
    - destruct (is_hyphen c) eqn:E; simpl; [now repeat split|].
      rewrite Hc. repeat split; auto.
    - repeat split.
      + simpl in H1 |- *. now rewrite Hc, H1.
      + change (no_double_hyphen (String c (String c' r)))
          with (negb (is_hyphen c && is_hyphen c')
                && no_double_hyphen (String c' r)).
        rewrite H2, andb_true_r.
        destruct (is_hyphen c) eqn:E; [|reflexivity].
        destruct (is_hyphen c') eqn:E'; [|reflexivity].
        assert (Hs : starts_with_hyphen s = true) by (apply H5; exact E').
        destruct s as [|c2 s2]; [discriminate|].
        simpl in Hs.
        change (no_double_hyphen (String c (String c2 s2)))
          with (negb (is_hyphen c && is_hyphen c2)
                && no_double_hyphen (String c2 s2)) in Hnd.
        rewrite E, Hs in Hnd. discriminate.
      + exact H3.
      + intros Hs. exact Hs.
      + intros Hs. exact Hs. }
  intros Hsafe Hnd Hstart. destruct (Hgen s Hsafe Hnd) as [H1 [H2 [H3 [H4 _]]]].
  auto.
Qed.

Lemma substring_prefix_keeps n : forall s,
  (String.length (substring 0 n s) <= n)%nat
  /\ (all_chars safe s = true -> all_chars safe (substring 0 n s) = true)
  /\ (no_double_hyphen s = true -> no_double_hyphen (substring 0 n s) = true)
  /\ starts_with_hyphen (substring 0 n s) = starts_with_hyphen s && negb (n =? 0)%nat
  /\ ((String.length s <= n)%nat -> substring 0 n s = s).
Proof.
  induction n as [|n IH]; intros s.
  - destruct s as [|c s]; simpl; repeat split; auto; try lia;
      try (now rewrite andb_false_r).
  - destruct s as [|c s]; simpl; [repeat split; auto; lia|].
    destruct (IH s) as [H1 [H2 [H3 [H4 H5]]]]. repeat split.
    + lia.
    + intros H. apply andb_true_iff in H as [Hc Hs]. now rewrite Hc, H2.
    + intros H. pose proof (no_double_hyphen_tail _ _ H) as Ht.
      specialize (H3 Ht).
      destruct (substring 0 n s) as [|c' r] eqn:Es; [reflexivity|].
      rewrite H3, andb_true_r.
      destruct s as [|c2 s2]; [destruct n; discriminate|].
      assert (c' = c2) as ->.
      { destruct n; simpl in Es; [discriminate | now inversion Es]. }
      simpl in H. now apply andb_true_iff in H as [H _].
    + now rewrite andb_true_r.
    + intros H. f_equal. apply H5. lia.
Qed.

Lemma ends_with_hyphen_short n s :
  ends_with_hyphen s = false ->
  (String.length (substring 0 n s) < n)%nat ->
  ends_with_hyphen (substring 0 n s) = false.
Proof.
  intros Hend Hlt. destruct (Nat.le_gt_cases (String.length s) n) as [Hle | Hgt].
  - destruct (substring_prefix_keeps n s) as [_ [_ [_ [_ H]]]]. now rewrite H.
  - exfalso. clear Hend. revert s Hlt Hgt.
    induction n as [|n IH]; intros s Hlt Hgt; [lia|].
    destruct s as [|c s]; simpl in *; [lia|].
    apply (IH s); lia.
Qed.

(** What the pipeline keeps and establishes, before the cut at 50. *)
Lemma trimmed_is_clean prompt :
  let t := strip_trailing_hyphens
             (strip_leading_hyphens (replace_other_runs false (toLowerCase prompt))) in
  all_chars safe t = true /\ no_double_hyphen t = true
  /\ starts_with_hyphen t = false /\ ends_with_hyphen t = false.
Proof.
  intros t. subst t.
  pose proof (replace_other_runs_safe (toLowerCase prompt) false) as H1.
  destruct (replace_other_runs_spaced (toLowerCase prompt) false) as [H2 _].
  destruct (strip_leading_hyphens_keeps _ H1 H2) as [H3 [H4 H5]].
  now apply strip_trailing_hyphens_keeps.
Qed.

End FileNames.

(** X18. The sanitised prompt is always a safe file-name part: at most
    50 characters, only [a-z], [0-9] and hyphens, never a hyphen first,
    never two hyphens in a row; it can end in a hyphen only where the cut
    at 50 characters fell right after one. *)
Theorem sanitizedPrompt_is_safe prompt :
  let name := R2Storage.sanitizedPrompt prompt in
  (String.length name <= 50)%nat
  /\ R2Storage.all_chars
       (fun c => R2Storage.is_a_z_0_9 c || R2Storage.is_hyphen c) name = true
  /\ R2Storage.no_double_hyphen name = true
  /\ R2Storage.starts_with_hyphen name = false
  /\ ((String.length name < 50)%nat -> R2Storage.ends_with_hyphen name = false).
Proof.
  intros name. unfold name, R2Storage.sanitizedPrompt.
  destruct (trimmed_is_clean prompt) as [H1 [H2 [H3 H4]]].
  destruct (substring_prefix_keeps 50
              (R2Storage.strip_trailing_hyphens
                 (R2Storage.strip_leading_hyphens
                    (R2Storage.replace_other_runs false
                       (R2Storage.toLowerCase prompt)))))
    as [G1 [G2 [G3 [G4 _]]]].
  split; [exact G1|]. split; [now apply G2|]. split; [now apply G3|].
  split; [now rewrite G4, H3|].
  now apply ends_with_hyphen_short.
Qed.

Section CleanNames.

Import R2Storage.

Lemma a_z_0_9_is_lower c : is_a_z_0_9 c = true -> toLowerCase_char c = c.
Proof.
  unfold is_a_z_0_9, toLowerCase_char. intros Hok.
  destruct ((65 <=? nat_of_ascii c) && (nat_of_ascii c <=? 90)
            || (192 <=? nat_of_ascii c) && (nat_of_ascii c <=? 214)
            || (216 <=? nat_of_ascii c) && (nat_of_ascii c <=? 222))%nat eqn:E;
    [|reflexivity].
  exfalso.
  repeat (apply orb_true_iff in E as [E | E] || apply orb_true_iff in Hok as [Hok | Hok]);
    apply andb_true_iff in E as [E1 E2]; apply andb_true_iff in Hok as [H1 H2];
    apply Nat.leb_le in E1, E2, H1, H2; lia.
Qed.

Lemma toLowerCase_clean s :
  all_chars (fun c => is_a_z_0_9 c || is_hyphen c) s = true -> toLowerCase s = s.
Proof.
  induction s as [|c s IH]; simpl; [reflexivity|].
  intros H. apply andb_true_iff in H as [Hc Hs]. rewrite (IH Hs). f_equal.
  apply orb_true_iff in Hc as [Hc | Hc]; [now apply a_z_0_9_is_lower|].
  apply is_hyphen_eq in Hc. now subst.
Qed.

Lemma replace_other_runs_clean s : forall b,
  all_chars (fun c => is_a_z_0_9 c || is_hyphen c) s = true ->
  no_double_hyphen s = true ->
  (b = true -> starts_with_hyphen s = false) ->
  replace_other_runs b s = s.
Proof.
  induction s as [|c s IH]; intros b Hsafe Hnd Hstart; simpl; [reflexivity|].
  simpl in Hsafe. apply andb_true_iff in Hsafe as [Hc Hsafe].
  pose proof (no_double_hyphen_tail _ _ Hnd) as Hnd'.
  destruct (is_a_z_0_9 c) eqn:E.
  - f_equal. apply IH; auto. discriminate.
  - simpl in Hc. pose proof (is_hyphen_eq c Hc) as ->.
    destruct b; [specialize (Hstart eq_refl); discriminate|].
    f_equal. apply IH; auto. intros _.
    destruct s as [|c2 s2]; [reflexivity|].
    change (no_double_hyphen (String "-" (String c2 s2)))
      with (negb (is_hyphen "-" && is_hyphen c2) && no_double_hyphen (String c2 s2))
      in Hnd.
    apply andb_true_iff in Hnd as [Hnd _]. simpl in Hnd |- *.
    now destruct (is_hyphen c2).
Qed.

Lemma strip_leading_hyphens_clean s :
  starts_with_hyphen s = false -> strip_leading_hyphens s = s.
Proof. destruct s as [|c s]; simpl; [reflexivity|]. now intros ->. Qed.

Lemma strip_trailing_hyphens_clean s :
  ends_with_hyphen s = false -> strip_trailing_hyphens s = s.
Proof.
  induction s as [|c s IH]; [reflexivity|].
  intros Hend. simpl strip_trailing_hyphens.
  destruct s as [|c2 s2].
  - simpl in *. now rewrite Hend.
  - rewrite IH by exact Hend. reflexivity.
Qed.

End CleanNames.

(** X19. The sanitiser leaves a clean name alone: a prompt of at most 50
    characters that has only [a-z], [0-9] and single hyphens between
    them, with no hyphen first or last, is its own sanitised form. *)
Theorem sanitizedPrompt_keeps_clean_name prompt :
  R2Storage.clean_name prompt -> R2Storage.sanitizedPrompt prompt = prompt.
Proof.
  intros [Hsafe [Hnd [Hstart [Hend Hlen]]]]. unfold R2Storage.sanitizedPrompt.
  rewrite toLowerCase_clean by exact Hsafe.
  rewrite replace_other_runs_clean by (auto; discriminate).
  rewrite strip_leading_hyphens_clean by exact Hstart.
  rewrite strip_trailing_hyphens_clean by exact Hend.
  now apply substring_prefix_keeps.
Qed.

Lemma sanitizedPrompt_keeps_clean_name_witness :
  R2Storage.sanitizedPrompt "a-red-apple-2" = "a-red-apple-2".
Proof.
  apply sanitizedPrompt_keeps_clean_name.
  repeat split; try reflexivity. simpl. lia.
Defined.

Section UploadKeys.

Import R2Storage.

Let key_char (c : ascii) : bool :=
  is_a_z_0_9 c || is_hyphen c || Ascii.eqb c ".".

Lemma all_chars_app P s t :
  all_chars P (s ++ t) = all_chars P s && all_chars P t.
Proof.
  induction s as [|c s IH]; simpl; [reflexivity|]. now rewrite IH, andb_assoc.
Qed.

Lemma all_chars_weaken (P Q : ascii -> bool) s :
  (forall c, P c = true -> Q c = true) ->
  all_chars P s = true -> all_chars Q s = true.
Proof.
  intros HPQ. induction s as [|c s IH]; simpl; [reflexivity|].
  intros H. apply andb_true_iff in H as [Hc Hs]. now rewrite (HPQ c Hc), IH.
Qed.

Lemma string_of_uint_digits d :
  all_chars is_a_z_0_9 (DecimalString.NilZero.string_of_uint d) = true.
Proof.
  assert (H : forall u,
            all_chars is_a_z_0_9 (DecimalString.NilEmpty.string_of_uint u) = true).
  { induction u; simpl; auto. }
  destruct d; simpl; auto; apply H.
Qed.

Lemma decimal_digits n : 0 <= n -> all_chars is_a_z_0_9 (decimal n) = true.
Proof.
  intros Hn. unfold decimal. destruct n as [|p|p]; try lia.
  - reflexivity.
  - apply string_of_uint_digits.
Qed.

Lemma sanitizedPrompt_chars prompt :
  all_chars (fun c => is_a_z_0_9 c || is_hyphen c) (sanitizedPrompt prompt) = true.
Proof.
  unfold sanitizedPrompt.
  destruct (trimmed_is_clean prompt) as [H1 _].
  now apply substring_prefix_keeps.
Qed.

Lemma generated_name_chars timestamp prompt :
  0 <= timestamp ->
  all_chars key_char (decimal timestamp ++ "-" ++ sanitizedPrompt prompt ++ ".png")
  = true.
Proof.
  intros Hts. rewrite !all_chars_app.
  rewrite (all_chars_weaken is_a_z_0_9 key_char (decimal timestamp));
    [ | intros c Hc; unfold key_char; now rewrite Hc | now apply decimal_digits ].
  rewrite (all_chars_weaken (fun c => is_a_z_0_9 c || is_hyphen c) key_char
             (sanitizedPrompt prompt));
    [ reflexivity | intros c Hc; unfold key_char; now rewrite Hc
    | apply sanitizedPrompt_chars ].
Qed.

End UploadKeys.

(** X20. [uploadImage] names the object it stores. Without a custom file
    name (absent or empty) the key is [<timestamp>-<sanitised prompt>.png]
    and, for a timestamp that is not negative, consists only of [a-z],
    [0-9], hyphens and dots; a custom name that is not empty is used as
    it is. The download URL is the public base followed by the key and
    the size is the number of bytes; a [put] that throws is rethrown as
    ['Image upload failed: <message>'] and nothing is returned. *)
Theorem uploadImage_names_the_object timestamp put params :
  0 <= timestamp ->
  match R2Storage.uploadImage timestamp put params with
  | Done r =>
      put = Done tt
      /\ R2Storage.downloadUrl r = (R2Storage.public_base ++ R2Storage.fileKey r)%string
      /\ R2Storage.sizeBytes r = Z.of_nat (List.length (R2Storage.imageData params))
      /\ match R2Storage.filename params with
         | Some (String c rest) => R2Storage.fileKey r = String c rest
         | _ =>
             R2Storage.fileKey r
             = (R2Storage.decimal timestamp ++ "-"
                ++ R2Storage.sanitizedPrompt (R2Storage.up_prompt params)
                ++ ".png")%string
             /\ R2Storage.all_chars
                  (fun c => R2Storage.is_a_z_0_9 c || R2Storage.is_hyphen c
                            || Ascii.eqb c ".")
                  (R2Storage.fileKey r) = true
         end
  | Throws m =>
      exists msg, put = Throws msg /\ m = ("Image upload failed: " ++ msg)%string
  end.
Proof.
  intros Hts. unfold R2Storage.uploadImage, R2Storage.file_name.
  destruct put as [[]|msg]; [|now exists msg].
  split; [reflexivity|]. split; [reflexivity|]. split; [reflexivity|].
  simpl R2Storage.fileKey.
  destruct (R2Storage.filename params) as [[|c rest]|]; try reflexivity;
    (split; [reflexivity | now apply generated_name_chars]).
Qed.

Lemma uploadImage_names_the_object_witness :
  R2Storage.uploadImage 1700000000000 (Done tt)
    (R2Storage.mkUploadImageParams [] None "A red apple!" "flux-schnell")
  = Done (R2Storage.mkUploadImageResult
            "1700000000000-a-red-apple.png"
            "https://pub-2f0bcc7992f04c6a8a44eb983f02d42a.r2.dev/1700000000000-a-red-apple.png"
            0).
Proof.
  pose proof (uploadImage_names_the_object 1700000000000 (Done tt)
                (R2Storage.mkUploadImageParams [] None "A red apple!" "flux-schnell")
                ltac:(lia)) as H.
  destruct (R2Storage.uploadImage _ _ _) as [r|m] eqn:E; [|now destruct H].
  vm_compute in E. now inversion E.
Defined.

(** * The MCP endpoint *)

Section Endpoint.

Variable render : json -> string.

Lemma field_of_object k v x :
  MCP.field k (Some v) = Some x -> exists fs, v = JObj fs.
Proof. destruct v; simpl; try discriminate. intros _. now eexists. Qed.



End Endpoint.


(** X22. A [tools/call] request with a tool name is answered with exactly
    what [callImageTool] returns for that name and the request's
    [arguments] (an empty object when they are missing or falsy), as a
    JSON-RPC result with status 200, and leaves the state [callImageTool]
    leaves. *)
Theorem tools_call_returns_the_tool_result render fs name (o : Oracle) (fuel : nat)
    (env : Env) :
  let body := JObj fs in
  let params := MCP.field "params" (Some body) in
  MCP.field "jsonrpc" (Some body) = Some (JStr "2.0") ->
  MCP.field "method" (Some body) = Some (JStr "tools/call") ->
  MCP.field "name" params = Some (JStr name) ->
  name <> "" ->
  let arguments :=
    match MCP.field "arguments" params with
    | Some a => if MCP.falsy (Some a) then JObj [] else a
    | None => JObj []
    end in
  MCP.post_mcp render (Some body) o fuel env
  = match callImageTool name arguments o fuel env with
    | Some (r, env') =>
        Some (200,
              MCP.mkResponse (MCP.field "id" (Some body))
                             (MCP.RpcResult (MCP.ToolAnswer r)),
              env')
    | None => None
    end.
Proof.
  intros body params Hrpc Hmethod Hname Hne arguments.
  unfold MCP.post_mcp. rewrite Hrpc. simpl MCP.falsy. simpl orb. cbv iota.
  unfold MCP.handleMCPRequest. rewrite Hmethod. simpl String.eqb. cbv iota.
  fold params. rewrite Hname.
  assert (Hp : MCP.falsy params = false).
  { destruct params as [[]|]; simpl in Hname; try discriminate. reflexivity. }
  assert (Hn : MCP.falsy (Some (JStr name)) = false).
  { simpl. now apply String.eqb_neq. }
  rewrite Hp, Hn. simpl orb. cbv iota. fold arguments.
  unfold MCP.call_tool.
  now destruct (callImageTool name arguments o fuel env) as [[r e]|].
Qed.

Lemma advertised_is_listed tool prop p :
  MCP.advertised tool prop = Some p ->
  In (tool, prop, p)
     (flat_map (fun t => map (fun kv => (MCP.t_name t, fst kv, snd kv))
                             (MCP.t_properties t))
               MCP.getToolsList).
Proof.
  unfold MCP.advertised.
  destruct (find (fun t => String.eqb (MCP.t_name t) tool) MCP.getToolsList)
    as [t|] eqn:Et; [|discriminate].
  destruct (find (fun kv => String.eqb (fst kv) prop) (MCP.t_properties t))
    as [kv|] eqn:Ep; [|discriminate].
  cbn [option_map]. intros H; inversion H; subst.
  apply find_some in Et as [Ht Hname]. apply find_some in Ep as [Hkv Hprop].
  apply String.eqb_eq in Hname, Hprop. subst.
  apply in_flat_map. exists t. split; [exact Ht|].
  apply in_map_iff. now exists kv.
Qed.

(** X23. What the tool list advertises is what the schemas enforce. The
    advertised tools are the six that [callImageTool] handles; for every
    advertised property of type number the tool's schema accepts an
    integer exactly when it lies within the advertised [minimum] and
    [maximum] (and accepts no number that is not an integer); and for
    every advertised [enum] it accepts a string exactly when it is one of
    the advertised names. *)
Theorem advertised_bounds_are_enforced :
  map MCP.t_name MCP.getToolsList = tool_names
  /\ (forall tool prop p v,
        MCP.advertised tool prop = Some p -> MCP.p_type p = "number" ->
        MCP.schema_accepts tool (args_with prop (JNum (Int v))) = within_bounds p v
        /\ MCP.schema_accepts tool (args_with prop (JNum NonInt)) = false)
  /\ (forall tool prop p s,
        MCP.advertised tool prop = Some p -> MCP.p_enum p <> [] ->
        MCP.schema_accepts tool (args_with prop (JStr s))
        = existsb (String.eqb s) (MCP.p_enum p)).
Proof.
  split; [reflexivity|]. split.
  - intros tool prop p v Hadv Htype. apply advertised_is_listed in Hadv.
    simpl in Hadv.
    repeat (destruct Hadv as [Hadv | Hadv];
            [inversion Hadv; subst; try discriminate Htype;
             (split; [|reflexivity]);
             unfold within_bounds, MCP.schema_accepts, args_with; simpl;
             destruct (1 <=? v); destruct (v <=? 20); destruct (v <=? 50);
             destruct (0 <=? v); reflexivity |]).
    destruct Hadv.
  - intros tool prop p s Hadv Henum. apply advertised_is_listed in Hadv.
    simpl in Hadv.
    repeat (destruct Hadv as [Hadv | Hadv];
            [inversion Hadv; subst; try (now destruct Henum);
             unfold MCP.schema_accepts, args_with; simpl;
             repeat match goal with
                    | |- context [String.eqb s ?a] => destruct (String.eqb s a)
                    end; reflexivity |]).
    destruct Hadv.
Qed.

(** * The two transports *)

Section Transports.

Lemma append_cancel (p a b : string) : (p ++ a = p ++ b)%string -> a = b.
Proof.
  induction p as [|c p IH]; simpl; [auto|].
  intros H. inversion H. auto.
Qed.

Lemma append_assoc (a b c : string) : ((a ++ b) ++ c = a ++ (b ++ c))%string.
Proof. induction a as [|x a IH]; simpl; [reflexivity | now rewrite IH]. Qed.

(** Two issue lists that differ in the first character of the first
    message have different texts. *)
Lemma message_differs path c1 c2 m1 m2 rest :
  c1 <> c2 ->
  Zod.message (Zod.mkIssue path (String c1 m1) :: rest)
  <> Zod.message (Zod.mkIssue path (String c2 m2) :: rest).
Proof.
  intros Hc. unfold Zod.message. cbn [map Zod.issue_path Zod.issue_message].
  intros H. apply append_cancel in H. cbn [String.concat] in H.
  destruct (map _ rest) as [|y ys].
  - rewrite <- !append_assoc in H.
    assert (E : forall t, ((path ++ ": ") ++ String c1 m1 = t)%string ->
                          ((path ++ ": ") ++ String c2 m2 = t)%string -> False).
    { intros t H1 H2. rewrite <- H2 in H1. apply append_cancel in H1.
      inversion H1. auto. }
    eapply E; [exact H | reflexivity].
  - rewrite !append_assoc in H. apply append_cancel in H.
    change ((": " ++ String c1 m1 ++ ", " ++ String.concat ", " (y :: ys))%string)
      with (String ":" (String " " (String c1 (m1 ++ ", " ++ String.concat ", " (y :: ys)))))%string
      in H.
    inversion H. auto.
Qed.

(** Without a [count] to speak of, and but for the wording, the two
    [GenerateImageSchema] agree. *)
Lemma schemas_agree_on_one args :
  asks_for_one args ->
  ~ own_wording "generate_image" args ->
  match SDK.GenerateImageSchema args with
  | Zod.Parsed a =>
      Zod.GenerateImageSchema args
      = Zod.Parsed (Zod.mkGenerateImage (SDK.gi_prompt a) (SDK.gi_model a) 1)
  | Zod.ZodError issues => Zod.GenerateImageSchema args = Zod.ZodError issues
  end.
Proof.
  unfold asks_for_one, own_wording, SDK.GenerateImageSchema, Zod.GenerateImageSchema.
  destruct args; try reflexivity. intros Hone Hsame.
  assert (Hc : Zod.optional_default (Zod.int_min_max 1 20) 1
                 (Zod.lookup "count" fields) "count" = Zod.Parsed 1).
  { destruct Hone as [-> | ->]; reflexivity. }
  rewrite Hc.
  assert (Hp : Zod.string_min_max_with 3 1000
                 "Prompt must be at least 3 characters"
                 "Prompt must be under 1000 characters"
                 (Zod.lookup "prompt" fields) "prompt"
               = Zod.string_min_max 3 1000 (Zod.lookup "prompt" fields) "prompt").
  { unfold Zod.string_min_max, Zod.string_min_max_with.
    destruct (Zod.lookup "prompt" fields) as [[| | | s | |]|]; try reflexivity.
    destruct ((3 <=? String.length s)%nat && (String.length s <=? 1000)%nat) eqn:E;
      [reflexivity|].
    exfalso. apply Hsame. left. split; [reflexivity|]. exists s.
    split; [reflexivity|].
    apply andb_false_iff in E as [E | E]; apply Nat.leb_gt in E; lia. }
  rewrite Hp.
  destruct (Zod.string_min_max 3 1000 _ _);
    destruct (Zod.optional_default Zod.model_enum _ _ _); cbn [Zod.issues_of];
    rewrite ?app_nil_r; reflexivity.
Qed.

Lemma GetJobStatusSchema_agree args :
  ~ own_wording "get_job_status" args ->
  SDK.GetJobStatusSchema args = Zod.GetJobStatusSchema args.
Proof.
  unfold own_wording, SDK.GetJobStatusSchema, Zod.GetJobStatusSchema,
    Zod.string_min, Zod.string_min_with.
  destruct args; try reflexivity. intros Hsame.
  destruct (Zod.lookup "job_id" fields) as [[| | | s | |]|]; try reflexivity.
  destruct s as [|c s]; [|reflexivity].
  exfalso. apply Hsame. right. split; reflexivity.
Qed.

(** Where the wording differs, both schemas reject, with texts that
    differ. *)
Lemma wording_differs toolName args :
  In toolName ["generate_image"; "get_job_status"] ->
  (toolName = "generate_image" -> asks_for_one args) ->
  own_wording toolName args ->
  exists here there,
    Zod.message here <> Zod.message there
    /\ (toolName = "generate_image" ->
        Zod.GenerateImageSchema args = Zod.ZodError here
        /\ SDK.GenerateImageSchema args = Zod.ZodError there)
    /\ (toolName = "get_job_status" ->
        Zod.GetJobStatusSchema args = Zod.ZodError here
        /\ SDK.GetJobStatusSchema args = Zod.ZodError there).
Proof.
  intros Hname Hone Hown. unfold own_wording in Hown.
  destruct args as [| | | | |fs]; try contradiction.
  destruct Hown as [[-> [p [Hp Hlen]]] | [-> Hid]].
  - specialize (Hone eq_refl). unfold asks_for_one in Hone.
    assert (Hc : Zod.optional_default (Zod.int_min_max 1 20) 1
                   (Zod.lookup "count" fs) "count" = Zod.Parsed 1).
    { destruct Hone as [-> | ->]; reflexivity. }
    assert (E : ((3 <=? String.length p) && (String.length p <=? 1000))%nat = false).
    { apply andb_false_iff. destruct Hlen as [H0 | Hbig].
      - left. apply Nat.leb_gt. lia.
      - right. apply Nat.leb_gt. lia. }
    unfold Zod.GenerateImageSchema, SDK.GenerateImageSchema,
      Zod.string_min_max, Zod.string_min_max_with.
    rewrite Hp, Hc, E. cbn [Zod.issues_of].
    set (rest := Zod.issues_of
                   (Zod.optional_default Zod.model_enum flux_schnell
                      (Zod.lookup "model" fs) "model")).
    destruct (String.length p <? 3)%nat.
    + exists (Zod.mkIssue "prompt" (Zod.at_least_characters 3) :: rest),
             (Zod.mkIssue "prompt" "Prompt must be at least 3 characters" :: rest).
      split; [|split; [|discriminate]].
      * apply message_differs. discriminate.
      * intros _. rewrite app_nil_r.
        destruct (Zod.optional_default Zod.model_enum _ _ _); split; reflexivity.
    + exists (Zod.mkIssue "prompt" (Zod.at_most_characters 1000) :: rest),
             (Zod.mkIssue "prompt" "Prompt must be under 1000 characters" :: rest).
      split; [|split; [|discriminate]].
      * apply message_differs. discriminate.
      * intros _. rewrite app_nil_r.
        destruct (Zod.optional_default Zod.model_enum _ _ _); split; reflexivity.
  - exists [Zod.mkIssue "job_id" (Zod.at_least_characters 1)],
           [Zod.mkIssue "job_id" "Job ID is required"].
    split; [|split; [discriminate|]].
    + apply message_differs. discriminate.
    + intros _. unfold Zod.GetJobStatusSchema, SDK.GetJobStatusSchema,
        Zod.string_min, Zod.string_min_with.
      rewrite Hid. split; reflexivity.
Qed.

End Transports.

(** X24. The two transports agree on the four tools they share, but for
    the wording of two validation errors. For [get_job_status],
    [list_generations] and [list_jobs], and for [generate_image] when the
    arguments leave [count] out or give 1, the handler registered with the
    SDK server and [callImageTool] return the same response and leave the
    same store and queue, whatever the store and the store or queue errors
    on the way, for every argument except a [prompt] string of the wrong
    length and an empty [job_id]: there both reject the call and change
    nothing, each with the message of its own schema, and the two texts
    differ. *)
Theorem transports_agree toolName args (o : Oracle) (fuel : nat) (env : Env) :
  In toolName ["generate_image"; "get_job_status"; "list_generations"; "list_jobs"] ->
  (toolName = "generate_image" -> asks_for_one args) ->
  (~ own_wording toolName args ->
   callImageTool toolName args o fuel env = Some (SDK.tools_call toolName args o env))
  /\ (own_wording toolName args ->
      exists here there,
        here <> there
        /\ callImageTool toolName args o fuel env
           = Some (mkResult (Failure here) true, env)
        /\ SDK.tools_call toolName args o env
           = (mkResult (Failure there) true, env)).
Proof.
  intros Hname Hone. split.
  - intros Hsame.
    destruct Hname as [<- | [<- | [<- | [<- | []]]]];
      unfold callImageTool, SDK.tools_call; simpl String.eqb; cbv iota; f_equal;
      try (unfold catch_all, list_generations, SDK.list_generations,
             SDK.or_failure, try_catch, ret;
           destruct (Zod.ListGenerationsSchema args); [|reflexivity];
           now destruct (D1.limit_offset _ _ _));
      try (unfold catch_all, list_jobs, SDK.list_jobs,
             SDK.or_failure, try_catch, ret;
           destruct (Zod.ListJobsSchema args); [|reflexivity];
           now destruct (D1.limit_offset _ _ _)).
    + pose proof (schemas_agree_on_one args (Hone eq_refl) Hsame) as Hs.
      unfold catch_all, generate_image, SDK.generate_image.
      destruct (SDK.GenerateImageSchema args) as [a|issues]; rewrite Hs;
        [|reflexivity].
      simpl. unfold SDK.or_failure, try_catch, bind, run, send, ret.
      destruct (insert_outage o 0); [reflexivity|].
      destruct (D1.insert_job _ _ _ _ _ _ (DB env)); [|reflexivity].
      destruct (send_outage o 0); reflexivity.
    + unfold catch_all, get_job_status, SDK.get_job_status.
      rewrite (GetJobStatusSchema_agree args Hsame).
      destruct (Zod.GetJobStatusSchema args); [|reflexivity].
      unfold SDK.or_failure, try_catch.
      now destruct (D1.first_job a (DB env)).
  - intros Hown.
    assert (Hname' : In toolName ["generate_image"; "get_job_status"]).
    { unfold own_wording in Hown. destruct args; try contradiction.
      destruct Hown as [[-> _] | [-> _]]; simpl; auto. }
    destruct (wording_differs toolName args Hname' Hone Hown)
      as [here [there [Hdiff [Hgen Hget]]]].
    exists (Zod.message here), (Zod.message there). split; [exact Hdiff|].
    destruct Hname' as [<- | [<- | []]].
    + destruct (Hgen eq_refl) as [Hw Hs].
      unfold callImageTool, SDK.tools_call; simpl String.eqb; cbv iota.
      unfold catch_all, generate_image, SDK.generate_image.
      rewrite Hw, Hs. split; reflexivity.
    + destruct (Hget eq_refl) as [Hw Hs].
      unfold callImageTool, SDK.tools_call; simpl String.eqb; cbv iota.
      unfold catch_all, get_job_status, SDK.get_job_status.
      rewrite Hw, Hs. split; reflexivity.
Qed.

Lemma transports_agree_witness :
  callImageTool "generate_image" Scenario.one_apple Scenario.caller 0 initial
  = Some (SDK.tools_call "generate_image" Scenario.one_apple Scenario.caller initial)
  /\ exists here there,
       here <> there
       /\ callImageTool "get_job_status" (job_id_args "") Scenario.caller 0
            Scenario.created
          = Some (mkResult (Failure here) true, Scenario.created)
       /\ SDK.tools_call "get_job_status" (job_id_args "") Scenario.caller
            Scenario.created
          = (mkResult (Failure there) true, Scenario.created).
Proof.
  split.
  - apply transports_agree.
    + simpl. auto.
    + intros _. simpl. now left.
    + simpl. intros [[_ [p [Hp [Hlen | Hlen]]]] | [Hname _]];
        try discriminate Hname; inversion Hp; subst; simpl in Hlen; lia.
  - apply (transports_agree "get_job_status" (job_id_args "") Scenario.caller 0
             Scenario.created).
    + simpl. auto.
    + discriminate.
    + simpl. right. split; reflexivity.
Defined.

(** X25. Where the transports differ. The handler registered with the
    SDK server does not read [count]: whatever [count] says, a call it
    accepts creates exactly one job and sends exactly one work unit (on a
    store and queue that accept, with a fresh identifier). And it knows
    neither [wait_for_completion] nor [generate_image_and_wait]: it
    answers both with the failure envelope ['Unknown tool: <name>'] and
    changes nothing. *)
Theorem sdk_transport_creates_one_job fs p m (o : Oracle) (env : Env) :
  Zod.lookup "prompt" fs = Some (JStr p) ->
  (3 <= String.length p <= 1000)%nat ->
  (Zod.lookup "model" fs = None /\ m = flux_schnell)
  \/ Zod.lookup "model" fs = Some (JStr (model_name m)) ->
  insert_outage o 0 = None -> send_outage o 0 = None ->
  D1.has_job (randomUUID o 0) (DB env) = false ->
  SDK.tools_call "generate_image" (JObj fs) o env
  = (mkResult (GenerateStarted (randomUUID o 0) p m) false,
     mkEnv (D1.mkDb (D1.generation_jobs (DB env)
                       ++ [mkJob (randomUUID o 0) pending p m None None (now o) (now o)])
                    (D1.generations (DB env)))
           (IMAGE_QUEUE env ++ [mkMessage (randomUUID o 0) p m]))
  /\ forall toolName args,
       toolName = "wait_for_completion" \/ toolName = "generate_image_and_wait" ->
       SDK.tools_call toolName args o env
       = (mkResult (Failure ("Unknown tool: " ++ toolName)) true, env).
Proof.
  intros Hp Hlen Hm Hi Hs Hfresh. split.
  - unfold SDK.tools_call; simpl String.eqb; cbv iota.
    unfold catch_all, SDK.generate_image, SDK.GenerateImageSchema.
    rewrite (proj2 (prompt_accepts_with _ _ (Zod.lookup "prompt" fs) p) (conj Hp Hlen)).
    rewrite (proj2 (model_enum_accepts (Zod.lookup "model" fs) m) Hm).
    simpl. unfold SDK.or_failure, try_catch, bind, run, send, ret, D1.insert_job.
    now rewrite Hi, Hfresh, Hs.
  - intros toolName args [-> | ->]; reflexivity.
Qed.

Lemma sdk_transport_creates_one_job_witness :
  SDK.tools_call "generate_image"
    (JObj [("prompt", JStr "a red apple"); ("model", JStr "sdxl-base");
           ("count", JNum (Int 500))])
    Scenario.caller initial
  = (mkResult (GenerateStarted "job-a" "a red apple" sdxl_base) false,
     mkEnv (D1.mkDb [mkJob "job-a" pending "a red apple" sdxl_base None None 1000 1000]
                    [])
           [mkMessage "job-a" "a red apple" sdxl_base]).
Proof.
  apply (sdk_transport_creates_one_job
           [("prompt", JStr "a red apple"); ("model", JStr "sdxl-base");
            ("count", JNum (Int 500))]
           "a red apple" sdxl_base Scenario.caller initial);
    try reflexivity.
  - simpl. lia.
  - right. reflexivity.
Defined.

(** * The further properties on the small history *)

Lemma GenerateImageSchema_accepts_exactly_witness :
  Zod.GenerateImageSchema Scenario.three_apples
  = Zod.Parsed (Zod.mkGenerateImage "a red apple" flux_schnell 3).
Proof.
  apply (proj1 GenerateImageSchema_accepts_exactly).
  split; [split; [reflexivity | simpl; lia]|].
  split; [left; split; reflexivity|].
  right. split; [reflexivity | lia].
Defined.

Lemma created_job_is_found_pending_witness :
  exists r env',
    callImageTool "generate_image" Scenario.three_apples Scenario.caller 0 initial
    = Some (r, env')
    /\ isError r = false
    /\ List.length (response_job_ids r) = 3%nat.
Proof.
  destruct (created_job_is_found_pending Scenario.three_apples
              Scenario.three_apples_params Scenario.caller 0 initial eq_refl)
    as [r [env' [Hcall [Hok [Hlen _]]]]].
  - accepts_all.
  - split; [simpl; distinct_strings | reflexivity].
  - exists r, env'. auto.
Defined.

Lemma get_job_status_answers_witness :
  callImageTool "get_job_status" (job_id_args "job-zz") Scenario.caller 0
    Scenario.created
  = Some (mkResult (JobNotFound "job-zz") true, Scenario.created).
Proof.
  destruct (proj1 (get_job_status_answers (job_id_args "job-zz") Scenario.caller 0
                     Scenario.created) "job-zz" eq_refl) as [_ [Hmissing _]].
  apply Hmissing. reflexivity.
Defined.

Lemma list_jobs_pages_cover_witness :
  let page i :=
    jobs_of_response
      (callImageTool "list_jobs" (list_jobs_args None 2 (Z.of_nat i * 2))
         Scenario.caller 0 Scenario.created_three) in
  Permutation (List.concat (map page (seq 0 2)))
              (D1.generation_jobs (DB Scenario.created_three)).
Proof.
  destruct (list_jobs_pages_cover None 2 2 Scenario.caller 0 Scenario.created_three)
    as [_ Hall].
  - lia.
  - vm_compute. reflexivity.
  - apply Hall. vm_compute. discriminate.
Defined.

Lemma wait_returns_completed_at_once_witness :
  exists r,
    wait_for_completion (job_id_args "job-a") (Scenario.waiter 145) 1
      Scenario.job_a_completed
    = Some (mkWaited r 145 0)
    /\ isError r = false.
Proof.
  destruct (wait_returns_completed_at_once (job_id_args "job-a") (Zod.Single "job-a")
              (Scenario.waiter 145) 1 Scenario.job_a_completed eq_refl)
    as [r [Hw [Hok _]]].
  - lia.
  - unfold primary_key. simpl. distinct_strings.
  - simpl. distinct_strings.
  - intros x [<- | []]. reflexivity.
  - exists r. auto.
Defined.

Lemma wait_success_means_all_completed_witness :
  map id (D1.generation_jobs (DB Scenario.b_then_a_completed)) = ["job-b"; "job-a"]
  /\ exists w rows,
       wait_for_completion (job_ids_args ["job-b"; "job-a"]) (Scenario.waiter 0) 1
         Scenario.b_then_a_completed = Some w
       /\ content (result w) = WaitCompletedMany 2 rows
       /\ map id rows = ["job-a"; "job-b"]
       /\ forall j, In j rows -> status j = completed.
Proof.
  split; [reflexivity|].
  set (a := mkJob "job-a" completed "a red apple" flux_schnell
                  (Some "https://r2.dev/a.png") None 1000 5000).
  set (b := mkJob "job-b" completed "a red apple" flux_schnell
                  (Some "https://r2.dev/b.png") None 1000 3000).
  destruct (wait_success_means_all_completed (job_ids_args ["job-b"; "job-a"])
              (Scenario.waiter 0) 1 Scenario.b_then_a_completed
              (mkWaited (mkResult (WaitCompletedMany 2 [a; b]) false) 0 0)
              eq_refl eq_refl)
    as [params [Hparse [_ [Hall Hcontent]]]].
  cbv in Hparse. inversion Hparse; subst params.
  exists (mkWaited (mkResult (WaitCompletedMany 2 [a; b]) false) 0 0),
         (D1.select_jobs_in ["job-b"; "job-a"] (DB Scenario.b_then_a_completed)).
  split; [reflexivity|]. split; [exact Hcontent|]. split; [reflexivity | exact Hall].
Defined.

Lemma wait_reports_failure_at_once_witness :
  exists r,
    wait_for_completion (job_ids_args ["job-a"; "job-b"]) (Scenario.waiter 0) 1
      Scenario.one_failed_two_pending
    = Some (mkWaited r 0 0)
    /\ isError r = true.
Proof.
  destruct (wait_reports_failure_at_once (job_ids_args ["job-a"; "job-b"])
              (Zod.Multiple ["job-a"; "job-b"]) (Scenario.waiter 0) 1
              Scenario.one_failed_two_pending eq_refl)
    as [r [Hw [Herr _]]].
  - lia.
  - unfold primary_key. simpl. distinct_strings.
  - simpl. distinct_strings.
  - intros x [<- | [<- | []]]; reflexivity.
  - exists "job-a". split; [now left | reflexivity].
  - exists r. auto.
Defined.

Lemma wait_always_returns_witness :
  exists w,
    wait_for_completion (job_id_args "job-a") (Scenario.waiter 145) 41
      Scenario.created = Some w
    /\ (sleeps w <= 21)%nat.
Proof.
  destruct (wait_always_returns (job_id_args "job-a") (Scenario.waiter 145) 41
              Scenario.created) as [w [Hw [_ Hbound]]].
  - intros k. simpl. unfold POLL_INTERVAL. lia.
  - lia.
  - exists w. split; [exact Hw|]. apply (Hbound (Zod.Single "job-a")). reflexivity.
Defined.

Lemma generate_image_and_wait_composes_witness :
  callImageTool "generate_image_and_wait" Scenario.one_apple Scenario.caller 30 initial
  = callImageTool "wait_for_completion" (job_id_args "job-a") Scenario.caller 30
      Scenario.created.
Proof.
  apply (generate_image_and_wait_composes Scenario.one_apple Scenario.caller 30 initial
           (mkResult (GenerateStarted "job-a" "a red apple" flux_schnell) false)
           Scenario.created eq_refl).
Defined.

Lemma other_tools_change_nothing_witness :
  option_map snd
    (callImageTool "list_jobs" (JObj []) Scenario.caller 0 Scenario.created)
  = Some Scenario.created
  /\ ~ In "delete_job" tool_names.
Proof.
  split.
  - destruct (callImageTool "list_jobs" (JObj []) Scenario.caller 0 Scenario.created)
      as [[r env']|] eqn:E.
    + simpl. f_equal.
      apply (proj1 (other_tools_change_nothing "list_jobs" (JObj []) Scenario.caller 0
                      Scenario.created) ltac:(discriminate) ltac:(discriminate) r env' E).
    + vm_compute in E. discriminate E.
  - unfold tool_names. simpl. intuition discriminate.
Defined.

Lemma jobs_are_kept_with_their_identity_witness :
  exists j',
    D1.first_job "job-a"
      (DB (run_events [QueueBatch [Scenario.first_delivery;
                                   Scenario.duplicate_delivery_failing]]
                      Scenario.created))
    = Some j'
    /\ prompt j' = "a red apple" /\ created_at j' = 1000.
Proof.
  destruct (jobs_are_kept_with_their_identity
              [QueueBatch [Scenario.first_delivery; Scenario.duplicate_delivery_failing]]
              Scenario.created "job-a"
              (mkJob "job-a" pending "a red apple" flux_schnell None None 1000 1000)
              eq_refl)
    as [j' [Hj' [_ [Hp [_ Hc]]]]].
  exists j'. auto.
Defined.

Lemma result_and_error_are_never_cleared_witness :
  exists j',
    D1.first_job "job-a"
      (DB (run_events [QueueBatch [Scenario.duplicate_delivery_failing]]
                      Scenario.job_a_completed))
    = Some j'
    /\ image_url j' <> None.
Proof.
  destruct (result_and_error_are_never_cleared
              [QueueBatch [Scenario.duplicate_delivery_failing]]
              Scenario.job_a_completed "job-a"
              (mkJob "job-a" completed "a red apple" flux_schnell
                     (Some "https://r2.dev/1.png") None 1000 3000)
              eq_refl)
    as [j' [Hj' [Hurl _]]].
  exists j'. split; [exact Hj'|]. apply Hurl. discriminate.
Defined.

Lemma archive_refers_to_stored_jobs_witness :
  let record job_id :=
    mkGeneration "gen-1" job_id "https://r2.dev/1.png" "a red apple" flux_schnell 3000 in
  let db :=
    exec (W_archive (record "job-zz"))
      (exec (W_archive (record "job-a"))
         (exec (W_completed "job-a" "https://r2.dev/1.png" 3000)
            (exec (W_processing "job-a" 2000)
               (exec (W_insert_job "job-a" "a red apple" flux_schnell 1000)
                  D1.empty)))) in
  (D1.generations db = [record "job-a"] /\ archive_consistent db)
  /\ List.length
       (D1.generations
          (DB (run_events
                 [ToolCall "generate_image" Scenario.one_apple Scenario.caller 0;
                  QueueBatch [Scenario.first_delivery; Scenario.duplicate_delivery]]
                 initial))) = 2%nat
  /\ archive_consistent
       (DB (run_events
              [ToolCall "generate_image" Scenario.one_apple Scenario.caller 0;
               QueueBatch [Scenario.first_delivery; Scenario.duplicate_delivery]]
              initial)).
Proof.
  intros record db.
  split; [split; [reflexivity|] | split; [reflexivity|]].
  - apply (proj1 archive_refers_to_stored_jobs).
    unfold db. repeat apply reach_write. apply reach_empty.
  - apply (proj2 archive_refers_to_stored_jobs).
Defined.

Lemma collaborator_failure_is_recorded_witness :
  D1.first_job "job-a"
    (DB (snd (process_message Scenario.duplicate_delivery_failing
                Scenario.job_a_completed)))
  = Some (mkJob "job-a" failed "a red apple" flux_schnell
                (Some "https://r2.dev/1.png")
                (Some "Image generation failed: capacity exceeded") 1000 7000).
Proof.
  destruct (collaborator_failure_is_recorded Scenario.duplicate_delivery_failing
              Scenario.job_a_completed
              (mkJob "job-a" completed "a red apple" flux_schnell
                     (Some "https://r2.dev/1.png") None 1000 3000)
              eq_refl)
    with (stage := "Image generation failed: ") (msg := "capacity exceeded")
    as [_ [Hj _]].
  - repeat split.
  - left. split; reflexivity.
  - exact Hj.
Defined.

Lemma delivery_for_unknown_job_is_retried_witness :
  fst (process_message Scenario.first_delivery initial) = Done Retry
  /\ DB (snd (process_message Scenario.first_delivery initial)) = DB initial.
Proof.
  apply delivery_for_unknown_job_is_retried. reflexivity.
Defined.

Lemma sanitizedPrompt_is_safe_witness :
  R2Storage.ends_with_hyphen (R2Storage.sanitizedPrompt "A red apple!") = false.
Proof.
  destruct (sanitizedPrompt_is_safe "A red apple!") as [_ [_ [_ [_ Hend]]]].
  apply Hend. simpl. lia.
Defined.


Lemma tools_call_returns_the_tool_result_witness :
  MCP.post_mcp (fun _ => "")
    (Some (JObj [("jsonrpc", JStr "2.0"); ("id", JNum (Int 7));
                 ("method", JStr "tools/call");
                 ("params", JObj [("name", JStr "get_job_status");
                                  ("arguments", job_id_args "job-zz")])]))
    Scenario.caller 0 Scenario.created
  = Some (200,
          MCP.mkResponse (Some (JNum (Int 7)))
            (MCP.RpcResult (MCP.ToolAnswer (mkResult (JobNotFound "job-zz") true))),
          Scenario.created).
Proof.
  rewrite (tools_call_returns_the_tool_result (fun _ => "")
             [("jsonrpc", JStr "2.0"); ("id", JNum (Int 7));
              ("method", JStr "tools/call");
              ("params", JObj [("name", JStr "get_job_status");
                               ("arguments", job_id_args "job-zz")])]
             "get_job_status" Scenario.caller 0 Scenario.created);
    try reflexivity.
  discriminate.
Defined.

Lemma advertised_bounds_are_enforced_witness :
  MCP.schema_accepts "generate_image" (args_with "count" (JNum (Int 21))) = false.
Proof.
  destruct advertised_bounds_are_enforced as [_ [Hnum _]].
  destruct (Hnum "generate_image" "count" (MCP.number_property 1 (Some 20) 1) 21
              eq_refl eq_refl) as [Hacc _].
  rewrite Hacc. reflexivity.
Defined.
